(** * LZSS codec of lzss.cpp: shallow embedding and verification

    The file follows src/lzss.cpp.  A C [int] is a [Z] in the signed 32-bit
    range, with the wrap-around of the arithmetic written out ([wrap32]).
    The input of [compress] is the list of its bytes; the destination is a
    store of 32-bit words, indexed from [output] (the code only ever
    accesses it through [int*]).  Pointers are offsets from the start of
    the buffer they point into. *)

From Stdlib Require Import ZArith Lia Bool List Ascii.
From stdpp Require Import base option list list_numbers gmap strings.

Local Open Scope Z_scope.

(** ** Machine integers *)

(** The value an [int] holds after a computation whose mathematical result
    is [x] (two's complement, 32 bits). *)
Definition wrap32 (x : Z) : Z :=
  let u := x mod 2 ^ 32 in if u <? 2 ^ 31 then u else u - 2 ^ 32.

Definition int32 (x : Z) : Prop := - 2 ^ 31 <= x < 2 ^ 31.

Definition is_byte (b : Z) : Prop := 0 <= b < 256.

(** [while (dictionaryLength) { lengthShift++; dictionaryLength >>= 1; }]
    (lines 58 and 211).  On a negative [int] the arithmetic shift never
    reaches 0: the loop has no result there. *)
Fixpoint shiftLoop (fuel : nat) (dictionaryLength lengthShift : Z) : option Z :=
  match fuel with
  | O => None
  | S fuel =>
      if dictionaryLength =? 0 then Some lengthShift
      else shiftLoop fuel (Z.shiftr dictionaryLength 1) (lengthShift + 1)
  end.

(** ** The encoder: match search (lines 87-114) *)

Section Search.
(** The [inputLength] bytes at [input], and the byte that lies right
    behind them: the inner loop dereferences [p2] before it tests
    [p2 < end], so it reads that byte (its value never matters, see
    [matchLoop_past]). *)
Variable input : list Z.
Variable past : Z.

Definition inputLength : Z := Z.of_nat (length input).

Definition peek (p : Z) : Z := default past (input !! Z.to_nat p).

Section At.
Variables current maxMatch : Z.

(** Lines 100-105: the loop that extends one candidate match. *)
Fixpoint matchLoop (fuel : nat) (p1 p2 matchLength : Z) : option Z :=
  match fuel with
  | O => None
  | S fuel =>
      if (peek p1 =? peek p2) && (p1 <? current)
         && (matchLength <? maxMatch) && (p2 <? inputLength)
      then matchLoop fuel (p1 + 1) (p2 + 1) (matchLength + 1)
      else Some matchLength
  end.

(** Lines 96-105 for the candidate starting at [search]. *)
Definition matchAt (search : Z) : option Z :=
  matchLoop (S (Z.to_nat maxMatch)) search current 0.

(** Lines 94-114: the scan of the window, from the farthest candidate
    to the nearest. *)
Fixpoint searchLoop (fuel : nat) (search bestLength bestOffset : Z)
  : option (Z * Z) :=
  match fuel with
  | O => None
  | S fuel =>
      if search + bestLength <=? current then
        matchLength ← matchAt search;
        if matchLength >=? bestLength
        then searchLoop fuel (search + 1) matchLength (current - search)
        else searchLoop fuel (search + 1) bestLength bestOffset
      else Some (bestLength, bestOffset)
  end.
End At.

(** Lines 87-114: the window start, then the scan.  The result is
    [(bestLength, bestOffset)]. *)
Definition findMatch (current maxOffset maxMatch : Z) : option (Z * Z) :=
  let search := current - maxOffset in
  let search := if search <? 0 then 0 else search in
  searchLoop current maxMatch (S (S (Z.to_nat (current - search)))) search 0 0.
End Search.

(** ** The encoder: packing (lines 27-192) *)

(** The reasons for which the code calls [error], which prints a message
    and ends the process with [exit(EXIT_FAILURE)]. *)
Inductive failure :=
| InvalidDictionary   (* "Dictionary length must be a power of 2" *)
| DictionaryTooSmall  (* "Dictionary length can not be less than 4 bytes" *)
| DictionaryTooLarge  (* "Dictionary length can exceed 16384 bytes" *)
| OutputTooSmall.     (* "Destination buffer is too small" *)

(** Ghost data, absent from the code: what each iteration of the main loop
    encoded, and the stream of each word reserved after the header. *)
Inductive element :=
| Literal (pos byte : Z)          (* lines 158-180, at input offset [pos] *)
| Token (pos len offset : Z).     (* lines 128-154: bestLength, bestOffset *)

Inductive stream := Flags | Strings | Bytes.

(** The local variables of [compress] and the destination.  [mem] holds the
    words stored so far, by word index from [output]; [next], [nextBits],
    [nextBytes], [nextStrings] are word indices too, with -1 for [nullptr];
    [current] is an offset into the input. *)
Record locals := Locals {
  mem : gmap Z Z;
  next : Z;
  nextBits : Z;
  nextBytes : Z;
  nextStrings : Z;
  bits : Z;
  bitMask : Z;
  bytes : Z;
  byteCount : Z;
  strings : Z;
  stringCount : Z;
  current : Z;
  emitted : list element;   (* ghost *)
  layout : list stream      (* ghost *)
}.

(** How a call of [compress] ends. *)
Inductive result :=
| Exit (e : failure)        (* [error] was called *)
| WildStore (p : Z)         (* a store to word [p], outside the destination *)
| Unfinished                (* the model ran out of fuel *)
| Return (ret : Z) (s : locals).

(** A block of a function either falls through with a value or leaves the
    function with its result [R]. *)
Inductive flow (R A : Type) :=
| Next (a : A)
| Stop (r : R).
Arguments Next {R A} a.
Arguments Stop {R A} r.

#[global] Instance flow_bind {R} : MBind (flow R) := λ A B f m,
  match m with Next a => f a | Stop r => Stop r end.

Definition set_mem (v : gmap Z Z) (s : locals) : locals :=
  Locals v (next s) (nextBits s) (nextBytes s) (nextStrings s) (bits s)
    (bitMask s) (bytes s) (byteCount s) (strings s) (stringCount s)
    (current s) (emitted s) (layout s).

(** Lines 50-52: the two words of the header. *)
Definition writeHeader (uncompressedLength dictionaryLength : Z)
    (m : gmap Z Z) : gmap Z Z :=
  <[1 := dictionaryLength]> (<[0 := uncompressedLength]> m).

Section Packer.
Variable input : list Z.
Variable past : Z.
Variable outputLength : Z.

(** [*p = v] through an [int*] into the destination of [outputLength]
    bytes. *)
Definition store (p v : Z) (s : locals) : flow result locals :=
  if (0 <=? p) && (4 * p + 4 <=? outputLength)
  then Next (set_mem (<[p := v]> (mem s)) s)
  else Stop (WildStore p).

(** Lines 117-123. *)
Definition openFlags (s : locals) : flow result locals :=
  if bitMask s =? 0 then
    if 4 * next s =? outputLength then Stop (Return 0 s)
    else Next (Locals (mem s) (next s + 1) (next s) (nextBytes s)
                 (nextStrings s) 0 1 (bytes s) (byteCount s) (strings s)
                 (stringCount s) (current s) (emitted s)
                 (layout s ++ [Flags]))
  else Next s.

(** Lines 130-132 ([isString]) and 160-161 (not [isString]). *)
Definition putFlag (isString : bool) (s : locals) : flow result locals :=
  let bits' := if isString then Z.lor (bits s) (bitMask s) else bits s in
  let bitMask' := wrap32 (Z.shiftl (bitMask s) 1) in
  let s := Locals (mem s) (next s) (nextBits s) (nextBytes s)
             (nextStrings s) bits' bitMask' (bytes s) (byteCount s)
             (strings s) (stringCount s) (current s) (emitted s)
             (layout s) in
  if bitMask s =? 0 then store (nextBits s) (bits s) s else Next s.

(** Lines 135-140. *)
Definition openStrings (s : locals) : flow result locals :=
  if stringCount s =? 0 then
    if 4 * next s =? outputLength then Stop (Return 0 s)
    else Next (Locals (mem s) (next s + 1) (nextBits s) (nextBytes s)
                 (next s) (bits s) (bitMask s) (bytes s) (byteCount s) 0
                 (stringCount s) (current s) (emitted s)
                 (layout s ++ [Strings]))
  else Next s.

(** Lines 143-154. *)
Definition putString (lengthShift bestLength bestOffset : Z) (s : locals)
  : flow result locals :=
  let strings' :=
    wrap32 (strings s +
            Z.shiftl (Z.shiftl (bestLength - 3) lengthShift + (bestOffset - 3))
                     (stringCount s * 16)) in
  let stringCount' := stringCount s + 1 in
  let upd (count : Z) (s : locals) :=
    Locals (mem s) (next s) (nextBits s) (nextBytes s) (nextStrings s)
      (bits s) (bitMask s) (bytes s) (byteCount s) strings' count
      (current s + bestLength)
      (emitted s ++ [Token (current s) bestLength bestOffset]) (layout s) in
  if stringCount' =? 2
  then s' ← store (nextStrings s) strings' s; Next (upd 0 s')
  else Next (upd stringCount' s).

(** Lines 164-169. *)
Definition openBytes (s : locals) : flow result locals :=
  if byteCount s =? 0 then
    if 4 * next s =? outputLength then Stop (Return 0 s)
    else Next (Locals (mem s) (next s + 1) (nextBits s) (next s)
                 (nextStrings s) (bits s) (bitMask s) 0 (byteCount s)
                 (strings s) (stringCount s) (current s) (emitted s)
                 (layout s ++ [Bytes]))
  else Next s.

(** Lines 172-180. *)
Definition putByte (s : locals) : flow result locals :=
  let bytes' :=
    wrap32 (bytes s + Z.shiftl (peek input past (current s)) (byteCount s * 8)) in
  let byteCount' := byteCount s + 1 in
  let upd (count : Z) (s : locals) :=
    Locals (mem s) (next s) (nextBits s) (nextBytes s) (nextStrings s)
      (bits s) (bitMask s) bytes' count (strings s) (stringCount s)
      (current s + 1)
      (emitted s ++ [Literal (current s) (peek input past (current s))])
      (layout s) in
  if byteCount' =? 4
  then s' ← store (nextBytes s) bytes' s; Next (upd 0 s')
  else Next (upd byteCount' s).

Section Loop.
Variables maxOffset maxMatch lengthShift : Z.

(** Lines 87-181: one iteration of the main loop. *)
Definition body (s : locals) : flow result locals :=
  match findMatch input past (current s) maxOffset maxMatch with
  | None => Stop Unfinished
  | Some (bestLength, bestOffset) =>
      s ← openFlags s;
      if bestLength >? 2 then
        s ← putFlag true s;
        s ← openStrings s;
        putString lengthShift bestLength bestOffset s
      else
        s ← putFlag false s;
        s ← openBytes s;
        putByte s
  end.

(** Lines 185-191. *)
Definition finish (s : locals) : result :=
  let r :=
    s ← (if bitMask s =? 0 then Next s else store (nextBits s) (bits s) s);
    s ← (if byteCount s =? 0 then Next s else store (nextBytes s) (bytes s) s);
    s ← (if stringCount s =? 0 then Next s
         else store (nextStrings s) (strings s) s);
    Stop (R := result) (A := locals) (Return (wrap32 (4 * next s)) s) in
  match r with Next _ => Unfinished | Stop r => r end.

(** Lines 85-191. *)
Fixpoint mainLoop (fuel : nat) (s : locals) : result :=
  match fuel with
  | O => Unfinished
  | S fuel =>
      if current s <? inputLength input then
        match body s with
        | Next s => mainLoop fuel s
        | Stop r => r
        end
      else finish s
  end.
End Loop.

(** Lines 27-192.  [inputLength] is the number of bytes of [input]. *)
Definition compress (dictionaryLength : Z) : result :=
  if negb (Z.land dictionaryLength (wrap32 (dictionaryLength - 1)) =? 0)
  then Exit InvalidDictionary
  else if dictionaryLength <? 4 then Exit DictionaryTooSmall
  else if dictionaryLength >? 16384 then Exit DictionaryTooLarge
  else if outputLength <? 8 then Exit OutputTooSmall
  else
    let header := writeHeader (inputLength input) dictionaryLength ∅ in
    let maxOffset := dictionaryLength + 2 in
    let maxMatch := Z.quot 65536 dictionaryLength + 2 in
    match shiftLoop 33 dictionaryLength (-1) with
    | None => Unfinished
    | Some lengthShift =>
        mainLoop maxOffset maxMatch lengthShift (S (length input))
          (Locals header 2 (-1) (-1) (-1) 0 0 0 0 0 0 0 [] [])
    end.
End Packer.

(** The first [n] words of the destination, if all of them were stored. *)
Definition image (m : gmap Z Z) (n : Z) : option (list Z) :=
  mapM (λ p, m !! p) (seqZ 0 n).

(** ** The decoder (lines 195-282) *)

Module Decoder.

(** What the C standard leaves undefined and a malformed stream can
    trigger. *)
Inductive fault :=
  | ReadPastInput      (* [*current++] behind the last word of the input *)
  | StorePastOutput    (* a store behind [outputBufferLength] bytes *)
  | CopyBeforeOutput   (* [memcpy] from before the start of the output *)
  | CopyOverlap        (* [memcpy] between overlapping ranges *)
  | BadShift           (* a shift by a negative count *)
  | Hang.              (* the [lengthShift] loop on a negative length *)

Inductive result :=
  | Exit (e : failure)
  | Wrong (f : fault)
  | Unfinished
  | Return (ret : Z) (output : list Z).

(** The local variables of [decompress].  [current] is a word index into
    the input; [output] holds the bytes written so far, so the pointer
    [buffer] stands [length output] bytes into the destination. *)
Record locals := Locals {
    current : Z;
    bits : Z;
    bitMask : Z;
    bytes : Z;
    byteCount : Z;
    strings : Z;
    stringCount : Z;
    output : list Z;
    remaining : Z
  }.

(** [memcpy(buffer, p, length)] inside the destination of [capacity]
    bytes, of which the first [length output] are written. *)
Definition memcpy (capacity : Z) (output : list Z) (p len : Z)
  : flow result (list Z) :=
  let buffer := Z.of_nat (length output) in
  if p <? 0 then Stop (Wrong CopyBeforeOutput)
  else if buffer <? p + len then Stop (Wrong CopyOverlap)
  else if capacity <? buffer + len then Stop (Wrong StorePastOutput)
  else Next (output ++ take (Z.to_nat len) (drop (Z.to_nat p) output)).

Section Replay.
Variable input : list Z.
Variable outputBufferLength : Z.

(** [*current++] *)
Definition fetch (s : locals) : flow result (Z * locals) :=
  match input !! Z.to_nat (current s) with
  | Some w =>
      Next (w, Locals (current s + 1) (bits s) (bitMask s) (bytes s)
                 (byteCount s) (strings s) (stringCount s) (output s)
                 (remaining s))
  | None => Stop (Wrong ReadPastInput)
  end.

(** Lines 198-200: the two words of the header. *)
Definition readHeader (s : locals) : flow result (Z * Z * locals) :=
  '(uncompressedLength, s) ← fetch s;
  '(dictionaryLength, s) ← fetch s;
  Next (uncompressedLength, dictionaryLength, s).

(** Lines 228-232. *)
Definition fillFlags (s : locals) : flow result locals :=
  if bitMask s =? 0 then
    '(w, s) ← fetch s;
    Next (Locals (current s) w 1 (bytes s) (byteCount s) (strings s)
            (stringCount s) (output s) (remaining s))
  else Next s.

(** Lines 238-242. *)
Definition fillStrings (s : locals) : flow result locals :=
  if stringCount s =? 0 then
    '(w, s) ← fetch s;
    Next (Locals (current s) (bits s) (bitMask s) (bytes s) (byteCount s)
            w 2 (output s) (remaining s))
  else Next s.

(** Lines 257-261. *)
Definition fillBytes (s : locals) : flow result locals :=
  if byteCount s =? 0 then
    '(w, s) ← fetch s;
    Next (Locals (current s) (bits s) (bitMask s) w 4 (strings s)
            (stringCount s) (output s) (remaining s))
  else Next s.

Section Loop.
Variables offsetMask lengthShift lengthMask : Z.

(** Lines 245-252. *)
Definition copyString (s : locals) : flow result locals :=
  let buffer := Z.of_nat (length (output s)) in
  let p := buffer - Z.land (strings s) offsetMask - 3 in
  let len := Z.land (Z.shiftr (strings s) lengthShift) lengthMask + 3 in
  output' ← memcpy outputBufferLength (output s) p len;
  Next (Locals (current s) (bits s) (bitMask s) (bytes s) (byteCount s)
          (Z.shiftr (strings s) 16) (stringCount s - 1) output'
          (wrap32 (remaining s - len))).

(** Lines 264-268. *)
Definition writeByte (s : locals) : flow result locals :=
  if outputBufferLength <=? Z.of_nat (length (output s))
  then Stop (Wrong StorePastOutput)
  else
    Next (Locals (current s) (bits s) (bitMask s)
            (Z.shiftr (bytes s) 8) (byteCount s - 1) (strings s)
            (stringCount s) (output s ++ [Z.land (bytes s) 255])
            (wrap32 (remaining s - 1))).

(** Lines 227-272: one iteration of the loop. *)
Definition body (s : locals) : flow result locals :=
  s ← fillFlags s;
  s ← (if negb (Z.land (bits s) (bitMask s) =? 0)
       then s ← fillStrings s; copyString s
       else s ← fillBytes s; writeByte s);
  Next (Locals (current s) (bits s) (wrap32 (Z.shiftl (bitMask s) 1))
          (bytes s) (byteCount s) (strings s) (stringCount s) (output s)
          (remaining s)).

(** Lines 225-275. *)
Fixpoint mainLoop (fuel : nat) (uncompressedLength : Z) (s : locals)
  : result :=
  match fuel with
  | O => Unfinished
  | S fuel =>
      if remaining s =? 0 then Return uncompressedLength (output s)
      else
        match body s with
        | Next s => mainLoop fuel uncompressedLength s
        | Stop r => r
        end
  end.
End Loop.

(** Lines 195-276. *)
Definition decompress : result :=
  let r :=
    '(uncompressedLength, dictionaryLength, s) ←
      readHeader (Locals 0 0 0 0 0 0 0 [] 0);
    if outputBufferLength <? uncompressedLength then Stop (Exit OutputTooSmall)
    else
      let offsetMask := wrap32 (dictionaryLength - 1) in
      match shiftLoop 33 dictionaryLength (-1) with
      | None => Stop (Wrong Hang)
      | Some lengthShift =>
          if lengthShift <? 0 then Stop (Wrong BadShift)
          else
            let lengthMask :=
              Z.shiftr (Z.land (Z.lnot offsetMask) 65535) lengthShift in
            Stop (A := locals)
              (mainLoop offsetMask lengthShift lengthMask
                 (S (Z.to_nat outputBufferLength)) uncompressedLength
                 (Locals (current s) 0 0 0 0 0 0 [] uncompressedLength))
      end in
  match r with Next _ => Unfinished | Stop r => r end.

(** Lines 279-282: [*(int* )input], if the input has a first word. *)
Definition getDecompressedLength : option Z := input !! 0%nat.
End Replay.
End Decoder.

(** ** The command line tool (lines 13-24 and 285-365) *)

(** [endl] *)
Definition endl : string := String "010"%char EmptyString.

(** What [help] writes to [cout] (lines 13-18). *)
Definition helpText : string :=
  "LZSS Compressor/Decompressor" +:+ endl +:+ endl
  +:+ "lzss [-c|-d] input_file output_file" +:+ endl +:+ endl
  +:+ "  -c   compress input_file to output_file" +:+ endl
  +:+ "  -d   decompress input_file to output_file" +:+ endl +:+ endl.

(** The texts that [compress] and [decompress] pass to [error]. *)
Definition message (e : failure) : string :=
  match e with
  | InvalidDictionary => "Dictionary length must be a power of 2"
  | DictionaryTooSmall => "Dictionary length can not be less than 4 bytes"
  | DictionaryTooLarge => "Dictionary length can exceed 16384 bytes"
  | OutputTooSmall => "Destination buffer is too small"
  end.

(** What the tool acts on: the files, by name, with their bytes, and what
    has been written to [cout].  A stream opens for reading exactly on the
    names that [files] holds; a stream opened for writing replaces the
    file. *)
Record world := World {
  files : gmap string (list Z);
  console : string
}.

Inductive status := EXIT_SUCCESS | EXIT_FAILURE.

(** Where the tool leaves the behaviour that the C++ standard defines, or
    ends through an exception that nothing catches. *)
Inductive trouble :=
| EncoderStore (p : Z)              (* [compress] stored outside the buffer *)
| DecoderFault (f : Decoder.fault)  (* see [Decoder.fault] *)
| BadArrayLength                    (* [new char[n]] with [n < 0] *)
| IntegerOverflow                   (* [input_length * 2 + 1024] *)
| ReadUninitialised                 (* [ofs.write] of bytes never written *)
| OutOfFuel.                        (* the model ran out of fuel *)

(** How a run of the tool ends. *)
Inductive outcome :=
| Exited (code : status) (w : world)
| Trouble (t : trouble) (w : world).

Definition print (text : string) (w : world) : world :=
  World (files w) (console w +:+ text).

Definition writeFile (name : string) (data : list Z) (w : world) : world :=
  World (<[name := data]> (files w)) (console w).

(** Lines 21-24. *)
Definition error (text : string) (w : world) : outcome :=
  Exited EXIT_FAILURE (print ("Error: " +:+ text +:+ endl) w).

Section Tool.
(** The object representation of an [int] in memory, which the standard
    leaves to the implementation: its four bytes, and the [int] that four
    bytes stand for. *)
Variable bytesOf : Z → list Z.
Variable wordOf : list Z → Z.
(** The byte behind the input buffer, see [peek]. *)
Variable past : Z.

(** A buffer of [int]s seen through [char*]. *)
Definition toBytes (ws : list Z) : list Z := concat (map bytesOf ws).

(** A buffer of bytes seen through [int*]: its whole words. *)
Fixpoint chunks (n : nat) (data : list Z) : list Z :=
  match n with
  | O => []
  | S n => wordOf (take 4 data) :: chunks n (drop 4 data)
  end.

Definition toWords (data : list Z) : list Z :=
  chunks (length data / 4) data.

(** Lines 299-324, the file being open. *)
Definition compressFile (data : list Z) (output_file : string) (w : world)
  : outcome :=
  let input_length := wrap32 (Z.of_nat (length data)) in
  if input_length <? 0 then Trouble BadArrayLength w
  else
    let input_buffer := take (Z.to_nat input_length) data in
    let output_buffer_length := input_length * 2 + 1024 in
    if 2 ^ 31 <=? output_buffer_length then Trouble IntegerOverflow w
    else
      match compress input_buffer past output_buffer_length 8192 with
      | Exit e => error (message e) w
      | WildStore p => Trouble (EncoderStore p) w
      | Unfinished => Trouble OutOfFuel w
      | Return output_length s =>
          if output_length >? 0 then
            match image (mem s) ((output_length + 3) / 4) with
            | Some ws =>
                Exited EXIT_SUCCESS
                  (writeFile output_file
                     (take (Z.to_nat output_length) (toBytes ws)) w)
            | None => Trouble ReadUninitialised w
            end
          else Exited EXIT_SUCCESS w
      end.

(** Lines 333-353, the file being open. *)
Definition decompressFile (data : list Z) (output_file : string) (w : world)
  : outcome :=
  let input_length := wrap32 (Z.of_nat (length data)) in
  if input_length <? 0 then Trouble BadArrayLength w
  else
    let input_buffer := toWords (take (Z.to_nat input_length) data) in
    match Decoder.getDecompressedLength input_buffer with
    | None => Trouble (DecoderFault Decoder.ReadPastInput) w
    | Some output_buffer_length =>
        if output_buffer_length <? 0 then Trouble BadArrayLength w
        else
          match Decoder.decompress input_buffer output_buffer_length with
          | Decoder.Exit e => error (message e) w
          | Decoder.Wrong f => Trouble (DecoderFault f) w
          | Decoder.Unfinished => Trouble OutOfFuel w
          | Decoder.Return output_length output =>
              if Z.of_nat (length output) <? output_length
              then Trouble ReadUninitialised w
              else
                Exited EXIT_SUCCESS
                  (writeFile output_file
                     (take (Z.to_nat output_length) output) w)
          end
    end.

(** Lines 285-365.  [argv] holds the [argc] arguments. *)
Definition main (argv : list string) (w : world) : outcome :=
  if (length argv <? 4)%nat then Exited EXIT_SUCCESS (print helpText w)
  else
    let mode := default EmptyString (argv !! 1%nat) in
    let input_file := default EmptyString (argv !! 2%nat) in
    let output_file := default EmptyString (argv !! 3%nat) in
    if String.eqb mode "-c" then
      let w := print ("Compressing " +:+ input_file) w in
      match files w !! input_file with
      | Some data => compressFile data output_file w
      | None => error ("Unable to open input file " +:+ input_file) w
      end
    else if String.eqb mode "-d" then
      let w := print ("Decompressing " +:+ input_file) w in
      match files w !! input_file with
      | Some data => decompressFile data output_file w
      | None => error ("Unable to open input file " +:+ input_file) w
      end
    else error ("Unknown option " +:+ mode) w.
End Tool.

(** The layout of an [int] on a little-endian machine. *)
Definition littleEndian (w : Z) : list Z :=
  let u := w mod 2 ^ 32 in
  [u mod 256; u / 256 mod 256; u / 65536 mod 256; u / 16777216].

Definition ofLittleEndian (data : list Z) : Z :=
  wrap32 (default 0 (data !! 0%nat) + 256 * default 0 (data !! 1%nat)
          + 65536 * default 0 (data !! 2%nat)
          + 16777216 * default 0 (data !! 3%nat)).

(** * Verification *)

(** ** Machine integers *)

Lemma wrap32_id x : int32 x → wrap32 x = x.
Proof.
  unfold int32, wrap32. intros H. cbv zeta.
  destruct (Z.ltb_spec (x mod 2 ^ 32) (2 ^ 31)); Z.div_mod_to_equations; lia.
Qed.

Lemma wrap32_int32 x : int32 (wrap32 x).
Proof.
  unfold int32, wrap32. cbv zeta.
  destruct (Z.ltb_spec (x mod 2 ^ 32) (2 ^ 31)); Z.div_mod_to_equations; lia.
Qed.

Lemma wrap32_mod x : wrap32 x mod 2 ^ 32 = x mod 2 ^ 32.
Proof.
  unfold wrap32. cbv zeta.
  destruct (Z.ltb_spec (x mod 2 ^ 32) (2 ^ 31)); Z.div_mod_to_equations; lia.
Qed.

(** Case analysis on an integer between two literals. *)
Ltac enum_from j lo n :=
  lazymatch n with
  | O => exfalso; lia
  | S ?n' =>
      let H := fresh in
      destruct (Z.eq_dec j lo) as [H | H];
      [ subst j
      | let lo' := eval vm_compute in (lo + 1) in enum_from j lo' n' ]
  end.

(** [mask j] is the value of [bitMask] after [j] flags; it is 0 again after
    32 of them. *)
Definition mask (j : Z) : Z := wrap32 (2 ^ j).

Lemma mask_cases j :
  0 <= j <= 32 →
  mask j = (if j <? 31 then 2 ^ j else if j =? 31 then - 2 ^ 31 else 0).
Proof. intros Hj. unfold mask. enum_from j 0 33%nat; reflexivity. Qed.

Lemma mask_next j : 0 <= j <= 31 → wrap32 (Z.shiftl (mask j) 1) = mask (j + 1).
Proof. intros Hj. unfold mask. enum_from j 0 32%nat; reflexivity. Qed.

Lemma mask_zero j : 0 <= j <= 32 → mask j = 0 ↔ j = 32.
Proof.
  intros Hj. split; [|intros ->; reflexivity].
  unfold mask. enum_from j 0 33%nat; vm_compute; congruence.
Qed.

(** ** The three accumulators, bit by bit *)

Lemma testbit_small b j : 0 <= j → 0 <= b < 2 ^ j → Z.testbit b j = false.
Proof.
  intros Hj Hb. apply Z.testbit_false; [done|].
  rewrite Z.div_small by done. done.
Qed.

Lemma land_pow2 w j :
  0 <= j → Z.land w (2 ^ j) = if Z.testbit w j then 2 ^ j else 0.
Proof.
  intros Hj. apply Z.bits_inj'. intros i Hi.
  rewrite Z.land_spec, Z.pow2_bits_eqb by done.
  destruct (Z.eqb_spec j i) as [->|Hne].
  - destruct (Z.testbit w i); [|by rewrite Z.bits_0].
    by rewrite Z.pow2_bits_eqb, Z.eqb_refl by done.
  - rewrite andb_false_r. destruct (Z.testbit w j); [|by rewrite Z.bits_0].
    rewrite Z.pow2_bits_eqb by done. symmetry. by apply Z.eqb_neq.
Qed.

Lemma lor_pow2 b j : 0 <= j → 0 <= b < 2 ^ j → Z.lor b (2 ^ j) = b + 2 ^ j.
Proof.
  intros Hj Hb.
  assert (Z.land b (2 ^ j) = 0) as H0
    by (rewrite land_pow2, testbit_small; done).
  rewrite <- Z.lxor_lor by done. symmetry. by apply Z.add_nocarry_lxor.
Qed.

Lemma land_absorb b m : Z.land (Z.lor b m) m = m.
Proof.
  apply Z.bits_inj'. intros i _. rewrite Z.land_spec, Z.lor_spec.
  destruct (Z.testbit b i), (Z.testbit m i); done.
Qed.

Lemma land_sign b : 0 <= b < 2 ^ 31 → Z.land b (- 2 ^ 31) = 0.
Proof.
  intros Hb. change (- 2 ^ 31) with (Z.lnot (Z.ones 31)).
  rewrite <- Z.ldiff_land, Z.ldiff_ones_r by lia.
  rewrite Z.shiftr_div_pow2, Z.div_small by lia. done.
Qed.

(** The accumulator of literals after one more byte [b] in slot [c]. *)
Lemma byte_push c acc b :
  0 <= c <= 3 → 0 <= acc < 2 ^ (8 * c) → is_byte b →
  0 <= acc + b * 2 ^ (8 * c) < 2 ^ (8 * (c + 1))
  ∧ wrap32 (acc + Z.shiftl b (c * 8)) mod 2 ^ (8 * (c + 1))
    = acc + b * 2 ^ (8 * c)
  ∧ (c < 3 → wrap32 (acc + Z.shiftl b (c * 8)) = acc + b * 2 ^ (8 * c)).
Proof.
  unfold is_byte. intros Hc Hacc Hb. rewrite Z.shiftl_mul_pow2 by lia.
  enum_from c 0 4%nat; simpl in *;
    (split; [lia|]);
    (split; [|intros ?; try lia; apply wrap32_id; unfold int32; simpl; lia]).
  1-3: rewrite wrap32_id by (unfold int32; simpl; lia);
       apply Z.mod_small; lia.
  rewrite wrap32_mod. apply Z.mod_small. lia.
Qed.

(** The 16-bit field of a token (line 143) and its two parts as the
    decoder extracts them (lines 245-246). *)
Definition packed (lengthShift len off : Z) : Z :=
  Z.shiftl (len - 3) lengthShift + (off - 3).

Lemma packed_range k len off :
  2 <= k <= 14 → 3 <= len <= 2 ^ (16 - k) + 2 → 3 <= off <= 2 ^ k + 2 →
  0 <= packed k len off < 2 ^ 16.
Proof.
  intros Hk Hlen Hoff. unfold packed. rewrite Z.shiftl_mul_pow2 by lia.
  enum_from k 2 13%nat; simpl in *; lia.
Qed.

Lemma packed_read k len off t :
  2 <= k <= 14 → 3 <= len <= 2 ^ (16 - k) + 2 → 3 <= off <= 2 ^ k + 2 →
  t mod 2 ^ 16 = packed k len off →
  let offsetMask := wrap32 (2 ^ k - 1) in
  let lengthMask := Z.shiftr (Z.land (Z.lnot offsetMask) 65535) k in
  Z.land t offsetMask = off - 3
  ∧ Z.land (Z.shiftr t k) lengthMask = len - 3.
Proof.
  intros Hk Hlen Hoff. unfold packed. rewrite Z.shiftl_mul_pow2 by lia.
  intros Ht. cbv zeta.
  assert (wrap32 (2 ^ k - 1) = Z.ones k) as ->
    by (enum_from k 2 13%nat; done).
  assert (Z.shiftr (Z.land (Z.lnot (Z.ones k)) 65535) k = Z.ones (16 - k)) as ->
    by (enum_from k 2 13%nat; done).
  rewrite !Z.land_ones, Z.shiftr_div_pow2 by lia.
  enum_from k 2 13%nat; simpl in *; Z.div_mod_to_equations; lia.
Qed.

(** The accumulator of tokens after one more field [t] in half [c]. *)
Lemma string_push c acc t :
  0 <= c <= 1 → 0 <= acc < 2 ^ (16 * c) → 0 <= t < 2 ^ 16 →
  0 <= acc + t * 2 ^ (16 * c) < 2 ^ (16 * (c + 1))
  ∧ wrap32 (acc + Z.shiftl t (c * 16)) mod 2 ^ (16 * (c + 1))
    = acc + t * 2 ^ (16 * c)
  ∧ (c < 1 → wrap32 (acc + Z.shiftl t (c * 16)) = acc + t * 2 ^ (16 * c)).
Proof.
  intros Hc Hacc Ht. rewrite Z.shiftl_mul_pow2 by lia.
  enum_from c 0 2%nat; simpl in *;
    (split; [lia|]);
    (split; [|intros ?; try lia; apply wrap32_id; unfold int32; simpl; lia]).
  - rewrite wrap32_id by (unfold int32; simpl; lia). apply Z.mod_small; lia.
  - rewrite wrap32_mod. apply Z.mod_small. lia.
Qed.

(** ** The match search *)

Section SearchFacts.
Variable input : list Z.
Variable past : Z.
Variables current maxMatch : Z.

Abbreviation N := (inputLength input).
Abbreviation peek := (peek input past).
Abbreviation matchLoop := (matchLoop input past current maxMatch).
Abbreviation matchAt := (matchAt input past current maxMatch).
Abbreviation searchLoop := (searchLoop input past current maxMatch).

Lemma matchLoop_total fuel p1 p2 ml :
  (Z.to_nat (maxMatch - ml) < fuel)%nat → is_Some (matchLoop fuel p1 p2 ml).
Proof.
  revert p1 p2 ml. induction fuel as [|fuel IH]; intros p1 p2 ml Hf; [lia|].
  simpl. destruct (_ && _) eqn:C; [|eauto].
  apply IH. repeat (apply andb_prop in C as [C ?]).
  assert (ml < maxMatch) by lia. lia.
Qed.

Lemma matchLoop_spec fuel p1 p2 ml m :
  matchLoop fuel p1 p2 ml = Some m →
  ml <= m
  ∧ (p1 <= current → p1 + (m - ml) <= current)
  ∧ (p2 <= N → p2 + (m - ml) <= N)
  ∧ (ml <= maxMatch → m <= maxMatch)
  ∧ (∀ i, 0 <= i < m - ml → peek (p1 + i) = peek (p2 + i)).
Proof.
  revert p1 p2 ml. induction fuel as [|fuel IH]; intros p1 p2 ml; [done|].
  simpl. destruct (_ && _) eqn:C.
  - repeat (apply andb_prop in C as [C ?]).
    intros (Ha & Hb & Hc & Hd & He)%IH.
    repeat split; try lia.
    intros i Hi. destruct (Z.eq_dec i 0) as [->|].
    + rewrite !Z.add_0_r. lia.
    + replace (p1 + i) with (p1 + 1 + (i - 1)) by lia.
      replace (p2 + i) with (p2 + 1 + (i - 1)) by lia.
      apply He. lia.
  - intros [= ->]. repeat split; try lia.
Qed.

(** Why the loop stopped. *)
Lemma matchLoop_stop fuel p1 p2 ml m :
  matchLoop fuel p1 p2 ml = Some m →
  peek (p1 + (m - ml)) ≠ peek (p2 + (m - ml))
  ∨ current <= p1 + (m - ml) ∨ maxMatch <= m ∨ N <= p2 + (m - ml).
Proof.
  revert p1 p2 ml. induction fuel as [|fuel IH]; intros p1 p2 ml; [done|].
  simpl. destruct (_ && _) eqn:C.
  - intros H%IH.
    replace (p1 + 1 + (m - (ml + 1))) with (p1 + (m - ml)) in H by lia.
    replace (p2 + 1 + (m - (ml + 1))) with (p2 + (m - ml)) in H by lia.
    done.
  - intros [= ->]. rewrite Z.sub_diag, !Z.add_0_r.
    repeat (apply andb_false_iff in C as [C|C]); lia.
Qed.

Lemma matchAt_total search : is_Some (matchAt search).
Proof. apply matchLoop_total. lia. Qed.

Lemma matchAt_spec search m :
  matchAt search = Some m →
  0 <= m
  ∧ (search <= current → m <= current - search)
  ∧ (current <= N → current + m <= N)
  ∧ (0 <= maxMatch → m <= maxMatch)
  ∧ (∀ i, 0 <= i < m → peek (search + i) = peek (current + i)).
Proof.
  intros (H1 & H2 & H3 & H4 & H5)%matchLoop_spec.
  repeat split; try lia. intros i Hi. apply H5. lia.
Qed.

(** What the scan leaves in [(bestLength, bestOffset)] once the candidates
    from [lo] on have been tried: the length is the greatest match length
    of the window, and among the candidates that reach it the offset is
    that of the nearest. *)
Definition best (lo bl bo : Z) : Prop :=
  lo <= current - bo <= current
  ∧ matchAt (current - bo) = Some bl
  ∧ ∀ s, lo <= s <= current →
      ∃ m, matchAt s = Some m ∧ m <= bl ∧ (m = bl → bo <= current - s).

Lemma searchLoop_total fuel search bl bo :
  0 <= bl → (Z.to_nat (current + 1 - search) < fuel)%nat →
  is_Some (searchLoop fuel search bl bo).
Proof.
  revert search bl bo. induction fuel as [|fuel IH]; intros search bl bo ??; [lia|].
  simpl. destruct (Z.leb_spec (search + bl) current); [|eauto].
  destruct (matchAt_total search) as [m Hm]. rewrite Hm. simpl.
  apply matchAt_spec in Hm as (? & _).
  destruct (m >=? bl); apply IH; lia.
Qed.

Lemma searchLoop_spec lo fuel search bl bo r :
  lo <= search → lo <= current → 0 <= bl →
  (∀ s, lo <= s < search → s <= current →
     ∃ m, matchAt s = Some m ∧ m <= bl ∧ (m = bl → bo <= current - s)) →
  (bl = 0 ∧ search = lo
   ∨ lo <= current - bo < search ∧ current - bo <= current
     ∧ matchAt (current - bo) = Some bl) →
  searchLoop fuel search bl bo = Some r →
  best lo r.1 r.2.
Proof.
  revert search bl bo.
  induction fuel as [|fuel IH]; intros search bl bo Hlo Hc Hbl Hall Hbest; [done|].
  simpl. destruct (Z.leb_spec (search + bl) current) as [Hle|Hgt].
  - destruct (matchAt_total search) as [m Hm]. rewrite Hm. simpl.
    pose proof (matchAt_spec _ _ Hm) as (Hm0 & Hm1 & _).
    destruct (Z.geb_spec m bl) as [Hge|Hlt].
    + apply IH; try lia.
      * intros s Hs Hsc. destruct (Z.eq_dec s search) as [->|].
        { exists m. split; [done|]. split; lia. }
        destruct (Hall s) as (m' & ? & ? & ?); [lia..|].
        exists m'. split; [done|]. split; [lia|]. intros ->.
        assert (m = bl) by lia. subst. lia.
      * right. replace (current - (current - search)) with search by lia.
        split; [lia|]. split; [lia|done].
    + apply IH; try lia.
      * intros s Hs Hsc. destruct (Z.eq_dec s search) as [->|].
        { exists m. split; [done|]. split; lia. }
        apply Hall; lia.
      * destruct Hbest as [[-> ->]|(? & ? & ?)]; [lia|].
        right. split; [lia|]. split; [lia|done].
  - intros [= <-]. simpl.
    destruct Hbest as [[-> ->]|(? & ? & Hb)]; [lia|].
    split; [lia|]. split; [done|].
    intros s Hs. destruct (Z.lt_ge_cases s search) as [?|Hge].
    + apply Hall; lia.
    + destruct (matchAt_total s) as [m Hm]. exists m. split; [done|].
      apply matchAt_spec in Hm as (? & Hm1 & _). split; lia.
Qed.
End SearchFacts.

(** The inner loop reads the byte behind the input (when [p2] has reached
    [end]), but its result does not depend on that byte. *)
Lemma matchLoop_past input past past' current maxMatch fuel p1 p2 ml :
  0 <= p1 <= current → current < inputLength input →
  0 <= p2 <= inputLength input →
  matchLoop input past current maxMatch fuel p1 p2 ml
  = matchLoop input past' current maxMatch fuel p1 p2 ml.
Proof.
  revert p1 p2 ml. induction fuel as [|fuel IH]; intros p1 p2 ml ???; [done|].
  simpl.
  assert (Hin : ∀ p, 0 <= p < inputLength input →
                     peek input past p = peek input past' p).
  { intros p Hp. unfold peek.
    destruct (lookup_lt_is_Some_2 input (Z.to_nat p)) as [b ->]; [|done].
    unfold inputLength in *. lia. }
  destruct (Z.ltb_spec p2 (inputLength input)) as [Hp2|Hp2].
  - rewrite <- !Hin by lia. destruct (_ && _) eqn:C; [|done].
    repeat (apply andb_prop in C as [C ?]). apply IH; lia.
  - rewrite !andb_false_r. done.
Qed.

Section FindMatchFacts.
Variable input : list Z.
Variable past : Z.

Abbreviation N := (inputLength input).

Definition windowStart (current maxOffset : Z) : Z :=
  Z.max 0 (current - maxOffset).

Lemma findMatch_total current maxOffset maxMatch :
  is_Some (findMatch input past current maxOffset maxMatch).
Proof.
  unfold findMatch. apply searchLoop_total; [lia|].
  destruct (_ <? _); lia.
Qed.

Lemma findMatch_best current maxOffset maxMatch bl bo :
  0 <= current → 0 <= maxOffset →
  findMatch input past current maxOffset maxMatch = Some (bl, bo) →
  best input past current maxMatch (windowStart current maxOffset) bl bo.
Proof.
  intros Hc Hmo. unfold findMatch, windowStart.
  replace (if current - maxOffset <? 0 then 0 else current - maxOffset)
    with (Z.max 0 (current - maxOffset))
    by (destruct (Z.ltb_spec (current - maxOffset) 0); lia).
  intros H.
  apply (searchLoop_spec _ _ _ _ (Z.max 0 (current - maxOffset))) in H;
    [done|lia..| |left; done].
  intros s ?; lia.
Qed.

(** The facts about a search result that the packing relies on. *)
Lemma findMatch_sound current maxOffset maxMatch bl bo :
  0 <= current <= N → 0 <= maxOffset → 0 <= maxMatch →
  findMatch input past current maxOffset maxMatch = Some (bl, bo) →
  0 <= bl <= bo ∧ bl <= maxMatch ∧ bo <= maxOffset ∧ bo <= current
  ∧ current + bl <= N
  ∧ ∀ i, 0 <= i < bl →
      peek input past (current - bo + i) = peek input past (current + i).
Proof.
  intros Hc Hmo Hmm (Hw & Hm & _)%findMatch_best; [|lia..].
  unfold windowStart in Hw.
  apply matchAt_spec in Hm as (? & ? & ? & ? & ?).
  repeat split; try lia. done.
Qed.
End FindMatchFacts.

(** ** Dictionary lengths *)

Definition power_of_two (d : Z) : Prop := ∃ k, 0 <= k ∧ d = 2 ^ k.

(** The dictionary lengths of the data model. *)
Definition legal (d : Z) : Prop := power_of_two d ∧ 4 <= d <= 16384.

Lemma legal_log d : legal d → ∃ k, 2 <= k <= 14 ∧ d = 2 ^ k.
Proof.
  intros [(k & Hk & ->) [Hlo Hhi]]. exists k. split; [|done].
  change 4 with (2 ^ 2) in Hlo. change 16384 with (2 ^ 14) in Hhi.
  apply Z.pow_le_mono_r_iff in Hlo; [|lia..].
  apply Z.pow_le_mono_r_iff in Hhi; lia.
Qed.

Lemma legal_shift k :
  2 <= k <= 14 →
  shiftLoop 33 (2 ^ k) (-1) = Some k ∧ Z.quot 65536 (2 ^ k) = 2 ^ (16 - k).
Proof. intros Hk. enum_from k 2 13%nat; done. Qed.

(** ** The three streams of the encoder *)

Lemma split_mod n k a v w :
  0 <= n → 0 <= k → 0 <= a < 2 ^ n → 0 <= v < 2 ^ k →
  w mod 2 ^ (n + k) = a + v * 2 ^ n →
  w mod 2 ^ n = a ∧ (w / 2 ^ n) mod 2 ^ k = v.
Proof.
  intros Hn Hk Ha Hv. rewrite Z.pow_add_r by done.
  assert (0 < 2 ^ n) as HP by lia. assert (0 < 2 ^ k) as HQ by lia.
  revert Ha Hv HP HQ. generalize (2 ^ n) (2 ^ k). intros P Q Ha Hv HP HQ.
  rewrite Z.rem_mul_r by lia.
  pose proof (Z.mod_pos_bound w P HP).
  pose proof (Z.mod_pos_bound (w / P) Q HQ).
  intros Heq. assert ((w / P) mod Q = v) by nia. split; nia.
Qed.

(** The number of flags in the open flag word, read off [bitMask]. *)
Definition flagCount (bitMask : Z) : Z :=
  if bitMask =? 0 then 0 else if bitMask <? 0 then 31 else Z.log2 bitMask.

(** The three accumulators seen alike: how many items the open word of a
    stream holds (0: no word is open), where that word lies, what it holds
    so far, the width of an item and the number of items in a word. *)
Definition count (s : locals) (X : stream) : Z :=
  match X with
  | Flags => flagCount (bitMask s)
  | Strings => stringCount s
  | Bytes => byteCount s
  end.

Definition slot (s : locals) (X : stream) : Z :=
  match X with
  | Flags => nextBits s
  | Strings => nextStrings s
  | Bytes => nextBytes s
  end.

Definition acc (s : locals) (X : stream) : Z :=
  match X with
  | Flags => bits s
  | Strings => strings s
  | Bytes => bytes s
  end.

Definition width (X : stream) : Z :=
  match X with Flags => 1 | Strings => 16 | Bytes => 8 end.

Definition room (X : stream) : Z :=
  match X with Flags => 32 | Strings => 2 | Bytes => 4 end.

#[global] Instance stream_eq_dec : EqDecision stream.
Proof. solve_decision. Defined.

(** Word [p] is reserved but its final content is not stored yet. *)
Definition pending (s : locals) (p : Z) : Prop :=
  ∃ X, count s X ≠ 0 ∧ p = slot s X.

(** [w] can still become the final content of word [p]: it extends the
    accumulator of the stream that has [p] open, or it is what was stored. *)
Definition consistent (s : locals) (p w : Z) : Prop :=
  (∀ X, count s X ≠ 0 → p = slot s X →
        w mod 2 ^ (width X * count s X) = acc s X)
  ∧ (¬ pending s p → mem s !! p = Some w).

(** Reduce the projections of an explicit state. *)
Ltac fields :=
  cbn [mem next nextBits nextBytes nextStrings bits bitMask bytes byteCount
       strings stringCount current emitted layout set_mem
       count slot acc width room mbind flow_bind] in *.

Section PackerFacts.
Variable input : list Z.
Variable past : Z.
Variable outputLength : Z.

(** The invariant of the main loop, between two items. *)
Record wf (s : locals) : Prop := {
  wf_next : 2 <= next s;
  wf_mask :
    bitMask s = (if count s Flags =? 0 then 0 else mask (count s Flags));
  wf_count : ∀ X, 0 <= count s X < room X;
  wf_acc : ∀ X, count s X ≠ 0 → 0 <= acc s X < 2 ^ (width X * count s X);
  wf_slot : ∀ X, count s X ≠ 0 → 2 <= slot s X < next s;
  wf_apart :
    ∀ X Y, X ≠ Y → count s X ≠ 0 → count s Y ≠ 0 → slot s X ≠ slot s Y;
  wf_settled : ∀ p, 0 <= p < next s → ¬ pending s p → is_Some (mem s !! p);
  wf_stored :
    ∀ p w, mem s !! p = Some w →
           0 <= p < next s ∧ 4 * p + 4 <= outputLength ∧ int32 w
}.

(** What appending the item [v] to stream [X] does to the state. *)
Record pushed (X : stream) (v : Z) (s s' : locals) : Prop := {
  pu_count :
    count s' X = (if count s X + 1 =? room X then 0 else count s X + 1);
  pu_slot : slot s' X = (if count s X =? 0 then next s else slot s X);
  pu_next : next s' = (if count s X =? 0 then next s + 1 else next s);
  pu_other :
    ∀ Y, Y ≠ X →
         count s' Y = count s Y ∧ slot s' Y = slot s Y ∧ acc s' Y = acc s Y;
  pu_mask :
    bitMask s' = (if count s' Flags =? 0 then 0 else mask (count s' Flags));
  pu_acc :
    count s X + 1 < room X →
    acc s' X = (if count s X =? 0 then 0 else acc s X)
               + v * 2 ^ (width X * count s X)
    ∧ mem s' = mem s;
  pu_store :
    count s X + 1 = room X →
    ∃ u, int32 u
         ∧ u mod 2 ^ 32 = (if count s X =? 0 then 0 else acc s X)
                          + v * 2 ^ (width X * count s X)
         ∧ mem s' = <[slot s' X := u]> (mem s)
         ∧ 0 <= slot s' X ∧ 4 * slot s' X + 4 <= outputLength;
  pu_layout :
    layout s' = (if count s X =? 0 then layout s ++ [X] else layout s)
}.

Lemma width_room X : width X * room X = 32.
Proof. by destruct X. Qed.

Lemma width_pos X : 0 < width X.
Proof. by destruct X. Qed.

Lemma room_ge X : 2 <= room X.
Proof. by destruct X. Qed.

Section Pushed.
Variables (X : stream) (v : Z) (s s' : locals).
Hypothesis Hwf : wf s.
Hypothesis Hv : 0 <= v < 2 ^ width X.
Hypothesis Hpu : pushed X v s s'.

Lemma pushed_count_other Y : Y ≠ X → count s' Y = count s Y.
Proof. intros H. by apply (pu_other _ _ _ _ Hpu). Qed.

Lemma pushed_slot_other Y : Y ≠ X → slot s' Y = slot s Y.
Proof. intros H. by apply (pu_other _ _ _ _ Hpu). Qed.

Lemma pushed_acc_other Y : Y ≠ X → acc s' Y = acc s Y.
Proof. intros H. by apply (pu_other _ _ _ _ Hpu). Qed.

Lemma pushed_next : next s <= next s' <= next s + 1.
Proof. rewrite (pu_next _ _ _ _ Hpu). destruct (_ =? _); lia. Qed.

Lemma pushed_slot : 2 <= slot s' X < next s'.
Proof.
  rewrite (pu_slot _ _ _ _ Hpu), (pu_next _ _ _ _ Hpu).
  pose proof (wf_next _ Hwf).
  destruct (Z.eqb_spec (count s X) 0) as [?|Hc]; [lia|].
  by apply wf_slot.
Qed.

(** The accumulator before the item, 0 for a word just opened. *)
Definition base : Z := if count s X =? 0 then 0 else acc s X.

Lemma base_range : 0 <= base < 2 ^ (width X * count s X).
Proof.
  unfold base. destruct (Z.eqb_spec (count s X) 0) as [->|Hc].
  - rewrite Z.mul_0_r. simpl. lia.
  - by apply wf_acc.
Qed.

Lemma pushed_range :
  0 <= base + v * 2 ^ (width X * count s X) < 2 ^ (width X * (count s X + 1)).
Proof.
  pose proof base_range. pose proof (wf_count _ Hwf X). pose proof (width_pos X).
  rewrite Z.mul_add_distr_l, Z.mul_1_r, Z.pow_add_r by lia.
  nia.
Qed.

Lemma pushed_apart Y : Y ≠ X → count s Y ≠ 0 → slot s Y ≠ slot s' X.
Proof.
  intros HY Hc. rewrite (pu_slot _ _ _ _ Hpu).
  destruct (Z.eqb_spec (count s X) 0) as [?|HcX].
  - pose proof (wf_slot _ Hwf Y Hc). lia.
  - by apply wf_apart.
Qed.

Lemma pushed_pending p :
  pending s' p ↔ (count s' X ≠ 0 ∧ p = slot s' X)
                 ∨ ∃ Y, Y ≠ X ∧ count s Y ≠ 0 ∧ p = slot s Y.
Proof.
  split.
  - intros (Y & Hc & ->). destruct (decide (Y = X)) as [->|HY]; [by left|].
    right. exists Y. rewrite <- (pushed_count_other Y), <- (pushed_slot_other Y) by done.
    done.
  - intros [[Hc ->]|(Y & HY & Hc & ->)]; [by exists X|].
    exists Y. by rewrite pushed_count_other, pushed_slot_other.
Qed.

(** Once the word of the item is full it is stored, and consistency pins
    its content down. *)
Lemma pushed_stored w :
  count s X + 1 = room X →
  consistent s' (slot s' X) w → mem s' !! slot s' X = Some w.
Proof.
  intros Hfull [_ Hclosed]. apply Hclosed.
  rewrite pushed_pending. intros [[H0 _]|(Y & HY & HcY & Heq)].
  - rewrite (pu_count _ _ _ _ Hpu) in H0.
    destruct (Z.eqb_spec (count s X + 1) (room X)); lia.
  - by apply (pushed_apart Y).
Qed.

(** Any word consistent with the state after the item holds [v] in the
    item's place. *)
Lemma pushed_word w :
  consistent s' (slot s' X) w →
  w mod 2 ^ (width X * (count s X + 1)) = base + v * 2 ^ (width X * count s X).
Proof.
  intros Hw. pose proof (wf_count _ Hwf X) as Hc.
  destruct (Z.eq_dec (count s X + 1) (room X)) as [Hfull|Hroom].
  - destruct (pu_store _ _ _ _ Hpu Hfull) as (u & _ & Hu & Hmem & _).
    rewrite Hfull, width_room. unfold base. rewrite <- Hu. f_equal.
    apply pushed_stored in Hw; [|done].
    rewrite Hmem, lookup_insert_eq in Hw. congruence.
  - destruct Hw as [Hopen _].
    destruct (pu_acc _ _ _ _ Hpu) as [Hacc _]; [lia|].
    assert (count s' X = count s X + 1) as Hc'.
    { rewrite (pu_count _ _ _ _ Hpu).
      destruct (Z.eqb_spec (count s X + 1) (room X)); lia. }
    unfold base. rewrite <- Hacc, <- Hc'. apply Hopen; [lia|done].
Qed.

Lemma pushed_read w :
  consistent s' (slot s' X) w →
  (w / 2 ^ (width X * count s X)) mod 2 ^ width X = v.
Proof.
  intros Hw%pushed_word. pose proof (wf_count _ Hwf X). pose proof (width_pos X).
  rewrite Z.mul_add_distr_l, Z.mul_1_r in Hw.
  by apply split_mod in Hw as [_ ?]; [|lia|lia|apply base_range|].
Qed.

Lemma pushed_mono p w :
  0 <= p < next s → consistent s' p w → consistent s p w.
Proof.
  intros Hp [Hopen Hclosed]. pose proof (wf_count _ Hwf X) as Hc.
  pose proof (width_pos X).
  assert (p = slot s X → count s X ≠ 0 → p = slot s' X) as Hsame.
  { intros -> H0. rewrite (pu_slot _ _ _ _ Hpu).
    by destruct (Z.eqb_spec (count s X) 0). }
  split.
  - intros Y HcY HpY. destruct (decide (Y = X)) as [->|HY].
    + specialize (Hsame HpY HcY). 
      assert (consistent s' (slot s' X) w) as Hw%pushed_word
        by (rewrite <- Hsame; done).
      rewrite Z.mul_add_distr_l, Z.mul_1_r in Hw.
      apply split_mod in Hw as [Hw _]; [|lia|lia|apply base_range|done].
      rewrite Hw. unfold base. by destruct (Z.eqb_spec (count s X) 0).
    + rewrite <- (pushed_count_other Y), <- (pushed_acc_other Y) by done.
      apply Hopen; [by rewrite pushed_count_other|by rewrite pushed_slot_other].
  - intros Hnp.
    assert (¬ pending s' p) as Hnp'.
    { rewrite pushed_pending. intros [[H0 ->]|(Y & HY & HcY & ->)].
      - destruct (Z.eqb_spec (count s X) 0) as [H1|H1].
        + rewrite (pu_slot _ _ _ _ Hpu) in Hp.
          apply Z.eqb_eq in H1. rewrite H1 in Hp. lia.
        + apply Hnp. exists X. split; [done|].
          rewrite (pu_slot _ _ _ _ Hpu). by apply Z.eqb_neq in H1 as ->.
      - apply Hnp. by exists Y. }
    specialize (Hclosed Hnp').
    destruct (Z.eq_dec (count s X + 1) (room X)) as [Hfull|Hroom].
    + destruct (pu_store _ _ _ _ Hpu Hfull) as (u & _ & _ & Hmem & _).
      rewrite Hmem, lookup_insert_ne in Hclosed; [done|].
      intros <-. apply Hnp. exists X.
      assert (count s X ≠ 0) as H0 by (pose proof (room_ge X); lia).
      split; [done|]. rewrite (pu_slot _ _ _ _ Hpu).
      by apply Z.eqb_neq in H0 as ->.
    + destruct (pu_acc _ _ _ _ Hpu) as [_ <-]; [lia|done].
Qed.

Lemma pushed_wf : wf s'.
Proof.
  pose proof (wf_count _ Hwf X) as Hc. pose proof pushed_next as Hn.
  pose proof pushed_slot as Hsl. pose proof (room_ge X) as Hr.
  assert (count s' X = 0 ∨ count s' X = count s X + 1 ∧ count s X + 1 < room X)
    as Hc'.
  { rewrite (pu_count _ _ _ _ Hpu).
    destruct (Z.eqb_spec (count s X + 1) (room X)); lia. }
  constructor.
  - pose proof (wf_next _ Hwf). lia.
  - apply (pu_mask _ _ _ _ Hpu).
  - intros Y. destruct (decide (Y = X)) as [->|HY].
    + destruct Hc' as [->|[-> ?]]; lia.
    + rewrite pushed_count_other by done. apply (wf_count _ Hwf).
  - intros Y HcY. destruct (decide (Y = X)) as [->|HY].
    + destruct Hc' as [?|[Hc1 Hlt]]; [done|].
      destruct (pu_acc _ _ _ _ Hpu Hlt) as [-> _]. rewrite Hc1.
      apply pushed_range.
    + rewrite (pushed_count_other Y) in HcY |- * by done.
      rewrite (pushed_acc_other Y) by done.
      by apply wf_acc.
  - intros Y HcY. destruct (decide (Y = X)) as [->|HY]; [done|].
    rewrite (pushed_count_other Y) in HcY by done.
    rewrite (pushed_slot_other Y) by done.
    pose proof (wf_slot _ Hwf Y HcY). lia.
  - intros Y Z HYZ HcY HcZ.
    destruct (decide (Y = X)) as [->|HY], (decide (Z = X)) as [->|HZ];
      try done.
    + rewrite (pushed_count_other Z) in HcZ by done.
      rewrite (pushed_slot_other Z) by done.
      intros Heq. by apply (pushed_apart Z).
    + rewrite (pushed_count_other Y) in HcY by done.
      rewrite (pushed_slot_other Y) by done.
      by apply pushed_apart.
    + rewrite (pushed_count_other Y) in HcY by done.
      rewrite (pushed_count_other Z) in HcZ by done.
      rewrite (pushed_slot_other Y), (pushed_slot_other Z) by done.
      by apply wf_apart.
  - intros p Hp Hnp.
    destruct (Z.eq_dec p (slot s' X)) as [->|Hne].
    + destruct (Z.eq_dec (count s X + 1) (room X)) as [Hfull|Hroom].
      * destruct (pu_store _ _ _ _ Hpu Hfull) as (u & _ & _ & -> & _).
        rewrite lookup_insert_eq. eauto.
      * destruct Hc' as [H0|[H1 _]].
        { rewrite (pu_count _ _ _ _ Hpu) in H0.
          destruct (Z.eqb_spec (count s X + 1) (room X)); lia. }
        exfalso. apply Hnp. exists X. split; [lia|done].
    + assert (is_Some (mem s !! p)) as Hs.
      { apply (wf_settled _ Hwf).
        - rewrite (pu_next _ _ _ _ Hpu) in Hp.
          rewrite (pu_slot _ _ _ _ Hpu) in Hne.
          destruct (Z.eqb_spec (count s X) 0); lia.
        - intros (Y & HcY & ->). destruct (decide (Y = X)) as [->|HY].
          + rewrite (pu_slot _ _ _ _ Hpu) in Hne.
            by destruct (Z.eqb_spec (count s X) 0).
          + apply Hnp. exists Y.
            by rewrite pushed_count_other, pushed_slot_other. }
      destruct (Z.eq_dec (count s X + 1) (room X)) as [Hfull|Hroom].
      * destruct (pu_store _ _ _ _ Hpu Hfull) as (u & _ & _ & -> & _).
        by rewrite lookup_insert_ne.
      * destruct (pu_acc _ _ _ _ Hpu) as [_ ->]; [lia|done].
  - intros p w Hw.
    destruct (Z.eq_dec (count s X + 1) (room X)) as [Hfull|Hroom].
    + destruct (pu_store _ _ _ _ Hpu Hfull) as (u & Hu & _ & Hmem & Hs0 & Hs1).
      rewrite Hmem in Hw. destruct (Z.eq_dec (slot s' X) p) as [<-|Hne].
      * rewrite lookup_insert_eq in Hw. injection Hw as <-. split; [lia|done].
      * rewrite lookup_insert_ne in Hw by done.
        apply (wf_stored _ Hwf) in Hw. split; [lia|]. apply Hw.
    + destruct (pu_acc _ _ _ _ Hpu) as [_ Hmem]; [lia|].
      rewrite Hmem in Hw. apply (wf_stored _ Hwf) in Hw.
      split; [lia|]. apply Hw.
Qed.
End Pushed.

Lemma flagCount_mask j : 1 <= j <= 31 → flagCount (mask j) = j.
Proof. intros Hj. enum_from j 1 31%nat; done. Qed.

Lemma lor_sign b : 0 <= b < 2 ^ 31 → Z.lor b (- 2 ^ 31) = b - 2 ^ 31.
Proof.
  intros Hb. rewrite <- Z.lxor_lor by (by apply land_sign).
  rewrite <- Z.add_nocarry_lxor by (by apply land_sign). lia.
Qed.

(** Lines 117-132 and 160-161: one flag. *)
Definition pushFlag (isString : bool) (s : locals) : flow result locals :=
  s ← openFlags outputLength s; putFlag outputLength isString s.

(** Lines 135-154: one token. *)
Definition pushString (lengthShift bestLength bestOffset : Z) (s : locals)
  : flow result locals :=
  s ← openStrings outputLength s;
  putString outputLength lengthShift bestLength bestOffset s.

(** Lines 164-180: one literal. *)
Definition pushByte (s : locals) : flow result locals :=
  s ← openBytes outputLength s; putByte input past outputLength s.

Lemma pushByte_pushed s s' :
  wf s → is_byte (peek input past (current s)) →
  pushByte s = Next s' →
  pushed Bytes (peek input past (current s)) s s'
  ∧ current s' = current s + 1
  ∧ emitted s'
    = emitted s ++ [Literal (current s) (peek input past (current s))].
Proof.
  intros Hwf Hbyte.
  pose proof (wf_count _ Hwf Bytes) as Hc.
  pose proof (wf_acc _ Hwf Bytes) as Ha.
  pose proof (wf_mask _ Hwf) as Hm.
  unfold pushByte, openBytes, putByte, store.
  destruct s as [m n nb ny ns b bm y yc st sc cur em lay]. fields.
  set (v := peek input past cur) in *.
  destruct (Z.eqb_spec yc 0) as [->|Hyc].
  - destruct (4 * n =? outputLength); fields; [discriminate|].
    change (0 + 1 =? 4) with false. cbv iota. intros [= <-]. fold v.
    destruct (byte_push 0 0 v) as (_ & _ & Hw); [simpl; lia..|done|].
    split; [|split; reflexivity]. constructor; fields; try done.
    + by intros [].
    + intros _. rewrite Hw by lia. done.
  - fields. specialize (Ha Hyc).
    destruct (byte_push yc y v) as (_ & Hmod & Hw); [lia|done..|].
    destruct (Z.eqb_spec (yc + 1) 4) as [Hfull|Hroom].
    + destruct (_ && _) eqn:Hst; fields; [|discriminate]. intros [= <-]. fold v.
      apply andb_prop in Hst as [?%Z.leb_le ?%Z.leb_le].
      split; [|split; reflexivity]. constructor; fields; try done.
      * by rewrite Hfull.
      * by apply Z.eqb_neq in Hyc as ->.
      * by apply Z.eqb_neq in Hyc as ->.
      * by intros [].
      * lia.
      * intros _. apply Z.eqb_neq in Hyc as ->.
        eexists. split; [apply wrap32_int32|].
        replace yc with 3 in * by lia. done.
      * by apply Z.eqb_neq in Hyc as ->.
    + intros [= <-]. fold v. split; [|split; reflexivity]. constructor; fields; try done.
      * by apply Z.eqb_neq in Hroom as ->.
      * by apply Z.eqb_neq in Hyc as ->.
      * by apply Z.eqb_neq in Hyc as ->.
      * by intros [].
      * intros _. apply Z.eqb_neq in Hyc as ->. rewrite Hw by lia. done.
      * by apply Z.eqb_neq in Hyc as ->.
Qed.


Lemma pushString_pushed lengthShift bl bo s s' :
  wf s → 0 <= packed lengthShift bl bo < 2 ^ 16 →
  pushString lengthShift bl bo s = Next s' →
  pushed Strings (packed lengthShift bl bo) s s'
  ∧ current s' = current s + bl
  ∧ emitted s' = emitted s ++ [Token (current s) bl bo].
Proof.
  intros Hwf Htok.
  pose proof (wf_count _ Hwf Strings) as Hc.
  pose proof (wf_acc _ Hwf Strings) as Ha.
  pose proof (wf_mask _ Hwf) as Hm.
  unfold pushString, openStrings, putString, store.
  fold (packed lengthShift bl bo).
  destruct s as [m n nb ny ns b bm y yc st sc cur em lay]. fields.
  set (v := packed lengthShift bl bo) in *.
  destruct (Z.eqb_spec sc 0) as [->|Hsc].
  - destruct (4 * n =? outputLength); fields; [discriminate|].
    change (0 + 1 =? 2) with false. cbv iota. intros [= <-].
    destruct (string_push 0 0 v) as (_ & _ & Hw); [simpl; lia..|done|].
    split; [|split; reflexivity]. constructor; fields; try done.
    + by intros [].
    + intros _. rewrite Hw by lia. done.
  - fields. specialize (Ha Hsc).
    destruct (string_push sc st v) as (_ & Hmod & Hw); [lia|done..|].
    destruct (Z.eqb_spec (sc + 1) 2) as [Hfull|Hroom]; [|lia].
    destruct (_ && _) eqn:Hst; fields; [|discriminate]. intros [= <-].
    apply andb_prop in Hst as [?%Z.leb_le ?%Z.leb_le].
    split; [|split; reflexivity]. constructor; fields; try done.
    + by rewrite Hfull.
    + by apply Z.eqb_neq in Hsc as ->.
    + by apply Z.eqb_neq in Hsc as ->.
    + by intros [].
    + lia.
    + intros _. apply Z.eqb_neq in Hsc as ->.
      eexists. split; [apply wrap32_int32|].
      replace sc with 1 in * by lia. done.
    + by apply Z.eqb_neq in Hsc as ->.
Qed.

Lemma pushFlag_pushed isString s s' :
  wf s →
  pushFlag isString s = Next s' →
  pushed Flags (if isString then 1 else 0) s s'
  ∧ current s' = current s ∧ emitted s' = emitted s.
Proof.
  intros Hwf.
  pose proof (wf_count _ Hwf Flags) as Hc.
  pose proof (wf_acc _ Hwf Flags) as Ha.
  pose proof (wf_mask _ Hwf) as Hm.
  unfold pushFlag, openFlags, putFlag, store.
  destruct s as [m n nb ny ns b bm y yc st sc cur em lay]. fields.
  remember (flagCount bm) as j eqn:Hj in *.
  destruct (Z.eqb_spec j 0) as [->|Hj0].
  - subst bm. change (0 =? 0) with true. cbv iota.
    destruct (4 * n =? outputLength); fields; [discriminate|].
    change (wrap32 (1 ≪ 1) =? 0) with false. cbv iota. intros [= <-].
    split; [|split; reflexivity]. constructor; fields; try done.
    + by intros [].
    + intros _. by destruct isString.
  - specialize (Ha Hj0). subst bm.
    assert (mask j ≠ 0) as Hmj by (rewrite mask_zero; lia).
    apply Z.eqb_neq in Hmj as Hmj'. rewrite Hmj'. fields.
    rewrite mask_next by lia.
    destruct (Z.eqb_spec (mask (j + 1)) 0) as [H32|H32].
    + apply mask_zero in H32; [|lia]. assert (j = 31) as -> by lia.
      change (mask 31) with (- 2 ^ 31) in *.
      change (mask (31 + 1)) with 0 in *.
      destruct (_ && _) eqn:Hst; fields; [|discriminate]. intros [= <-].
      apply andb_prop in Hst as [?%Z.leb_le ?%Z.leb_le].
      split; [|split; reflexivity]. constructor; fields; try done.
      * by intros [].
      * intros _. eexists. split; [|split; [|done]].
        -- destruct isString; [rewrite lor_sign by done|];
             unfold int32; lia.
        -- change (flagCount (- 2 ^ 31)) with 31.
           change (1 * 31) with 31. change (31 =? 0) with false. cbv iota.
           destruct isString; [rewrite lor_sign by done|];
             Z.div_mod_to_equations; lia.
    + rewrite mask_zero in H32 by lia.
      intros [= <-].
      split; [|split; reflexivity]. constructor; fields;
        rewrite ?flagCount_mask by lia; try done.
      * by destruct (Z.eqb_spec (j + 1) 32).
      * by apply Z.eqb_neq in Hj0 as ->.
      * by apply Z.eqb_neq in Hj0 as ->.
      * by intros [].
      * by destruct (Z.eqb_spec (j + 1) 0); [lia|].
      * intros _. apply Z.eqb_neq in Hj0 as ->. split; [|done].
        rewrite (mask_cases j) by lia.
        destruct (Z.ltb_spec j 31); [|lia].
        replace (1 * j) with j in * by lia.
        destruct isString; [rewrite lor_pow2 by lia|]; lia.
      * by apply Z.eqb_neq in Hj0 as ->.
Qed.
End PackerFacts.

(** ** The main loop of the encoder *)

(** The input bytes an element stands for. *)
Definition span (e : element) : Z :=
  match e with Literal _ _ => 1 | Token _ len _ => len end.

Fixpoint extent (es : list element) : Z :=
  match es with [] => 0 | e :: es => span e + extent es end.

(** Whether an element puts an item into a stream. *)
Definition feeds (X : stream) (e : element) : bool :=
  match X, e with
  | Flags, _ | Bytes, Literal _ _ | Strings, Token _ _ _ => true
  | _, _ => false
  end.

Fixpoint items (X : stream) (es : list element) : Z :=
  match es with
  | [] => 0
  | e :: es => (if feeds X e then 1 else 0) + items X es
  end.

(** The number of words of a stream among the words reserved. *)
Fixpoint words (X : stream) (l : list stream) : Z :=
  match l with
  | [] => 0
  | Y :: l => (if decide (Y = X) then 1 else 0) + words X l
  end.

Lemma extent_app es es' : extent (es ++ es') = extent es + extent es'.
Proof. induction es as [|e es IH]; simpl; lia. Qed.

Lemma items_app X es es' : items X (es ++ es') = items X es + items X es'.
Proof. induction es as [|e es IH]; simpl; lia. Qed.

Lemma words_app X l l' : words X (l ++ l') = words X l + words X l'.
Proof. induction l as [|Y l IH]; simpl; lia. Qed.

Lemma words_nonneg X l : 0 <= words X l.
Proof. induction l as [|Y l IH]; simpl; [lia|]. destruct (decide _); lia. Qed.

Lemma words_total l :
  words Flags l + words Strings l + words Bytes l = Z.of_nat (length l).
Proof. induction l as [|[] l IH]; simpl in *; lia. Qed.

(** The items of stream [X] that the reserved words account for. *)
Definition filled (s : locals) (X : stream) : Z :=
  room X * words X (layout s)
  - (if count s X =? 0 then 0 else room X - count s X).

Section Finish.
Variable input : list Z.
Variable past : Z.
Variable outputLength : Z.

Lemma pushed_filled X v s s' :
  wf outputLength s → pushed outputLength X v s s' →
  filled s' X = filled s X + 1 ∧ ∀ Y, Y ≠ X → filled s' Y = filled s Y.
Proof.
  intros Hwf Hpu. pose proof (wf_count _ _ Hwf X) as Hc.
  pose proof (room_ge X) as Hr. unfold filled. split.
  - rewrite (pu_layout _ _ _ _ _ Hpu), (pu_count _ _ _ _ _ Hpu).
    destruct (Z.eqb_spec (count s X) 0) as [H0|H0].
    + rewrite words_app. simpl. rewrite decide_True by done.
      rewrite H0. destruct (Z.eqb_spec (0 + 1) (room X)); [lia|].
      destruct (Z.eqb_spec (0 + 1) 0); lia.
    + destruct (Z.eqb_spec (count s X + 1) (room X)) as [H1|H1]; simpl; [lia|].
      destruct (Z.eqb_spec (count s X + 1) 0); lia.
  - intros Y HY. destruct (pu_other _ _ _ _ _ Hpu Y HY) as (-> & _ & _).
    rewrite (pu_layout _ _ _ _ _ Hpu).
    destruct (count s X =? 0); [|done].
    rewrite words_app. simpl. rewrite decide_False by done. lia.
Qed.

Lemma pushed_layout X v s s' :
  pushed outputLength X v s s' →
  next s = 2 + Z.of_nat (length (layout s)) →
  next s' = 2 + Z.of_nat (length (layout s')).
Proof.
  intros Hpu Hn. rewrite (pu_layout _ _ _ _ _ Hpu), (pu_next _ _ _ _ _ Hpu).
  destruct (count s X =? 0); [|done]. rewrite length_app. simpl. lia.
Qed.

(** [return false]: a word was to be reserved while [next] stood at
    [outputEnd].  [es] is the ghost log at that point and [n] bounds
    [next]. *)
Definition refused (n : Z) (es : list element) (r : result) : Prop :=
  ∃ s0, r = Return 0 s0 ∧ emitted s0 = es
        ∧ ∃ q, 4 * q = outputLength ∧ 2 <= q <= n.

(** A store that falls outside the destination, to a word reserved
    below [n]. *)
Definition overrun (n : Z) (r : result) : Prop :=
  ∃ p, r = WildStore p ∧ 2 <= p < n ∧ outputLength < 4 * p + 4.

(** The two ways in which an iteration leaves the function. *)
Definition stopped (n : Z) (es : list element) (r : result) : Prop :=
  refused n es r ∨ overrun n r.

Lemma refused_mono n n' es r : n <= n' → refused n es r → refused n' es r.
Proof.
  intros Hn (s0 & -> & ? & q & ? & ?).
  eexists. split; [done|]. split; [done|]. exists q. lia.
Qed.

Lemma overrun_mono n n' r : n <= n' → overrun n r → overrun n' r.
Proof. intros Hn (p & -> & ? & ?). eexists. split; [done|]. lia. Qed.

Lemma stopped_mono n n' es r : n <= n' → stopped n es r → stopped n' es r.
Proof.
  intros Hn [?|?]; [left; by eapply refused_mono|right; by eapply overrun_mono].
Qed.

Lemma refused_success n es ret u : refused n es (Return ret u) → ret = 0.
Proof. by intros (? & [= -> _] & _). Qed.

Lemma overrun_success n ret u : ¬ overrun n (Return ret u).
Proof. by intros (? & [=] & _). Qed.

(** *** The end of the loop (lines 185-191) *)

(** Lines 185-187 for one stream. *)
Definition flush (X : stream) (s : locals) : flow result locals :=
  if count s X =? 0 then Next s
  else store outputLength (slot s X) (acc s X) s.

Lemma count_flags s :
  wf outputLength s → (bitMask s =? 0) = (count s Flags =? 0).
Proof.
  intros Hwf. rewrite (wf_mask _ _ Hwf) at 1.
  pose proof (wf_count _ _ Hwf Flags) as Hc. simpl in *.
  destruct (Z.eqb_spec (flagCount (bitMask s)) 0) as [?|Hne]; [done|].
  apply Z.eqb_neq. rewrite mask_zero; lia.
Qed.

Lemma finish_flush s :
  wf outputLength s →
  finish outputLength s
  = match t ← flush Flags s; t ← flush Bytes t; flush Strings t with
    | Next t => Return (wrap32 (4 * next t)) t
    | Stop r => r
    end.
Proof.
  intros Hwf. unfold finish, flush. rewrite (count_flags s Hwf). unfold store.
  destruct s as [m n nb ny ns b bm y yc st sc cur em lay]. fields.
  repeat (match goal with |- context [if ?c then _ else _] => destruct c end;
          fields); done.
Qed.

(** [t] is [s] with the open words of the streams in [closed] stored. *)
Record closing (closed : stream → Prop) (s t : locals) : Prop := {
  cl_same : t = set_mem (mem t) s;
  cl_stored :
    ∀ p w, mem t !! p = Some w →
           0 <= p < next s ∧ 4 * p + 4 <= outputLength ∧ int32 w;
  cl_settled :
    ∀ p, ¬ pending s p → mem t !! p = mem s !! p;
  cl_closed :
    ∀ X, closed X → count s X ≠ 0 → mem t !! slot s X = Some (acc s X)
}.

Lemma closing_start s : wf outputLength s → closing (λ _, False) s s.
Proof.
  intros Hwf. constructor; try done.
  - by destruct s.
  - apply (wf_stored _ _ Hwf).
Qed.

Lemma closing_flush closed X s t t' :
  wf outputLength s → closing closed s t → flush X t = Next t' →
  closing (λ Y, closed Y ∨ Y = X) s t'.
Proof.
  intros Hwf [Hsame Hsto Hset Hcl]. unfold flush, store.
  assert (count t X = count s X ∧ slot t X = slot s X ∧ acc t X = acc s X)
    as (E1 & E2 & E3) by (rewrite Hsame; by destruct s, X).
  rewrite E1, E2, E3. clear E1 E2 E3.
  destruct (Z.eqb_spec (count s X) 0) as [H0|H0].
  - intros [= <-]. constructor; try done.
    intros Y [?| ->] HY; [by apply Hcl|done].
  - destruct (_ && _) eqn:Hst; [|done]. intros [= <-].
    apply andb_prop in Hst as [?%Z.leb_le ?%Z.leb_le].
    pose proof (wf_acc _ _ Hwf X H0) as Ha.
    pose proof (wf_slot _ _ Hwf X H0) as Hs.
    pose proof (wf_count _ _ Hwf X) as Hc.
    constructor; fields.
    + rewrite Hsame. by destruct s.
    + intros p w. destruct (Z.eq_dec (slot s X) p) as [<-|Hne].
      * rewrite lookup_insert_eq. intros [= <-].
        split; [lia|]. split; [done|].
        assert (2 ^ (width X * count s X) <= 2 ^ 31); [|unfold int32; lia].
        apply Z.pow_le_mono_r; [lia|].
        pose proof (width_room X). pose proof (width_pos X). nia.
      * rewrite lookup_insert_ne by done. apply Hsto.
    + intros p Hp. rewrite lookup_insert_ne; [by apply Hset|].
      intros <-. apply Hp. by exists X.
    + intros Y HY HcY. destruct (decide (Y = X)) as [->|Hne].
      * by rewrite lookup_insert_eq.
      * rewrite lookup_insert_ne by (by apply (wf_apart _ _ Hwf)).
        destruct HY as [?|?]; [by apply Hcl|done].
Qed.

Lemma closing_final s t :
  wf outputLength s → closing (λ _, True) s t →
  ∀ p, 0 <= p < next s → ∃ w, mem t !! p = Some w ∧ consistent s p w.
Proof.
  intros Hwf [Hsame Hsto Hset Hcl] p Hp.
  assert (pending s p ∨ ¬ pending s p) as [(X & HcX & ->)|Hnp].
  { unfold pending.
    destruct (Z.eq_dec (count s Flags) 0), (Z.eq_dec p (slot s Flags));
    destruct (Z.eq_dec (count s Strings) 0), (Z.eq_dec p (slot s Strings));
    destruct (Z.eq_dec (count s Bytes) 0), (Z.eq_dec p (slot s Bytes));
    try (left; by (exists Flags + exists Strings + exists Bytes));
    right; intros ([] & ? & ?); done. }
  - exists (acc s X). split; [by apply Hcl|]. split.
    + intros Y HcY Heq. destruct (decide (Y = X)) as [->|Hne].
      * apply Z.mod_small. by apply (wf_acc _ _ Hwf).
      * by destruct (wf_apart _ _ Hwf Y X).
    + intros []. by exists X.
  - destruct (wf_settled _ _ Hwf p Hp Hnp) as [w Hw]. exists w.
    rewrite Hset by done. split; [done|]. split; [|done].
    intros X HcX ->. destruct Hnp. by exists X.
Qed.

Lemma finish_spec s r :
  wf outputLength s → finish outputLength s = r →
  overrun (next s) r
  ∨ ∃ t, r = Return (wrap32 (4 * next s)) t
         ∧ t = set_mem (mem t) s
         ∧ (∀ p, 0 <= p < next s →
                 ∃ w, mem t !! p = Some w ∧ consistent s p w)
         ∧ (∀ p w, mem t !! p = Some w →
                   0 <= p < next s ∧ 4 * p + 4 <= outputLength ∧ int32 w).
Proof.
  intros Hwf. rewrite finish_flush by done.
  assert (∀ closed X t r0, closing closed s t → flush X t = Stop r0 →
                           overrun (next s) r0) as Hstop.
  { intros closed X t r0 [Hsame _ _ _]. unfold flush, store.
    assert (count t X = count s X ∧ slot t X = slot s X)
      as (E1 & E2) by (rewrite Hsame; by destruct s, X).
    rewrite E1, E2. destruct (Z.eqb_spec (count s X) 0) as [?|Hc]; [done|].
    destruct (_ && _) eqn:Hst; [done|]. intros [= <-].
    eexists. split; [done|].
    pose proof (wf_slot _ _ Hwf X Hc).
    split; [done|]. apply andb_false_iff in Hst as [?%Z.leb_gt|?%Z.leb_gt]; lia. }
  pose proof (closing_start s Hwf) as H0.
  destruct (flush Flags s) as [t1|r1] eqn:H1; simpl;
    [|intros <-; left; by eapply (Hstop _ _ _ _ H0)].
  apply (closing_flush _ _ _ _ _ Hwf H0) in H1.
  destruct (flush Bytes t1) as [t2|r2] eqn:H2; simpl;
    [|intros <-; left; by eapply (Hstop _ _ _ _ H1)].
  apply (closing_flush _ _ _ _ _ Hwf H1) in H2.
  destruct (flush Strings t2) as [t3|r3] eqn:H3; simpl;
    [|intros <-; left; by eapply (Hstop _ _ _ _ H2)].
  apply (closing_flush _ _ _ _ _ Hwf H2) in H3.
  intros <-. right. exists t3.
  assert (closing (λ _, True) s t3) as Hcl.
  { destruct H3 as [? ? ? Hc]. constructor; try done.
    intros [] _; apply Hc; auto. }
  assert (next t3 = next s) as -> by (rewrite (cl_same _ _ _ Hcl); by destruct s).
  split; [done|]. split; [apply Hcl|].
  split; [by apply closing_final|apply Hcl].
Qed.

(** *** Leaving the loop early *)

Lemma pushFlag_stop isString s r :
  wf outputLength s → pushFlag outputLength isString s = Stop r →
  stopped (next s) (emitted s) r.
Proof.
  intros Hwf. pose proof (wf_slot _ _ Hwf Flags) as Hs.
  pose proof (count_flags s Hwf) as Hm. pose proof (wf_next _ _ Hwf) as Hn.
  unfold pushFlag, openFlags, putFlag, store.
  destruct s as [m n nb ny ns b bm y yc st sc cur em lay]. fields.
  destruct (Z.eqb_spec bm 0) as [->|Hbm].
  - destruct (Z.eqb_spec (4 * n) outputLength); fields.
    + intros [= <-]. left. eexists. split; [done|]. split; [done|].
      exists n. lia.
    + change (wrap32 (1 ≪ 1) =? 0) with false. discriminate.
  - fields. destruct (wrap32 (bm ≪ 1) =? 0); [|discriminate].
    destruct (_ && _) eqn:Hst; fields; [discriminate|]. intros [= <-].
    right. exists nb. split; [done|].
    assert (2 <= nb < n) by (apply Hs; by apply Z.eqb_neq).
    split; [lia|]. apply andb_false_iff in Hst as [?%Z.leb_gt|?%Z.leb_gt]; lia.
Qed.

Lemma pushString_stop lengthShift' bl bo s r :
  wf outputLength s →
  pushString outputLength lengthShift' bl bo s = Stop r →
  stopped (next s) (emitted s) r.
Proof.
  intros Hwf. pose proof (wf_slot _ _ Hwf Strings) as Hs.
  pose proof (wf_next _ _ Hwf) as Hn.
  unfold pushString, openStrings, putString, store.
  destruct s as [m n nb ny ns b bm y yc st sc cur em lay]. fields.
  destruct (Z.eqb_spec sc 0) as [->|Hsc].
  - destruct (Z.eqb_spec (4 * n) outputLength); fields.
    + intros [= <-]. left. eexists. split; [done|]. split; [done|].
      exists n. lia.
    + change (0 + 1 =? 2) with false. discriminate.
  - fields. destruct (sc + 1 =? 2); [|discriminate].
    destruct (_ && _) eqn:Hst; fields; [discriminate|]. intros [= <-].
    right. exists ns. split; [done|]. specialize (Hs Hsc).
    split; [lia|]. apply andb_false_iff in Hst as [?%Z.leb_gt|?%Z.leb_gt]; lia.
Qed.

Lemma pushByte_stop s r :
  wf outputLength s → pushByte input past outputLength s = Stop r →
  stopped (next s) (emitted s) r.
Proof.
  intros Hwf. pose proof (wf_slot _ _ Hwf Bytes) as Hs.
  pose proof (wf_next _ _ Hwf) as Hn.
  unfold pushByte, openBytes, putByte, store.
  destruct s as [m n nb ny ns b bm y yc st sc cur em lay]. fields.
  destruct (Z.eqb_spec yc 0) as [->|Hyc].
  - destruct (Z.eqb_spec (4 * n) outputLength); fields.
    + intros [= <-]. left. eexists. split; [done|]. split; [done|].
      exists n. lia.
    + change (0 + 1 =? 4) with false. discriminate.
  - fields. destruct (yc + 1 =? 4); [|discriminate].
    destruct (_ && _) eqn:Hst; fields; [discriminate|]. intros [= <-].
    right. exists ny. split; [done|]. specialize (Hs Hyc).
    split; [lia|]. apply andb_false_iff in Hst as [?%Z.leb_gt|?%Z.leb_gt]; lia.
Qed.

End Finish.

Section RunFacts.
Variable input : list Z.
Variable past : Z.
Variable outputLength : Z.
Variables maxOffset maxMatch lengthShift : Z.

Hypothesis Hbytes : Forall is_byte input.
Hypothesis Hshift : 2 <= lengthShift <= 14.
Hypothesis HmaxOffset : maxOffset = 2 ^ lengthShift + 2.
Hypothesis HmaxMatch : maxMatch = 2 ^ (16 - lengthShift) + 2.

Abbreviation N := (inputLength input).
Abbreviation find pos := (findMatch input past pos maxOffset maxMatch).

Lemma peek_byte p : 0 <= p < N → is_byte (peek input past p).
Proof using Hbytes.
  clear Hshift HmaxOffset HmaxMatch.
  intros Hp. unfold peek, inputLength in *.
  destruct (lookup_lt_is_Some_2 input (Z.to_nat p)) as [b Hb]; [lia|].
  rewrite Hb. simpl. by eapply Forall_lookup_1 in Hb.
Qed.

(** An element of the ghost log is what the search found at its place. *)
Definition found (e : element) : Prop :=
  match e with
  | Literal pos b =>
      0 <= pos < N ∧ b = peek input past pos
      ∧ ∃ bl bo, find pos = Some (bl, bo) ∧ bl <= 2
  | Token pos len off => 0 <= pos < N ∧ find pos = Some (len, off) ∧ 2 < len
  end.

Record inv (s : locals) : Prop := {
  inv_wf : wf outputLength s;
  inv_current : 0 <= current s <= N;
  inv_extent : extent (emitted s) = current s;
  inv_found : Forall found (emitted s);
  inv_next : next s = 2 + Z.of_nat (length (layout s));
  inv_filled : ∀ X, filled s X = items X (emitted s);
  inv_size : next s <= 2 + 2 * current s
}.

Lemma body_split s :
  body input past outputLength maxOffset maxMatch lengthShift s
  = match find (current s) with
    | None => Stop Unfinished
    | Some (bl, bo) =>
        if bl >? 2 then
          s ← pushFlag outputLength true s;
          pushString outputLength lengthShift bl bo s
        else
          s ← pushFlag outputLength false s;
          pushByte input past outputLength s
    end.
Proof.
  unfold body, pushFlag, pushString, pushByte.
  destruct (findMatch _ _ _ _ _) as [[bl bo]|]; [|done].
  by destruct (bl >? 2), (openFlags outputLength s) as [s0|].
Qed.

(** One iteration keeps the invariant, and what may end up in the words
    reserved before it only shrinks. *)
Lemma body_inv s s' :
  inv s → current s < N →
  body input past outputLength maxOffset maxMatch lengthShift s = Next s' →
  inv s'
  ∧ current s < current s'
  ∧ next s <= next s'
  ∧ (∀ p w, 0 <= p < next s → consistent s' p w → consistent s p w).
Proof.
  intros [Hwf Hcur Hext Hfound Hnext Hfill Hsize] Hlt.
  rewrite body_split.
  destruct (find (current s)) as [[bl bo]|] eqn:Hfind; [|done].
  assert (0 <= maxOffset ∧ 0 <= maxMatch) as [Hmo Hmm] by (subst; lia).
  destruct (findMatch_sound input past (current s) maxOffset maxMatch bl bo)
    as (Hbl & Hblmax & Hbomax & Hbocur & Hend & Heq); [lia|done..|].
  destruct (Z.gtb_spec bl 2) as [Hgt|Hle].
  - destruct (pushFlag outputLength true s) as [s1|] eqn:H1; [|done].
    simpl. intros H2.
    apply pushFlag_pushed in H1 as (Hp1 & Hc1 & He1); [|done].
    assert (wf outputLength s1) as Hwf1
      by (eapply pushed_wf; [done| |done]; simpl; lia).
    assert (0 <= packed lengthShift bl bo < 2 ^ 16) as Htok
      by (apply packed_range; lia).
    apply pushString_pushed in H2 as (Hp2 & Hc2 & He2); [|done..].
    assert (wf outputLength s') as Hwf2
      by (eapply pushed_wf; [done| |done]; simpl; lia).
    pose proof (pushed_next _ _ _ _ _ Hp1) as Hn1.
    pose proof (pushed_next _ _ _ _ _ Hp2) as Hn2.
    split; [|split; [lia|split; [lia|]]].
    + constructor; try done.
      * lia.
      * rewrite He2, extent_app, He1, Hext, Hc2, Hc1. simpl. lia.
      * rewrite He2, He1. apply Forall_app. split; [done|].
        repeat constructor; [lia..|by rewrite Hc1|done].
      * by eapply pushed_layout, pushed_layout.
      * intros X.
        destruct (pushed_filled _ _ _ _ _ Hwf Hp1) as [Hf1 Ho1].
        destruct (pushed_filled _ _ _ _ _ Hwf1 Hp2) as [Hf2 Ho2].
        rewrite He2, He1, items_app, <- Hfill. simpl.
        destruct X; simpl.
        -- rewrite Ho2, Hf1 by done. lia.
        -- rewrite Hf2, Ho1 by done. lia.
        -- rewrite Ho2, Ho1 by done. lia.
      * lia.
    + intros p w Hp Hw.
      eapply pushed_mono; [done| |done|done|]; [simpl; lia|].
      eapply pushed_mono; [done| |done| |done]; [simpl; lia|lia].
  - destruct (pushFlag outputLength false s) as [s1|] eqn:H1; [|done].
    simpl. intros H2.
    apply pushFlag_pushed in H1 as (Hp1 & Hc1 & He1); [|done].
    assert (wf outputLength s1) as Hwf1
      by (eapply pushed_wf; [done| |done]; simpl; lia).
    assert (is_byte (peek input past (current s1))) as Hb
      by (apply peek_byte; lia).
    apply pushByte_pushed in H2 as (Hp2 & Hc2 & He2); [|done..].
    assert (wf outputLength s') as Hwf2
      by (eapply pushed_wf; [done| |done]; done).
    pose proof (pushed_next _ _ _ _ _ Hp1) as Hn1.
    pose proof (pushed_next _ _ _ _ _ Hp2) as Hn2.
    split; [|split; [lia|split; [lia|]]].
    + constructor; try done.
      * lia.
      * rewrite He2, extent_app, He1, Hext, Hc2, Hc1. simpl. lia.
      * rewrite He2, He1. apply Forall_app. split; [done|].
        repeat constructor; [lia..|]. rewrite Hc1. eauto.
      * by eapply pushed_layout, pushed_layout.
      * intros X.
        destruct (pushed_filled _ _ _ _ _ Hwf Hp1) as [Hf1 Ho1].
        destruct (pushed_filled _ _ _ _ _ Hwf1 Hp2) as [Hf2 Ho2].
        rewrite He2, He1, items_app, <- Hfill. simpl.
        destruct X; simpl.
        -- rewrite Ho2, Hf1 by done. lia.
        -- rewrite Ho2, Ho1 by done. lia.
        -- rewrite Hf2, Ho1 by done. lia.
      * lia.
    + intros p w Hp Hw.
      eapply pushed_mono; [done| |done|done|]; [simpl; lia|].
      eapply pushed_mono; [done| |done| |done]; [done|lia].
Qed.

Lemma body_stop s r :
  inv s → current s < N →
  body input past outputLength maxOffset maxMatch lengthShift s = Stop r →
  stopped outputLength (next s + 1) (emitted s) r.
Proof.
  intros [Hwf Hcur _ _ _ _ _] Hlt. rewrite body_split.
  destruct (findMatch_total input past (current s) maxOffset maxMatch)
    as [[bl bo] ->].
  destruct (bl >? 2).
  - destruct (pushFlag outputLength true s) as [s1|r1] eqn:H1; simpl.
    + intros H2. apply pushFlag_pushed in H1 as (Hp1 & _ & He1); [|done].
      assert (wf outputLength s1) as Hwf1
        by (eapply pushed_wf; [done| |done]; simpl; lia).
      pose proof (pushed_next _ _ _ _ _ Hp1).
      apply pushString_stop in H2; [|done]. rewrite He1 in H2.
      eapply stopped_mono; [|done]. lia.
    + intros [= <-]. apply pushFlag_stop in H1; [|done].
      eapply stopped_mono; [|done]. lia.
  - destruct (pushFlag outputLength false s) as [s1|r1] eqn:H1; simpl.
    + intros H2. apply pushFlag_pushed in H1 as (Hp1 & _ & He1); [|done].
      assert (wf outputLength s1) as Hwf1
        by (eapply pushed_wf; [done| |done]; simpl; lia).
      pose proof (pushed_next _ _ _ _ _ Hp1).
      apply pushByte_stop in H2; [|done]. rewrite He1 in H2.
      eapply stopped_mono; [|done]. lia.
    + intros [= <-]. apply pushFlag_stop in H1; [|done].
      eapply stopped_mono; [|done]. lia.
Qed.

(** *** The whole loop *)

Abbreviation mainLoop :=
  (mainLoop input past outputLength maxOffset maxMatch lengthShift).

(** Every run of the loop ends, in one of three ways. *)
Lemma mainLoop_result fuel s :
  inv s → (Z.to_nat (N - current s) < fuel)%nat →
  (∃ es, Forall found es ∧ refused outputLength (2 * N + 1) es (mainLoop fuel s))
  ∨ overrun outputLength (2 * N + 2) (mainLoop fuel s)
  ∨ ∃ l t, mainLoop fuel s = Return (wrap32 (4 * next l)) t
           ∧ inv l ∧ current l = N ∧ next s <= next l
           ∧ t = set_mem (mem t) l
           ∧ (∀ p, 0 <= p < next l →
                   ∃ w, mem t !! p = Some w ∧ consistent l p w)
           ∧ (∀ p w, mem t !! p = Some w →
                     0 <= p < next l ∧ 4 * p + 4 <= outputLength ∧ int32 w)
           ∧ (∀ p w, 0 <= p < next s → consistent l p w → consistent s p w).
Proof.
  revert s. induction fuel as [|fuel IH]; intros s Hinv Hfuel; [lia|].
  simpl. destruct (Z.ltb_spec (current s) N) as [Hlt|Hge].
  - destruct (body _ _ _ _ _ _ s) as [s'|r] eqn:Hbody.
    + apply body_inv in Hbody as (Hinv' & Hadv & Hn & Hmono); [|done..].
      assert (Z.to_nat (N - current s') < fuel)%nat as Hfuel' by lia.
      destruct (IH s' Hinv' Hfuel')
        as [?|[?|(l & t & -> & Hl & Hcl & Hnl & Ht & Hall & Hsto & Hm)]];
        [by left|by right; left|].
      right. right. exists l, t.
      split; [done|]. split; [done|]. split; [done|]. split; [lia|].
      split; [done|]. split; [done|]. split; [done|].
      intros p w Hp Hw. apply Hmono; [done|]. apply Hm; [lia|done].
    + pose proof (inv_size _ Hinv).
      apply body_stop in Hbody as [Hr|Hr]; [| |done..].
      * left. exists (emitted s). split; [apply Hinv|].
        eapply refused_mono; [|done]. lia.
      * right. left. eapply overrun_mono; [|done]. lia.
  - pose proof (inv_current _ Hinv).
    destruct (finish_spec outputLength s _ (inv_wf _ Hinv) eq_refl)
      as [Hr|(t & Hr & Ht & Hall & Hsto)].
    + right. left. eapply overrun_mono; [|done].
      pose proof (inv_size _ Hinv). lia.
    + right. right. exists s, t. rewrite Hr.
      split; [done|]. split; [done|]. split; [lia|]. split; [lia|].
      split; [done|]. split; [done|]. split; [done|]. done.
Qed.
End RunFacts.

(** ** Replaying the stream: the decoder against the encoder *)

Lemma flag_test j w (b : bool) :
  0 <= j <= 31 → (j = 31 → int32 w) →
  (w / 2 ^ j) mod 2 = (if b then 1 else 0) →
  negb (Z.land w (mask j) =? 0) = b.
Proof.
  intros Hj Hw Hbit. rewrite (mask_cases j) by lia.
  destruct (Z.ltb_spec j 31) as [Hlt|Hge].
  - rewrite land_pow2 by lia. assert (2 ^ j ≠ 0) by lia.
    destruct (Z.testbit w j) eqn:Ht.
    + apply Z.testbit_true in Ht; [|lia].
      destruct b; [by apply negb_true_iff, Z.eqb_neq|lia].
    + apply Z.testbit_false in Ht; [|lia]. destruct b; [lia|done].
  - assert (j = 31) as -> by lia. simpl. specialize (Hw eq_refl).
    unfold int32 in Hw. destruct (Z.neg_nonneg_cases w) as [Hneg|Hpos].
    + assert (Z.land w (- 2 ^ 31) < 0) by (apply Z.land_neg; lia).
      assert (w / 2 ^ 31 = -1) as Hq by (Z.div_mod_to_equations; lia).
      rewrite Hq in Hbit. destruct b; [|done].
      apply negb_true_iff, Z.eqb_neq. lia.
    + rewrite land_sign by lia.
      rewrite Z.div_small in Hbit by lia. by destruct b.
Qed.

Lemma image_lookup m n W :
  image m n = Some W →
  ∀ p, 0 <= p < n → ∃ w, W !! Z.to_nat p = Some w ∧ m !! p = Some w.
Proof.
  unfold image. intros HW%mapM_Some p Hp.
  eapply Forall2_lookup_l in HW as (w & ? & ?); [by exists w|].
  apply lookup_seqZ. split; lia.
Qed.

(** [memcpy] of a match that lies before the write cursor. *)
Lemma take_copy (X : list Z) c o l :
  0 <= l <= o → o <= c → c + l <= Z.of_nat (length X) →
  (∀ i, 0 <= i < l → X !! Z.to_nat (c - o + i) = X !! Z.to_nat (c + i)) →
  take (Z.to_nat c) X
    ++ take (Z.to_nat l) (drop (Z.to_nat (c - o)) (take (Z.to_nat c) X))
  = take (Z.to_nat (c + l)) X.
Proof.
  intros Hl Ho Hc Heq. apply list_eq. intros i.
  destruct (decide (i < Z.to_nat c)%nat) as [Hi|Hi].
  - rewrite lookup_app_l by (rewrite length_take; lia).
    rewrite !lookup_take_lt by lia. done.
  - rewrite lookup_app_r by (rewrite length_take; lia).
    rewrite length_take_le by lia.
    destruct (decide (i - Z.to_nat c < Z.to_nat l)%nat) as [Hj|Hj].
    + rewrite !lookup_take_lt, lookup_drop by lia.
      rewrite lookup_take_lt by lia.
      specialize (Heq (Z.of_nat i - c) ltac:(lia)).
      replace (Z.to_nat (c - o + (Z.of_nat i - c)))
        with (Z.to_nat (c - o) + (i - Z.to_nat c))%nat in Heq by lia.
      replace (Z.to_nat (c + (Z.of_nat i - c))) with i in Heq by lia.
      done.
    + rewrite !lookup_take_ge by lia. done.
Qed.

(** Reduce the projections of an explicit decoder state. *)
Ltac dfields :=
  cbn [Decoder.current Decoder.bits Decoder.bitMask Decoder.bytes
       Decoder.byteCount Decoder.strings Decoder.stringCount Decoder.output
       Decoder.remaining mbind flow_bind] in *.

Section Replay.
Variable input : list Z.
Variable past : Z.
Variable outputLength : Z.
Variable lengthShift : Z.
Variable W : list Z.
Variable capacity : Z.

Hypothesis Hbytes : Forall is_byte input.
Hypothesis Hshift : 2 <= lengthShift <= 14.
Hypothesis Hlen : inputLength input < 2 ^ 31.
Hypothesis Hcap : inputLength input <= capacity.

Abbreviation N := (inputLength input).
Abbreviation maxOffset := (2 ^ lengthShift + 2).
Abbreviation maxMatch := (2 ^ (16 - lengthShift) + 2).
Abbreviation offsetMask := (wrap32 (2 ^ lengthShift - 1)).
Abbreviation lengthMask :=
  (Z.shiftr (Z.land (Z.lnot offsetMask) 65535) lengthShift).

(** The final words extend what state [s] has settled about them. *)
Definition agrees (s : locals) : Prop :=
  ∀ p, 0 <= p < next s → ∃ w, W !! Z.to_nat p = Some w ∧ consistent s p w.

Definition simFlags (s : locals) (D : Decoder.locals) : Prop :=
  Decoder.bitMask D = bitMask s
  ∧ (count s Flags ≠ 0 →
     W !! Z.to_nat (slot s Flags) = Some (Decoder.bits D)).

Definition simBytes (s : locals) (byteCount bytes : Z) : Prop :=
  byteCount = (if count s Bytes =? 0 then 0 else 4 - count s Bytes)
  ∧ (count s Bytes ≠ 0 →
     ∃ w, W !! Z.to_nat (slot s Bytes) = Some w
          ∧ bytes = Z.shiftr w (8 * count s Bytes)).

Definition simStrings (s : locals) (stringCount strings : Z) : Prop :=
  stringCount = (if count s Strings =? 0 then 0 else 2 - count s Strings)
  ∧ (count s Strings ≠ 0 →
     ∃ w, W !! Z.to_nat (slot s Strings) = Some w
          ∧ strings = Z.shiftr w (16 * count s Strings)).

(** The decoder has consumed what the encoder has produced up to [s]. *)
Record sim (s : locals) (D : Decoder.locals) : Prop := {
  sim_current : Decoder.current D = next s;
  sim_output : Decoder.output D = take (Z.to_nat (current s)) input;
  sim_remaining : Decoder.remaining D = N - current s;
  sim_flags : simFlags s D;
  sim_bytes : simBytes s (Decoder.byteCount D) (Decoder.bytes D);
  sim_strings : simStrings s (Decoder.stringCount D) (Decoder.strings D)
}.

Lemma agrees_pushed X v s s' :
  wf outputLength s → 0 <= v < 2 ^ width X → pushed outputLength X v s s' →
  agrees s' → agrees s.
Proof.
  intros Hwf Hv Hpu Ha p Hp. pose proof (pushed_next _ _ _ _ _ Hpu).
  destruct (Ha p) as (w & Hw & Hc); [lia|]. exists w. split; [done|].
  by eapply pushed_mono.
Qed.

(** The word of the item just pushed, as the decoder finds it. *)
Lemma agrees_slot X v s s' :
  wf outputLength s → 0 <= v < 2 ^ width X → pushed outputLength X v s s' →
  agrees s' →
  ∃ w, W !! Z.to_nat (slot s' X) = Some w
       ∧ (w / 2 ^ (width X * count s X)) mod 2 ^ width X = v
       ∧ (count s X + 1 = room X → int32 w).
Proof.
  intros Hwf Hv Hpu Ha. pose proof (pushed_slot _ _ _ _ _ Hwf Hpu) as Hs.
  destruct (Ha (slot s' X)) as (w & Hw & Hc); [lia|]. exists w.
  split; [done|]. split; [by eapply pushed_read|].
  intros Hfull. eapply pushed_stored in Hc; [|done..].
  by eapply (wf_stored _ _ (pushed_wf _ _ _ _ _ Hwf Hv Hpu)).
Qed.

Lemma replay_flag (b : bool) s s' D :
  wf outputLength s → pushed outputLength Flags (if b then 1 else 0) s s' →
  agrees s' → simFlags s D → Decoder.current D = next s →
  ∃ w, Decoder.fillFlags W D
       = Next (Decoder.Locals (next s') w (mask (count s Flags))
                 (Decoder.bytes D) (Decoder.byteCount D) (Decoder.strings D)
                 (Decoder.stringCount D) (Decoder.output D)
                 (Decoder.remaining D))
       ∧ W !! Z.to_nat (slot s' Flags) = Some w
       ∧ negb (Z.land w (mask (count s Flags)) =? 0) = b
       ∧ wrap32 (Z.shiftl (mask (count s Flags)) 1) = bitMask s'.
Proof.
  intros Hwf Hpu Ha [Hbm Hbits] Hcur.
  assert (0 <= (if b then 1 else 0) < 2 ^ width Flags) as Hv
    by (destruct b; simpl; lia).
  destruct (agrees_slot _ _ _ _ Hwf Hv Hpu Ha) as (w & Hw & Hread & Hint).
  pose proof (wf_count _ _ Hwf Flags) as Hc.
  exists w. split; [|split; [done|split]].
  - unfold Decoder.fillFlags, Decoder.fetch.
    rewrite Hbm, (count_flags _ _ Hwf), Hcur.
    rewrite (pu_slot _ _ _ _ _ Hpu) in Hw.
    rewrite (pu_next _ _ _ _ _ Hpu).
    destruct (Z.eqb_spec (count s Flags) 0) as [H0|H0].
    + rewrite Hw, H0. simpl. by destruct D.
    + rewrite Hbits in Hw by done. injection Hw as <-.
      assert (Decoder.bitMask D = mask (count s Flags)) as Hm.
      { rewrite Hbm, (wf_mask _ _ Hwf). by apply Z.eqb_neq in H0 as ->. }
      rewrite <- Hcur, <- Hm. by destruct D.
  - apply flag_test; [simpl in *; lia|intros ?; apply Hint; simpl in *; lia|].
    simpl width in Hread. by rewrite Z.mul_1_l in Hread.
  - rewrite mask_next by (simpl in *; lia).
    rewrite (pu_mask _ _ _ _ _ Hpu), (pu_count _ _ _ _ _ Hpu).
    simpl room. destruct (Z.eqb_spec (count s Flags + 1) 32) as [->|?]; [done|].
    by destruct (Z.eqb_spec (count s Flags + 1) 0); [lia|].
Qed.

Lemma replay_byte v s s' D :
  wf outputLength s → is_byte v → pushed outputLength Bytes v s s' →
  agrees s' →
  simBytes s (Decoder.byteCount D) (Decoder.bytes D) →
  Decoder.current D = next s →
  Z.of_nat (length (Decoder.output D)) < capacity →
  ∃ bc by_,
    (D1 ← Decoder.fillBytes W D; Decoder.writeByte capacity D1)
    = Next (Decoder.Locals (next s') (Decoder.bits D) (Decoder.bitMask D)
              by_ bc (Decoder.strings D) (Decoder.stringCount D)
              (Decoder.output D ++ [v]) (wrap32 (Decoder.remaining D - 1)))
    ∧ simBytes s' bc by_.
Proof.
  intros Hwf Hv Hpu Ha [Hbc Hby] Hcur Hcap'.
  destruct (agrees_slot Bytes v s s' Hwf Hv Hpu Ha) as (w & Hw & Hread & _).
  pose proof (wf_count _ _ Hwf Bytes) as Hc. simpl room in Hc.
  simpl width in Hread. rewrite <- Z.shiftr_div_pow2 in Hread by lia.
  change (2 ^ 8) with (2 ^ 8) in Hread.
  rewrite <- Z.land_ones in Hread by lia. change (Z.ones 8) with 255 in Hread.
  unfold simBytes.
  rewrite (pu_count _ _ _ _ _ Hpu), (pu_slot _ _ _ _ _ Hpu) in *.
  rewrite (pu_next _ _ _ _ _ Hpu). simpl room.
  unfold Decoder.fillBytes, Decoder.fetch, Decoder.writeByte.
  rewrite Hbc, Hcur.
  destruct (Z.eqb_spec (count s Bytes) 0) as [H0|H0].
  - rewrite H0 in *. change (0 =? 0) with true. cbv iota.
    rewrite Hw. destruct D as [dc db dm dy dyc dst dsc dout drem]. simpl in *.
    destruct (Z.leb_spec capacity (Z.of_nat (length dout))); [lia|].
    rewrite Z.shiftr_0_r in Hread. rewrite Hread.
    eexists _, _. split; [done|]. simpl. split; [done|]. intros _.
    exists w. done.
  - destruct (Hby H0) as (w' & Hw' & Hb). rewrite Hw in Hw'.
    injection Hw' as <-.
    destruct (Z.eqb_spec (4 - count s Bytes) 0); [lia|].
    destruct D as [dc db dm dy dyc dst dsc dout drem]. simpl in *.
    destruct (Z.leb_spec capacity (Z.of_nat (length dout))); [lia|].
    change (byteCount s) with (count s Bytes) in *.
    subst dy dc dyc. rewrite Hread.
    eexists _, _. split; [done|]. split.
    + destruct (Z.eqb_spec (count s Bytes + 1) 4);
        [change (0 =? 0) with true; cbv iota; lia
        |destruct (Z.eqb_spec (count s Bytes + 1) 0); lia].
    + intros Hne. exists w. split; [done|].
      destruct (Z.eqb_spec (count s Bytes + 1) 4); [done|].
      rewrite Z.shiftr_shiftr by lia. f_equal. lia.
Qed.

Lemma replay_string bl bo s s' D :
  wf outputLength s →
  3 <= bl <= maxMatch → 3 <= bo <= maxOffset → bl <= bo →
  bo <= current s → current s + bl <= N →
  (∀ i, 0 <= i < bl →
        input !! Z.to_nat (current s - bo + i)
        = input !! Z.to_nat (current s + i)) →
  pushed outputLength Strings (packed lengthShift bl bo) s s' →
  agrees s' →
  simStrings s (Decoder.stringCount D) (Decoder.strings D) →
  Decoder.current D = next s →
  Decoder.output D = take (Z.to_nat (current s)) input →
  ∃ sc st,
    (D1 ← Decoder.fillStrings W D;
     Decoder.copyString capacity offsetMask lengthShift lengthMask D1)
    = Next (Decoder.Locals (next s') (Decoder.bits D) (Decoder.bitMask D)
              (Decoder.bytes D) (Decoder.byteCount D) st sc
              (take (Z.to_nat (current s + bl)) input)
              (wrap32 (Decoder.remaining D - bl)))
    ∧ simStrings s' sc st.
Proof.
  intros Hwf Hbl Hbo Hle Hcur' Hend Heq Hpu Ha [Hsc Hst] Hcur Hout.
  assert (0 <= packed lengthShift bl bo < 2 ^ 16) as Hv
    by (by apply packed_range).
  destruct (agrees_slot Strings _ s s' Hwf Hv Hpu Ha) as (w & Hw & Hread & _).
  pose proof (wf_count _ _ Hwf Strings) as Hc. simpl room in Hc.
  simpl width in Hread. rewrite <- Z.shiftr_div_pow2 in Hread by lia.
  apply packed_read in Hread as [Hoff Hlng]; [|done..].
  unfold simStrings.
  rewrite (pu_count _ _ _ _ _ Hpu), (pu_slot _ _ _ _ _ Hpu) in *.
  rewrite (pu_next _ _ _ _ _ Hpu). simpl room.
  assert (Z.of_nat (length (take (Z.to_nat (current s)) input)) = current s)
    as Hbuf by (rewrite length_take_le; unfold inputLength in *; lia).
  unfold Decoder.fillStrings, Decoder.fetch, Decoder.copyString,
    Decoder.memcpy.
  rewrite Hsc, Hcur.
  destruct (Z.eqb_spec (count s Strings) 0) as [H0|H0].
  - rewrite H0 in *. change (0 =? 0) with true. cbv iota.
    rewrite Hw. destruct D as [dc db dm dy dyc dst dsc dout drem]. simpl in *.
    rewrite Z.shiftr_0_r in Hoff, Hlng. rewrite Hoff, Hlng, Hout, Hbuf.
    replace (current s - (bo - 3) - 3) with (current s - bo) by lia.
    replace (bl - 3 + 3) with bl by lia.
    destruct (Z.ltb_spec (current s - bo) 0); [lia|].
    destruct (Z.ltb_spec (current s) (current s - bo + bl)); [lia|].
    destruct (Z.ltb_spec capacity (current s + bl)); [lia|]. simpl.
    rewrite take_copy by (done || unfold inputLength in *; lia).
    eexists _, _. split; [done|]. split; [done|]. intros _.
    exists w. done.
  - destruct (Hst H0) as (w' & Hw' & Hs). rewrite Hw in Hw'.
    injection Hw' as <-. assert (count s Strings = 1) as H1 by lia.
    rewrite H1 in *. change (2 - 1 =? 0) with false. cbv iota.
    destruct D as [dc db dm dy dyc dst dsc dout drem]. simpl in *.
    change (stringCount s) with (count s Strings) in *.
    subst dst dc dsc. rewrite Hoff, Hlng, Hout, Hbuf.
    replace (current s - (bo - 3) - 3) with (current s - bo) by lia.
    replace (bl - 3 + 3) with bl by lia.
    destruct (Z.ltb_spec (current s - bo) 0); [lia|].
    destruct (Z.ltb_spec (current s) (current s - bo + bl)); [lia|].
    destruct (Z.ltb_spec capacity (current s + bl)); [lia|]. simpl.
    rewrite take_copy by (done || unfold inputLength in *; lia).
    eexists _, _. split; [done|]. split; [done|]. by intros [].
Qed.

Lemma simBytes_other X v s s' a b :
  X ≠ Bytes → pushed outputLength X v s s' → simBytes s a b → simBytes s' a b.
Proof.
  intros HX Hpu. unfold simBytes.
  by destruct (pu_other _ _ _ _ _ Hpu Bytes) as (-> & -> & _).
Qed.

Lemma simStrings_other X v s s' a b :
  X ≠ Strings → pushed outputLength X v s s' →
  simStrings s a b → simStrings s' a b.
Proof.
  intros HX Hpu. unfold simStrings.
  by destruct (pu_other _ _ _ _ _ Hpu Strings) as (-> & -> & _).
Qed.

Lemma flags_other X v s s' :
  X ≠ Flags → wf outputLength s → pushed outputLength X v s s' →
  bitMask s' = bitMask s ∧ count s' Flags = count s Flags
  ∧ slot s' Flags = slot s Flags.
Proof.
  intros HX Hwf Hpu.
  destruct (pu_other _ _ _ _ _ Hpu Flags) as (Hc & Hs & _); [done|].
  by rewrite (pu_mask _ _ _ _ _ Hpu), (wf_mask _ _ Hwf), Hc.
Qed.

Abbreviation inv := (inv input past outputLength maxOffset maxMatch).
Abbreviation body :=
  (body input past outputLength maxOffset maxMatch lengthShift).
Abbreviation replayBody :=
  (Decoder.body W capacity offsetMask lengthShift lengthMask).

Lemma peek_lookup p q :
  0 <= p < N → 0 <= q < N → peek input past p = peek input past q →
  input !! Z.to_nat p = input !! Z.to_nat q.
Proof.
  unfold peek, inputLength. intros Hp Hq.
  destruct (lookup_lt_is_Some_2 input (Z.to_nat p)) as [a ->]; [lia|].
  destruct (lookup_lt_is_Some_2 input (Z.to_nat q)) as [b ->]; [lia|].
  simpl. by intros ->.
Qed.

(** One iteration of the decoder undoes one iteration of the encoder. *)
Lemma replay_body s s' D :
  inv s → current s < N → body s = Next s' → agrees s' → sim s D →
  ∃ D', replayBody D = Next D' ∧ sim s' D'.
Proof.
  intros Hinv Hlt Hbody Hag [Hcur Hout Hrem Hfl Hby Hst].
  pose proof (inv_wf _ _ _ _ _ _ Hinv) as Hwf.
  pose proof (inv_current _ _ _ _ _ _ Hinv) as Hc.
  rewrite body_split in Hbody.
  destruct (findMatch input past (current s) maxOffset maxMatch)
    as [[bl bo]|] eqn:Hfind; [|done].
  destruct (findMatch_sound input past (current s) maxOffset maxMatch bl bo)
    as (Hbl & Hblmax & Hbomax & Hbocur & Hend & Heq); [lia..|done|].
  unfold Decoder.body.
  destruct (Z.gtb_spec bl 2) as [Hgt|Hle].
  - destruct (pushFlag outputLength true s) as [s1|] eqn:H1; [|done].
    cbn [mbind flow_bind] in Hbody.
    apply pushFlag_pushed in H1 as (Hp1 & Hc1 & He1); [|done].
    assert (wf outputLength s1) as Hwf1
      by (eapply pushed_wf; [done| |done]; simpl; lia).
    assert (0 <= packed lengthShift bl bo < 2 ^ 16) as Htok
      by (apply packed_range; lia).
    apply pushString_pushed in Hbody as (Hp2 & Hc2 & He2); [|done..].
    assert (agrees s1) as Hag1
      by (eapply (agrees_pushed Strings); [apply Hwf1|apply Htok|done..]).
    destruct (replay_flag true s s1 D Hwf Hp1 Hag1 Hfl Hcur)
      as (w & -> & Hw & Htest & Hm).
    dfields. rewrite Htest. dfields.
    destruct (replay_string bl bo s1 s'
                (Decoder.Locals (next s1) w (mask (count s Flags))
                   (Decoder.bytes D) (Decoder.byteCount D)
                   (Decoder.strings D) (Decoder.stringCount D)
                   (Decoder.output D) (Decoder.remaining D)))
      as (sc & st & Hrun & Hsim);
      [done|lia|lia|lia|lia|lia| |done|done| | | |].
    { intros i Hi. rewrite Hc1. apply peek_lookup; [lia..|]. by apply Heq. }
    { eapply (simStrings_other Flags); [done..|]. apply Hst. }
    { reflexivity. }
    { dfields. by rewrite Hc1. }
    dfields. rewrite Hrun. dfields. eexists. split; [done|].
    destruct (flags_other Strings _ s1 s' ltac:(done) Hwf1 Hp2)
      as (Hbm & Hcf & Hsf).
    constructor; dfields.
    + done.
    + by rewrite Hc2.
    + rewrite Hrem, Hc2, Hc1. rewrite wrap32_id; [lia|unfold int32; lia].
    + split; dfields; [by rewrite Hm, Hbm|]. intros _. by rewrite Hsf.
    + by eapply (simBytes_other Strings), (simBytes_other Flags).
    + done.
  - destruct (pushFlag outputLength false s) as [s1|] eqn:H1; [|done].
    cbn [mbind flow_bind] in Hbody.
    apply pushFlag_pushed in H1 as (Hp1 & Hc1 & He1); [|done].
    assert (wf outputLength s1) as Hwf1
      by (eapply pushed_wf; [done| |done]; simpl; lia).
    assert (is_byte (peek input past (current s1))) as Hb
      by (eapply peek_byte; [done|lia]).
    apply pushByte_pushed in Hbody as (Hp2 & Hc2 & He2); [|done..].
    assert (agrees s1) as Hag1
      by (eapply (agrees_pushed Bytes); [apply Hwf1|apply Hb|done..]).
    destruct (replay_flag false s s1 D Hwf Hp1 Hag1 Hfl Hcur)
      as (w & -> & Hw & Htest & Hm).
    dfields. rewrite Htest. dfields.
    destruct (replay_byte (peek input past (current s1)) s1 s'
                (Decoder.Locals (next s1) w (mask (count s Flags))
                   (Decoder.bytes D) (Decoder.byteCount D)
                   (Decoder.strings D) (Decoder.stringCount D)
                   (Decoder.output D) (Decoder.remaining D)))
      as (bc & by_ & Hrun & Hsim); [done|done|done|done| | | |].
    { eapply (simBytes_other Flags); [done..|]. apply Hby. }
    { reflexivity. }
    { dfields. rewrite Hout, length_take_le; unfold inputLength in *; lia. }
    dfields. rewrite Hrun. dfields. eexists. split; [done|].
    destruct (flags_other Bytes _ s1 s' ltac:(done) Hwf1 Hp2)
      as (Hbm & Hcf & Hsf).
    constructor; dfields.
    + done.
    + rewrite Hout, Hc2, Hc1. unfold peek.
      destruct (lookup_lt_is_Some_2 input (Z.to_nat (current s)))
        as [a Ha]; [unfold inputLength in *; lia|].
      rewrite Ha. simpl.
      replace (Z.to_nat (current s + 1)) with (S (Z.to_nat (current s))) by lia.
      by erewrite take_S_r.
    + rewrite Hrem, Hc2, Hc1. rewrite wrap32_id; [lia|unfold int32; lia].
    + split; dfields; [by rewrite Hm, Hbm|]. intros _. by rewrite Hsf.
    + done.
    + by eapply (simStrings_other Bytes), (simStrings_other Flags).
Qed.

(** *** The whole stream *)

Variable t : locals.
Hypothesis HW :
  ∀ p w, 0 <= p → mem t !! p = Some w → W !! Z.to_nat p = Some w.

Abbreviation mainLoop :=
  (mainLoop input past outputLength maxOffset maxMatch lengthShift).
Abbreviation replayLoop :=
  (Decoder.mainLoop W capacity offsetMask lengthShift lengthMask).

(** The final words agree with every state of a successful run. *)
Lemma run_agrees fuel s ret :
  inv s → (Z.to_nat (N - current s) < fuel)%nat →
  mainLoop fuel s = Return ret t → ret ≠ 0 → agrees s.
Proof using HW Hbytes Hshift.
  intros Hinv Hfuel Hrun Hret.
  destruct (mainLoop_result input past outputLength maxOffset maxMatch
              lengthShift Hbytes Hshift eq_refl eq_refl fuel s Hinv Hfuel)
    as [(es & _ & Hn)|[Hn|(l & u & Hu & _ & _ & Hnl & _ & Hall & _ & Hmono)]].
  { rewrite Hrun in Hn. by apply refused_success in Hn. }
  { rewrite Hrun in Hn. by apply overrun_success in Hn. }
  rewrite Hrun in Hu. injection Hu as _ <-.
  intros p Hp. destruct (Hall p) as (w & Hw & Hc); [lia|].
  exists w. split; [apply HW; [lia|done]|]. by apply Hmono.
Qed.

Lemma replay_loop fuel s D dfuel ret :
  inv s → (Z.to_nat (N - current s) < fuel)%nat →
  mainLoop fuel s = Return ret t → ret ≠ 0 →
  sim s D → (Z.to_nat (N - current s) < dfuel)%nat →
  replayLoop dfuel N D = Decoder.Return N input.
Proof using HW Hbytes Hshift Hlen Hcap.
  revert s D dfuel.
  induction fuel as [|fuel IH]; intros s D dfuel Hinv Hfuel Hrun Hret Hsim Hd;
    [lia|].
  destruct dfuel as [|dfuel]; [lia|].
  pose proof (inv_current _ _ _ _ _ _ Hinv) as Hc.
  simpl in Hrun. simpl. rewrite (sim_remaining _ _ Hsim).
  destruct (Z.ltb_spec (current s) N) as [Hlt|Hge].
  - destruct (Z.eqb_spec (N - current s) 0); [lia|].
    destruct (body s) as [s'|r] eqn:Hbody.
    + destruct (body_inv input past outputLength maxOffset maxMatch
                  lengthShift Hbytes Hshift eq_refl eq_refl s s' Hinv Hlt Hbody)
        as (Hinv' & Hadv & _).
      assert (Z.to_nat (N - current s') < fuel)%nat as Hfuel' by lia.
      pose proof (run_agrees fuel s' ret Hinv' Hfuel' Hrun Hret) as Hag.
      destruct (replay_body s s' D Hinv Hlt Hbody Hag Hsim) as (D' & -> & Hsim').
      apply (IH s'); try done. lia.
    + subst r. apply body_stop in Hbody as [Hr|Hr]; [| |done..].
      * by apply refused_success in Hr.
      * by apply overrun_success in Hr.
  - assert (current s = N) as Heq by lia. rewrite Heq, Z.sub_diag. simpl.
    rewrite (sim_output _ _ Hsim), Heq. f_equal.
    apply take_ge. unfold inputLength. lia.
Qed.
End Replay.

(** ** The two entry points *)

(** The state in which [compress] enters its main loop (lines 49-84). *)
Definition start (input : list Z) (dictionaryLength : Z) : locals :=
  Locals (writeHeader (inputLength input) dictionaryLength ∅)
    2 (-1) (-1) (-1) 0 0 0 0 0 0 0 [] [].

Lemma accepted_pow k :
  2 <= k <= 14 →
  Z.land (2 ^ k) (wrap32 (2 ^ k - 1)) = 0
  ∧ (2 ^ k <? 4) = false ∧ (2 ^ k >? 16384) = false
  ∧ int32 (2 ^ k).
Proof. intros Hk. enum_from k 2 13%nat; unfold int32; repeat split; lia. Qed.

Lemma compress_legal input past outputLength k :
  2 <= k <= 14 →
  compress input past outputLength (2 ^ k)
  = if outputLength <? 8 then Exit OutputTooSmall
    else mainLoop input past outputLength (2 ^ k + 2) (2 ^ (16 - k) + 2) k
           (S (length input)) (start input (2 ^ k)).
Proof.
  intros Hk. unfold compress, start.
  destruct (accepted_pow k Hk) as (-> & -> & -> & _).
  destruct (legal_shift k Hk) as (-> & ->). done.
Qed.

Lemma image_total m n :
  (∀ p, 0 <= p < n → is_Some (m !! p)) → is_Some (image m n).
Proof.
  intros H. apply mapM_is_Some, Forall_forall. intros p Hp.
  apply list_elem_of_lookup in Hp as [i Hi].
  apply lookup_seqZ in Hi. apply H. lia.
Qed.

(** Lines 197-224 on a stream whose first two words are there. *)
Lemma decompress_header W capacity n d :
  W !! 0%nat = Some n → W !! 1%nat = Some d →
  Decoder.decompress W capacity
  = if capacity <? n then Decoder.Exit OutputTooSmall
    else
      match shiftLoop 33 d (-1) with
      | None => Decoder.Wrong Decoder.Hang
      | Some lengthShift =>
          if lengthShift <? 0 then Decoder.Wrong Decoder.BadShift
          else
            Decoder.mainLoop W capacity (wrap32 (d - 1)) lengthShift
              (Z.shiftr (Z.land (Z.lnot (wrap32 (d - 1))) 65535) lengthShift)
              (S (Z.to_nat capacity)) n
              (Decoder.Locals 2 0 0 0 0 0 0 [] n)
      end.
Proof.
  intros H0 H1.
  unfold Decoder.decompress, Decoder.readHeader, Decoder.fetch. dfields.
  change (Z.to_nat 0) with 0%nat. rewrite H0. dfields.
  change (Z.to_nat (0 + 1)) with 1%nat. rewrite H1. dfields.
  destruct (capacity <? n); [done|].
  destruct (shiftLoop 33 d (-1)) as [ls|]; [|done].
  by destruct (ls <? 0).
Qed.

Section Entry.
Variable input : list Z.
Variable past : Z.
Variable outputLength : Z.
Variable k : Z.

Hypothesis Hbytes : Forall is_byte input.
Hypothesis Hlen : inputLength input < 2 ^ 31.
Hypothesis Hk : 2 <= k <= 14.

Abbreviation N := (inputLength input).
Abbreviation inv := (inv input past outputLength (2 ^ k + 2) (2 ^ (16 - k) + 2)).

Lemma inv_start : 8 <= outputLength → inv (start input (2 ^ k)).
Proof using Hlen Hk.
  intros Hout. unfold start, writeHeader.
  destruct (accepted_pow k Hk) as (_ & _ & _ & Hint).
  constructor; [constructor|..]; fields; try done.
  all: try (by intros []).
  - intros p Hp _. assert (p = 0 ∨ p = 1) as [-> | ->] by lia; eauto.
  - intros p w [[<- <-]|[_ [[<- <-]|[_ ?]]%lookup_insert_Some]]%lookup_insert_Some;
      [| |done]; unfold int32, inputLength in *; repeat split; lia.
  - unfold inputLength. lia.
Qed.

(** How a call of [compress] with a legal dictionary and room for the header
    ends: it gives up for lack of room ([refused]), stores outside the
    destination ([overrun]), or returns the length of a
    stream whose words are all stored inside the destination. *)
Lemma compress_result :
  8 <= outputLength → outputLength < 2 ^ 31 →
  (∃ es, Forall (found input past (2 ^ k + 2) (2 ^ (16 - k) + 2)) es
         ∧ refused outputLength (2 * N + 1) es
             (compress input past outputLength (2 ^ k)))
  ∨ overrun outputLength (2 * N + 2)
      (compress input past outputLength (2 ^ k))
  ∨ ∃ ret s l,
      compress input past outputLength (2 ^ k) = Return ret s
      ∧ ret ≠ 0 ∧ ret = 4 * next l ∧ ret <= outputLength
      ∧ inv l ∧ current l = N ∧ s = set_mem (mem s) l
      ∧ (∀ p, 0 <= p < next l → ∃ w, mem s !! p = Some w ∧ consistent l p w)
      ∧ (∀ p w, mem s !! p = Some w → 0 <= p < next l)
      ∧ (mem s !! 0 = Some N ∧ mem s !! 1 = Some (2 ^ k))
      ∧ mainLoop input past outputLength (2 ^ k + 2) (2 ^ (16 - k) + 2) k
          (S (length input)) (start input (2 ^ k)) = Return ret s.
Proof using Hbytes Hlen Hk.
  intros Hge Hout. rewrite compress_legal by done.
  destruct (Z.ltb_spec outputLength 8) as [?|_]; [lia|].
  destruct (mainLoop_result input past outputLength _ _ k Hbytes Hk eq_refl
              eq_refl (S (length input)) _ (inv_start Hge))
    as [Hn|[Hn|(l & s & Hs & Hinv & Hcur & Hnl & Hset & Hall & Hsto & Hmono)]].
  { unfold start, inputLength. simpl. lia. }
  { by left. }
  { by right; left. }
  right. right. pose proof (wf_next _ _ (inv_wf _ _ _ _ _ _ Hinv)) as Hn2.
  assert (4 * next l <= outputLength) as Hfit.
  { destruct (Hall (next l - 1)) as (w & Hw & _); [lia|].
    apply Hsto in Hw. lia. }
  assert (wrap32 (4 * next l) = 4 * next l) as Hr
    by (apply wrap32_id; unfold int32; lia).
  rewrite Hr in Hs. exists (4 * next l), s, l.
  split; [done|]. split; [lia|]. split; [done|]. split; [done|].
  split; [done|]. split; [done|]. split; [done|].
  split; [done|]. split; [intros p w Hw; apply Hsto in Hw; lia|].
  split; [|done].
  assert (∀ p v, 0 <= p < 2 → mem (start input (2 ^ k)) !! p = Some v →
                 mem s !! p = Some v) as Hhead.
  { intros p v Hp Hv.
    destruct (Hall p) as (w & Hw & Hc); [unfold start in *; simpl in *; lia|].
    apply Hmono in Hc; [|done]. destruct Hc as [_ Hc]. rewrite Hw, <- Hv.
    symmetry. apply Hc. by intros ([] & ? & _). }
  split; apply Hhead; done.
Qed.

Lemma compress_success ret s :
  outputLength < 2 ^ 31 →
  compress input past outputLength (2 ^ k) = Return ret s → ret ≠ 0 →
  ∃ l, ret = 4 * next l ∧ ret <= outputLength
       ∧ inv l ∧ current l = N ∧ s = set_mem (mem s) l
       ∧ (∀ p, 0 <= p < next l → ∃ w, mem s !! p = Some w ∧ consistent l p w)
       ∧ (∀ p w, mem s !! p = Some w → 0 <= p < next l)
       ∧ (mem s !! 0 = Some N ∧ mem s !! 1 = Some (2 ^ k))
       ∧ mainLoop input past outputLength (2 ^ k + 2) (2 ^ (16 - k) + 2) k
           (S (length input)) (start input (2 ^ k)) = Return ret s.
Proof using Hbytes Hlen Hk.
  intros Hout Hrun Hret.
  assert (8 <= outputLength) as Hge.
  { rewrite compress_legal in Hrun by done.
    by destruct (Z.ltb_spec outputLength 8). }
  destruct (compress_result Hge Hout)
    as [(es & _ & Hn)|[Hn|(ret' & s' & l & Hs & H)]].
  { rewrite Hrun in Hn. by apply refused_success in Hn. }
  { rewrite Hrun in Hn. by apply overrun_success in Hn. }
  rewrite Hrun in Hs. injection Hs as <- <-.
  exists l. tauto.
Qed.

(** With 8 bytes per input byte behind the header there is always room. *)
Lemma compress_room :
  8 + 8 * N <= outputLength → outputLength < 2 ^ 31 →
  ∃ ret s, compress input past outputLength (2 ^ k) = Return ret s ∧ ret ≠ 0.
Proof using Hbytes Hlen Hk.
  intros Hroom Hout.
  assert (0 <= N) by (unfold inputLength; lia).
  destruct (compress_result ltac:(lia) Hout)
    as [(es & _ & s0 & _ & _ & q & ? & ?)|[(p & _ & ? & ?)
       |(ret & s & l & Hs & ? & _)]];
    [lia|lia|eauto].
Qed.

(** A stream that [compress] has returned decodes to the input. *)
Lemma compress_replay ret s capacity :
  outputLength < 2 ^ 31 → N <= capacity →
  compress input past outputLength (2 ^ k) = Return ret s → ret ≠ 0 →
  ∃ W, image (mem s) (ret / 4) = Some W
       ∧ Decoder.decompress W capacity = Decoder.Return N input.
Proof using Hbytes Hlen Hk.
  intros Hout Hcap Hrun Hret.
  destruct (compress_success ret s Hout Hrun Hret)
    as (l & -> & _ & Hinv & Hcur & Hset & Hall & Hsto & [Hw0 Hw1] & Hloop).
  replace (4 * next l / 4) with (next l) by (Z.div_mod_to_equations; lia).
  destruct (image_total (mem s) (next l)) as [W HW].
  { intros p Hp. destruct (Hall p Hp) as (w & -> & _). eauto. }
  exists W. split; [done|].
  assert (∀ p w, 0 <= p → mem s !! p = Some w → W !! Z.to_nat p = Some w)
    as HW'.
  { intros p w Hp Hw. pose proof (Hsto _ _ Hw).
    destruct (image_lookup _ _ _ HW p) as (w' & ? & Hw'); [lia|]. congruence. }
  pose proof (wf_next _ _ (inv_wf _ _ _ _ _ _ Hinv)) as Hn2.
  rewrite (decompress_header W capacity N (2 ^ k));
    [|by apply (HW' 0)|by apply (HW' 1)].
  destruct (Z.ltb_spec capacity N); [lia|].
  destruct (legal_shift k Hk) as (-> & _).
  destruct (Z.ltb_spec k 0); [lia|].
  assert (8 <= outputLength) as Hge.
  { rewrite compress_legal in Hrun by done.
    by destruct (Z.ltb_spec outputLength 8). }
  apply (replay_loop input past outputLength k W capacity Hbytes Hk Hlen Hcap
           s HW' (S (length input)) (start input (2 ^ k)) _ _ (4 * next l));
    [by apply inv_start|unfold start, inputLength; simpl; lia|done|done|
    |unfold start; simpl; lia].
  constructor; dfields; unfold start; fields;
    first [done | lia | split; [done|by intros []]].
Qed.
End Entry.

(** ** A destination that ends on a word boundary *)

(** The words reserved so far lie inside the destination. *)
Definition fits (outputLength : Z) (s : locals) : Prop :=
  4 * next s <= outputLength.

Section Aligned.
Variable input : list Z.
Variable past : Z.
Variable outputLength : Z.

Hypothesis Haligned : outputLength mod 4 = 0.

Lemma overrun_fits n s r :
  fits outputLength s → n <= next s → ¬ overrun outputLength n r.
Proof. unfold fits. intros Hf Hn (p & _ & Hp & Hout). lia. Qed.

Lemma pushFlag_fits isString s s' :
  fits outputLength s → pushFlag outputLength isString s = Next s' →
  fits outputLength s'.
Proof using Haligned.
  unfold fits, pushFlag, openFlags, putFlag, store.
  destruct s as [m n nb ny ns b bm y yc st sc cur em lay]. fields.
  intros Hf. destruct (Z.eqb_spec bm 0) as [->|Hbm].
  - destruct (Z.eqb_spec (4 * n) outputLength); fields; [discriminate|].
    change (wrap32 (1 ≪ 1) =? 0) with false. intros [= <-]. fields.
    Z.div_mod_to_equations; lia.
  - fields. destruct (wrap32 (bm ≪ 1) =? 0); [|by intros [= <-]].
    destruct (_ && _); fields; [|discriminate]. by intros [= <-].
Qed.

Lemma pushString_fits lengthShift bl bo s s' :
  fits outputLength s →
  pushString outputLength lengthShift bl bo s = Next s' →
  fits outputLength s'.
Proof using Haligned.
  unfold fits, pushString, openStrings, putString, store.
  destruct s as [m n nb ny ns b bm y yc st sc cur em lay]. fields.
  intros Hf. destruct (Z.eqb_spec sc 0) as [->|Hsc].
  - destruct (Z.eqb_spec (4 * n) outputLength); fields; [discriminate|].
    change (0 + 1 =? 2) with false. intros [= <-]. fields.
    Z.div_mod_to_equations; lia.
  - fields. destruct (sc + 1 =? 2); [|by intros [= <-]].
    destruct (_ && _); fields; [|discriminate]. by intros [= <-].
Qed.

Lemma pushByte_fits s s' :
  fits outputLength s → pushByte input past outputLength s = Next s' →
  fits outputLength s'.
Proof using Haligned.
  unfold fits, pushByte, openBytes, putByte, store.
  destruct s as [m n nb ny ns b bm y yc st sc cur em lay]. fields.
  intros Hf. destruct (Z.eqb_spec yc 0) as [->|Hyc].
  - destruct (Z.eqb_spec (4 * n) outputLength); fields; [discriminate|].
    change (0 + 1 =? 4) with false. intros [= <-]. fields.
    Z.div_mod_to_equations; lia.
  - fields. destruct (yc + 1 =? 4); [|by intros [= <-]].
    destruct (_ && _); fields; [|discriminate]. by intros [= <-].
Qed.
End Aligned.

Section AlignedRun.
Variable input : list Z.
Variable past : Z.
Variable outputLength : Z.
Variables maxOffset maxMatch lengthShift : Z.

Hypothesis Haligned : outputLength mod 4 = 0.
Hypothesis Hbytes : Forall is_byte input.
Hypothesis Hshift : 2 <= lengthShift <= 14.
Hypothesis HmaxOffset : maxOffset = 2 ^ lengthShift + 2.
Hypothesis HmaxMatch : maxMatch = 2 ^ (16 - lengthShift) + 2.

Abbreviation inv' := (inv input past outputLength maxOffset maxMatch).
Abbreviation body' :=
  (body input past outputLength maxOffset maxMatch lengthShift).

Lemma body_fits s s' :
  fits outputLength s → body' s = Next s' → fits outputLength s'.
Proof using Haligned.
  intros Hf. rewrite body_split.
  destruct (findMatch _ _ _ _ _) as [[bl bo]|]; [|done].
  destruct (bl >? 2).
  - destruct (pushFlag outputLength true s) as [s1|] eqn:H1; [|done].
    apply pushFlag_fits in H1; [|done..]. simpl.
    by apply pushString_fits.
  - destruct (pushFlag outputLength false s) as [s1|] eqn:H1; [|done].
    apply pushFlag_fits in H1; [|done..]. simpl.
    by apply pushByte_fits.
Qed.

(** With the destination ending on a word boundary, an iteration leaves the
    function only through [return false]. *)
Lemma body_refused s r :
  inv' s → current s < inputLength input → fits outputLength s →
  body' s = Stop r →
  refused outputLength (next s + 1) (emitted s) r.
Proof using All.
  intros [Hwf Hcur _ _ _ _ _] Hlt Hf. rewrite body_split.
  destruct (findMatch_total input past (current s) maxOffset maxMatch)
    as [[bl bo] ->].
  destruct (bl >? 2).
  - destruct (pushFlag outputLength true s) as [s1|r1] eqn:H1; simpl.
    + intros H2. pose proof (pushFlag_fits _ Haligned _ _ _ Hf H1) as Hf1.
      apply pushFlag_pushed in H1 as (Hp1 & _ & He1); [|done].
      assert (wf outputLength s1) as Hwf1
        by (eapply pushed_wf; [done| |done]; simpl; lia).
      pose proof (pushed_next _ _ _ _ _ Hp1).
      apply pushString_stop in H2 as [H2|H2]; [| |done].
      * rewrite He1 in H2. eapply refused_mono; [|done]. lia.
      * by apply (overrun_fits _ _ s1) in H2.
    + intros [= <-]. apply pushFlag_stop in H1 as [H1|H1]; [| |done].
      * eapply refused_mono; [|done]. lia.
      * by apply (overrun_fits _ _ s) in H1.
  - destruct (pushFlag outputLength false s) as [s1|r1] eqn:H1; simpl.
    + intros H2. pose proof (pushFlag_fits _ Haligned _ _ _ Hf H1) as Hf1.
      apply pushFlag_pushed in H1 as (Hp1 & _ & He1); [|done].
      assert (wf outputLength s1) as Hwf1
        by (eapply pushed_wf; [done| |done]; simpl; lia).
      pose proof (pushed_next _ _ _ _ _ Hp1).
      apply pushByte_stop in H2 as [H2|H2]; [| |done].
      * rewrite He1 in H2. eapply refused_mono; [|done]. lia.
      * by apply (overrun_fits _ _ s1) in H2.
    + intros [= <-]. apply pushFlag_stop in H1 as [H1|H1]; [| |done].
      * eapply refused_mono; [|done]. lia.
      * by apply (overrun_fits _ _ s) in H1.
Qed.

Lemma mainLoop_aligned fuel : ∀ s p,
  inv' s → fits outputLength s →
  mainLoop input past outputLength maxOffset maxMatch lengthShift fuel s
  ≠ WildStore p.
Proof using All.
  induction fuel as [|fuel IH]; intros s p Hinv Hf; [done|].
  simpl. destruct (Z.ltb_spec (current s) (inputLength input)) as [Hlt|Hge].
  - destruct (body' s) as [s'|r] eqn:Hbody.
    + pose proof (body_fits _ _ Hf Hbody).
      apply body_inv in Hbody as (Hinv' & _); [|done..]. by apply IH.
    + apply body_refused in Hbody as (s0 & -> & _); done.
  - destruct (finish_spec outputLength s _ (inv_wf _ _ _ _ _ _ Hinv) eq_refl)
      as [Hr|(t & -> & _)]; [|done].
    intros Hw. by apply (overrun_fits _ _ s) in Hr.
Qed.
End AlignedRun.

(** X3.  Into a destination whose length is a multiple of 4, [compress]
    never stores outside: it fails before the header is written (fewer than 8
    bytes), returns [false] for lack of room, or returns the length of a
    stream all of whose words lie below that length. *)
Lemma compress_aligned input past outputLength dictionaryLength :
  Forall is_byte input → inputLength input < 2 ^ 31 →
  legal dictionaryLength → outputLength < 2 ^ 31 →
  outputLength mod 4 = 0 →
  (outputLength < 8
   ∧ compress input past outputLength dictionaryLength = Exit OutputTooSmall)
  ∨ (8 <= outputLength < 8 + 8 * inputLength input
     ∧ ∃ s, compress input past outputLength dictionaryLength = Return 0 s)
  ∨ (∃ ret s,
       compress input past outputLength dictionaryLength = Return ret s
       ∧ 8 <= ret <= outputLength
       ∧ ∀ p w, mem s !! p = Some w → 0 <= p ∧ 4 * p + 4 <= ret).
Proof.
  intros Hbytes Hlen (k & Hk & ->)%legal_log Hout Haligned.
  destruct (Z.lt_ge_cases outputLength 8) as [Hlt|Hge].
  { left. split; [done|]. rewrite compress_legal by done.
    by destruct (Z.ltb_spec outputLength 8); [|lia]. }
  right.
  destruct (compress_result input past outputLength k Hbytes Hlen Hk Hge Hout)
    as [(es & _ & s0 & Hs0 & _ & q & Hq & Hq2)|[(p & Hp & _)
       |(ret & s & l & Hs & _ & -> & Hle & Hinv & _ & _ & _ & Hsto & _)]].
  - left. split; [lia|]. by exists s0.
  - exfalso. rewrite compress_legal in Hp by done.
    destruct (Z.ltb_spec outputLength 8); [lia|].
    eapply (mainLoop_aligned input past outputLength); [done..| | |apply Hp].
    + by apply inv_start.
    + unfold fits, start. simpl. lia.
  - right. exists (4 * next l), s. split; [done|].
    pose proof (wf_next _ _ (inv_wf _ _ _ _ _ _ Hinv)). split; [lia|].
    intros p w Hw. apply Hsto in Hw. lia.
Qed.

(** ** What every call that returns has in common *)

Lemma land_pred_pow d : 0 < d → Z.land d (d - 1) = 0 → d = 2 ^ Z.log2 d.
Proof.
  intros Hd Hland. destruct (Z.log2_spec d Hd) as [Hlo Hhi].
  destruct (Z.eq_dec d (2 ^ Z.log2 d)) as [|Hne]; [done|]. exfalso.
  assert (Z.testbit (Z.land d (d - 1)) (Z.log2 d) = true) as Hbit.
  { rewrite Z.land_spec, Z.bit_log2 by done. simpl.
    assert (Z.log2 (d - 1) = Z.log2 d) as <-
      by (apply Z.log2_unique; [apply Z.log2_nonneg|lia]).
    apply Z.bit_log2. pose proof (Z.pow_pos_nonneg 2 (Z.log2 d)).
    pose proof (Z.log2_nonneg d). lia. }
  by rewrite Hland, Z.bits_0 in Hbit.
Qed.

Lemma pow_land_pred k : 0 <= k → Z.land (2 ^ k) (2 ^ k - 1) = 0.
Proof.
  intros Hk. rewrite Z.sub_1_r, <- Z.ones_equiv, Z.land_ones by done.
  apply Z.mod_same. lia.
Qed.

(** A call that returns was made with a legal dictionary length. *)
Lemma compress_Return_legal input past outputLength d ret s :
  compress input past outputLength d = Return ret s → legal d.
Proof.
  unfold compress.
  destruct (Z.eqb_spec (Z.land d (wrap32 (d - 1))) 0) as [H0|?]; [|done].
  cbn [negb]. destruct (Z.ltb_spec d 4); [done|].
  destruct (Z.gtb_spec d 16384); [done|]. intros _.
  rewrite wrap32_id in H0 by (unfold int32; lia).
  split; [|lia]. exists (Z.log2 d). split; [apply Z.log2_nonneg|].
  apply land_pred_pow; [lia|done].
Qed.

(** Whatever [compress] returns, its ghost log holds search results. *)
Lemma compress_emitted input past outputLength k ret s :
  Forall is_byte input → inputLength input < 2 ^ 31 → 2 <= k <= 14 →
  outputLength < 2 ^ 31 →
  compress input past outputLength (2 ^ k) = Return ret s →
  Forall (found input past (2 ^ k + 2) (2 ^ (16 - k) + 2)) (emitted s).
Proof.
  intros Hbytes Hlen Hk Hout Hrun.
  assert (8 <= outputLength) as Hge.
  { rewrite compress_legal in Hrun by done.
    by destruct (Z.ltb_spec outputLength 8). }
  destruct (compress_result input past outputLength k Hbytes Hlen Hk Hge Hout)
    as [(es & Hes & s0 & Hs0 & <- & _)|[(p & Hp & _)
       |(ret' & s' & l & Hs & _ & _ & _ & Hinv & _ & Hset & _)]].
  - rewrite Hrun in Hs0. by injection Hs0 as _ <-.
  - by rewrite Hrun in Hp.
  - rewrite Hrun in Hs. injection Hs as <- <-. rewrite Hset.
    destruct l. apply Hinv.
Qed.

(** What the token of a search result looks like for a legal dictionary. *)
Lemma found_token input past k pos len off :
  2 <= k <= 14 →
  found input past (2 ^ k + 2) (2 ^ (16 - k) + 2) (Token pos len off) →
  3 <= len <= off ∧ len <= 2 ^ (16 - k) + 2 ∧ off <= 2 ^ k + 2
  ∧ off <= pos ∧ pos + len <= inputLength input
  ∧ best input past pos (2 ^ (16 - k) + 2) (windowStart pos (2 ^ k + 2)) len off.
Proof.
  intros Hk (Hpos & Hfind & Hlen).
  assert (0 <= 2 ^ k + 2 ∧ 0 <= 2 ^ (16 - k) + 2) as [Hmo Hmm] by lia.
  pose proof (findMatch_best input past pos _ _ len off ltac:(lia) Hmo Hfind)
    as Hbest.
  apply findMatch_sound in Hfind as (? & ? & ? & ? & ? & _); [|lia..].
  repeat split; try lia; apply Hbest.
Qed.

(** ** Input without a repeated triple *)

(** No three bytes of the input occur again, wholly later, at a distance
    that an offset can express. *)
Definition no_repeat (input : list Z) (dictionaryLength : Z) : Prop :=
  ∀ s c,
    0 <= s → s + 3 <= c → c + 3 <= inputLength input →
    c - s <= dictionaryLength + 2 →
    ¬ (input !! Z.to_nat s = input !! Z.to_nat c
       ∧ input !! Z.to_nat (s + 1) = input !! Z.to_nat (c + 1)
       ∧ input !! Z.to_nat (s + 2) = input !! Z.to_nat (c + 2)).

Definition literal (e : element) : Prop :=
  match e with Literal _ _ => True | Token _ _ _ => False end.

Lemma no_repeat_literal input past k e :
  2 <= k <= 14 → no_repeat input (2 ^ k) →
  found input past (2 ^ k + 2) (2 ^ (16 - k) + 2) e → literal e.
Proof.
  intros Hk Hnr. destruct e as [|pos len off]; [done|]. intros Hf.
  pose proof Hf as (Hpos & Hfind & _).
  apply found_token in Hf as (? & ? & ? & ? & ? & _); [|done].
  apply findMatch_sound in Hfind as (_ & _ & _ & _ & _ & Heq); [|lia..].
  destruct (Hnr (pos - off) pos); [lia..|].
  assert (∀ i, 0 <= i < 3 →
               input !! Z.to_nat (pos - off + i) = input !! Z.to_nat (pos + i))
    as Hi.
  { intros i Hi. apply (peek_lookup input past); [lia..|]. apply Heq. lia. }
  pose proof (Hi 0 ltac:(lia)) as Hz. rewrite !Z.add_0_r in Hz.
  split; [done|]. split; apply Hi; lia.
Qed.

Lemma literal_counts es :
  Forall literal es →
  items Flags es = extent es ∧ items Bytes es = extent es
  ∧ items Strings es = 0.
Proof.
  induction 1 as [|[] es He _ IH]; [done| |done]. simpl in *. lia.
Qed.

(** ** The copy of a string token *)

(** The copy that the specification describes: [n] bytes from index [p] of
    the output to its end, one at a time, each read after the one before it
    was written. *)
Fixpoint copyBytewise (n : nat) (output : list Z) (p : nat) : list Z :=
  match n with
  | O => output
  | S n =>
      match output !! p with
      | Some b => copyBytewise n (output ++ [b]) (S p)
      | None => output
      end
  end.

Lemma copyBytewise_disjoint n : ∀ output p,
  (p + n <= length output)%nat →
  copyBytewise n output p = output ++ take n (drop p output).
Proof.
  induction n as [|n IH]; intros output p Hp; simpl.
  { by rewrite take_0, app_nil_r. }
  destruct (lookup_lt_is_Some_2 output p) as [b Hb]; [lia|].
  rewrite Hb, IH by (rewrite length_app; simpl; lia).
  rewrite (drop_S _ _ _ Hb), <- app_assoc. simpl. do 2 f_equal.
  rewrite drop_app_le by lia. apply take_app_le. rewrite length_drop. lia.
Qed.

(** * Properties of the codec *)

(** C1. For every byte sequence, every legal dictionary length and every
    destination that holds the compressed form, decompressing what
    [compress] returned ends and yields the sequence back, whatever the
    capacity of the decoder's output (at least the length of the
    sequence).  A destination of 8 bytes per input byte behind the header
    always holds the compressed form; a return value other than 0 (the
    code's [return false]) is the length of the compressed form. *)
Theorem compress_decompress_roundtrip
    input past outputLength dictionaryLength capacity :
  Forall is_byte input → inputLength input < 2 ^ 31 →
  legal dictionaryLength → outputLength < 2 ^ 31 →
  inputLength input <= capacity →
  (8 + 8 * inputLength input <= outputLength →
   ∃ ret s, compress input past outputLength dictionaryLength = Return ret s
            ∧ ret ≠ 0)
  ∧ (∀ ret s,
       compress input past outputLength dictionaryLength = Return ret s →
       ret ≠ 0 →
       ∃ W, image (mem s) (ret / 4) = Some W
            ∧ Decoder.decompress W capacity
              = Decoder.Return (inputLength input) input).
Proof.
  intros Hbytes Hlen (k & Hk & ->)%legal_log Hout Hcap. split.
  - intros Hroom. by apply (compress_room input past outputLength k).
  - intros ret s Hrun Hret.
    by apply (compress_replay input past outputLength k).
Qed.

Lemma compress_decompress_roundtrip_witness :
  (8 + 8 * inputLength [97; 98; 99; 97; 98; 99; 97; 98; 99; 100] <= 1024 →
   ∃ ret s,
     compress [97; 98; 99; 97; 98; 99; 97; 98; 99; 100] 0 1024 4
     = Return ret s ∧ ret ≠ 0)
  ∧ (∀ ret s,
       compress [97; 98; 99; 97; 98; 99; 97; 98; 99; 100] 0 1024 4
       = Return ret s →
       ret ≠ 0 →
       ∃ W, image (mem s) (ret / 4) = Some W
            ∧ Decoder.decompress W 10
              = Decoder.Return
                  (inputLength [97; 98; 99; 97; 98; 99; 97; 98; 99; 100])
                  [97; 98; 99; 97; 98; 99; 97; 98; 99; 100]).
Proof.
  apply (compress_decompress_roundtrip
           [97; 98; 99; 97; 98; 99; 97; 98; 99; 100] 0 1024 4 10);
    [repeat constructor; unfold is_byte; lia|by vm_compute
    |split; [by exists 2|lia]|lia|by vm_compute].
Defined.

(** C2.  The test for room is [next == outputEnd].  With a destination of
    0 bytes the call fails before the header is written, and with 8 or 12
    bytes it returns [false]; with 9 bytes [outputEnd] is no word boundary,
    the test never holds, and the word of flags is stored to bytes 8-11. *)
Theorem unaligned_room_test_misses past :
  compress [65] past 0 4 = Exit OutputTooSmall
  ∧ (∃ s, compress [65] past 8 4 = Return 0 s)
  ∧ (∃ s, compress [65] past 12 4 = Return 0 s)
  ∧ compress [65] past 9 4 = WildStore 2
  ∧ ¬ 4 * 2 + 4 <= 9.
Proof.
  split; [reflexivity|]. split; [by eexists|]. split; [by eexists|].
  split; [reflexivity|lia].
Qed.

(** C3 (as amended). The comparison of a candidate [search] with [current]
    reads the not-yet-emitted bytes at [current] and behind it through
    [p2], but [p1] stops at [current]: the match length of a candidate is at
    most its distance from [current], so what the search returns never has
    a length above its offset. *)
Theorem match_stops_at_current
    input past current maxOffset maxMatch bestLength bestOffset :
  0 <= current <= inputLength input → 0 <= maxOffset → 0 <= maxMatch →
  findMatch input past current maxOffset maxMatch
    = Some (bestLength, bestOffset) →
  (∀ search m,
     search <= current →
     matchAt input past current maxMatch search = Some m →
     m <= current - search
     ∧ ∀ i, 0 <= i < m →
            peek input past (search + i) = peek input past (current + i))
  ∧ bestLength <= bestOffset.
Proof.
  intros Hc Hmo Hmm Hfind. split.
  - intros search m Hs Hm.
    apply matchAt_spec in Hm as (_ & Hle & _ & _ & Heq). split; [lia|done].
  - by apply findMatch_sound in Hfind as ([_ ?] & _).
Qed.

Lemma match_stops_at_current_witness :
  (∀ search m,
     search <= 3 →
     matchAt [97; 97; 97; 97; 97; 97; 97; 97] 0 3 18 search = Some m →
     m <= 3 - search
     ∧ ∀ i, 0 <= i < m →
            peek [97; 97; 97; 97; 97; 97; 97; 97] 0 (search + i)
            = peek [97; 97; 97; 97; 97; 97; 97; 97] 0 (3 + i))
  ∧ 3 <= 3.
Proof.
  apply (match_stops_at_current [97; 97; 97; 97; 97; 97; 97; 97]
           0 3 16386 18 3 3);
    [by vm_compute|lia|lia|by vm_compute].
Defined.

(** C3, refuted as stated: no call of [compress] emits a string token whose
    length exceeds its offset. *)
Lemma no_self_overlapping_token :
  ¬ ∃ input past outputLength dictionaryLength ret s pos len off,
      Forall is_byte input ∧ inputLength input < 2 ^ 31
      ∧ outputLength < 2 ^ 31
      ∧ compress input past outputLength dictionaryLength = Return ret s
      ∧ Token pos len off ∈ emitted s ∧ off < len.
Proof.
  intros (input & past & outputLength & d & ret & s & pos & len & off
          & Hbytes & Hlen & Hout & Hrun & Hin & Hlt).
  pose proof (compress_Return_legal _ _ _ _ _ _ Hrun) as (k & Hk & ->)%legal_log.
  pose proof (compress_emitted _ _ _ _ _ _ Hbytes Hlen Hk Hout Hrun) as Hall.
  rewrite Forall_forall in Hall. apply Hall in Hin as (Hpos & Hfind & _).
  apply findMatch_sound in Hfind as ([_ ?] & _); lia.
Qed.

(** C4 (as amended).  [decompress] copies the bytes of a string token with
    [memcpy].  For a token whose length is at most its offset, source and
    destination are apart and the copy appends the [length] bytes that
    start [offset] bytes back, which is what a forward copy of single bytes
    gives.  For a token with offset < length the two ranges overlap and
    what the block copy does is undefined. *)
Theorem copy_apart_only capacity offsetMask lengthShift lengthMask s :
  let buffer := Z.of_nat (length (Decoder.output s)) in
  let offset := Z.land (Decoder.strings s) offsetMask + 3 in
  let len :=
    Z.land (Z.shiftr (Decoder.strings s) lengthShift) lengthMask + 3 in
  0 <= len → offset <= buffer → buffer + len <= capacity →
  (len <= offset →
   ∃ s', Decoder.copyString capacity offsetMask lengthShift lengthMask s
         = Next s'
         ∧ Decoder.output s'
           = Decoder.output s
             ++ take (Z.to_nat len)
                  (drop (Z.to_nat (buffer - offset)) (Decoder.output s))
         ∧ Decoder.output s'
           = copyBytewise (Z.to_nat len) (Decoder.output s)
               (Z.to_nat (buffer - offset)))
  ∧ (offset < len →
     Decoder.copyString capacity offsetMask lengthShift lengthMask s
     = Stop (Decoder.Wrong Decoder.CopyOverlap)).
Proof.
  intros buffer offset len Hlen Hoff Hcap.
  unfold Decoder.copyString, Decoder.memcpy. fold buffer.
  replace (buffer - Z.land (Decoder.strings s) offsetMask - 3)
    with (buffer - offset) by (unfold offset; lia).
  fold len.
  destruct (Z.ltb_spec (buffer - offset) 0); [lia|]. split.
  - intros Hle.
    destruct (Z.ltb_spec buffer (buffer - offset + len)); [lia|].
    destruct (Z.ltb_spec capacity (buffer + len)); [lia|].
    eexists. split; [done|]. dfields. split; [done|].
    symmetry. apply copyBytewise_disjoint. unfold buffer in *. lia.
  - intros Hlt. by destruct (Z.ltb_spec buffer (buffer - offset + len)); [|lia].
Qed.

Lemma copy_apart_only_witness :
  ∃ s', Decoder.copyString 6 3 2 16383
          (Decoder.Locals 5 8 8 0 1 0 2 [97; 98; 99] 3) = Next s'
        ∧ Decoder.output s' = [97; 98; 99; 97; 98; 99]
        ∧ Decoder.output s' = copyBytewise 3 [97; 98; 99] 0.
Proof.
  apply (proj1 (copy_apart_only 6 3 2 16383
                  (Decoder.Locals 5 8 8 0 1 0 2 [97; 98; 99] 3)
                  ltac:(by vm_compute) ltac:(by vm_compute)
                  ltac:(by vm_compute))).
  by vm_compute.
Defined.

(** C4 as stated fails on a stream whose token has offset 3 and length 4:
    the forward copy of single bytes would give the repeating pattern, the
    decoder's block copy is between overlapping ranges. *)
Lemma overlapping_token_not_replayed :
  copyBytewise 4 [97; 98; 99] 0 = [97; 98; 99; 97; 98; 99; 97]
  ∧ Decoder.decompress [7; 4; 8; 6513249; 4] 7
    = Decoder.Wrong Decoder.CopyOverlap
  ∧ Decoder.decompress [7; 4; 8; 6513249; 4] 7
    ≠ Decoder.Return 7 [97; 98; 99; 97; 98; 99; 97].
Proof. by vm_compute. Qed.

(** C5. Every string token that [compress] emits has a length of at most
    its offset.  So the decoder, whose block copy is defined only when the
    source range ends before the destination range starts, replays the
    stream of [compress] without ever copying between overlapping
    ranges: it returns the input. *)
Theorem tokens_never_overlap
    input past outputLength dictionaryLength capacity ret s :
  Forall is_byte input → inputLength input < 2 ^ 31 →
  legal dictionaryLength → outputLength < 2 ^ 31 →
  inputLength input <= capacity →
  compress input past outputLength dictionaryLength = Return ret s →
  (∀ pos len off, Token pos len off ∈ emitted s → len <= off)
  ∧ (ret ≠ 0 →
     ∃ W, image (mem s) (ret / 4) = Some W
          ∧ Decoder.decompress W capacity
            = Decoder.Return (inputLength input) input)
  ∧ (∀ cap output p len output',
       Decoder.memcpy cap output p len = Next output' →
       0 <= p ∧ p + len <= Z.of_nat (length output)).
Proof.
  intros Hbytes Hlen (k & Hk & ->)%legal_log Hout Hcap Hrun.
  split; [|split].
  - intros pos len off Hin.
    pose proof (compress_emitted _ _ _ _ _ _ Hbytes Hlen Hk Hout Hrun) as Hall.
    rewrite Forall_forall in Hall. apply Hall, found_token in Hin; [lia|done].
  - intros Hret. by apply (compress_replay input past outputLength k).
  - intros cap output p len output'. unfold Decoder.memcpy.
    destruct (Z.ltb_spec p 0); [done|].
    destruct (Z.ltb_spec (Z.of_nat (length output)) (p + len)); [done|].
    intros _. lia.
Qed.

Lemma tokens_never_overlap_witness :
  ∃ ret s,
    compress [97; 98; 99; 97; 98; 99; 97; 98; 99; 100] 0 1024 4 = Return ret s
    ∧ (∀ pos len off, Token pos len off ∈ emitted s → len <= off)
    ∧ (ret ≠ 0 →
       ∃ W, image (mem s) (ret / 4) = Some W
            ∧ Decoder.decompress W 10
              = Decoder.Return 10 [97; 98; 99; 97; 98; 99; 97; 98; 99; 100])
    ∧ (∀ cap output p len output',
         Decoder.memcpy cap output p len = Next output' →
         0 <= p ∧ p + len <= Z.of_nat (length output)).
Proof.
  eexists _, _. split; [by vm_compute|].
  apply (tokens_never_overlap [97; 98; 99; 97; 98; 99; 97; 98; 99; 100]
           0 1024 4 10);
    [repeat constructor; unfold is_byte; lia|by vm_compute
    |split; [by exists 2|lia]|lia|by vm_compute|by vm_compute].
Defined.

(** C6 (as amended). Every string token that [compress] emits has an offset
    between 3 and [dictionaryLength + 2] and a length between 3 and
    [maxMatch] (both bounds are reached), so [offset - 3] fits in
    [lengthShift] bits, [length - 3] fits in [16 - lengthShift] bits, and
    the packed field is a 16-bit value from which a mask and a shift give
    the two parts back. *)
Theorem token_fields_fit
    input past outputLength dictionaryLength ret s pos len off :
  Forall is_byte input → inputLength input < 2 ^ 31 →
  legal dictionaryLength → outputLength < 2 ^ 31 →
  compress input past outputLength dictionaryLength = Return ret s →
  Token pos len off ∈ emitted s →
  ∃ lengthShift,
    shiftLoop 33 dictionaryLength (-1) = Some lengthShift
    ∧ 2 ^ lengthShift = dictionaryLength
    ∧ 3 <= off <= dictionaryLength + 2
    ∧ 3 <= len <= Z.quot 65536 dictionaryLength + 2
    ∧ 0 <= off - 3 < 2 ^ lengthShift
    ∧ 0 <= len - 3 < 2 ^ (16 - lengthShift)
    ∧ 0 <= packed lengthShift len off < 2 ^ 16
    ∧ Z.land (packed lengthShift len off) (dictionaryLength - 1) = off - 3
    ∧ Z.shiftr (packed lengthShift len off) lengthShift = len - 3.
Proof.
  intros Hbytes Hlen (k & Hk & ->)%legal_log Hout Hrun Hin.
  pose proof (compress_emitted _ _ _ _ _ _ Hbytes Hlen Hk Hout Hrun) as Hall.
  rewrite Forall_forall in Hall.
  apply Hall, found_token in Hin as (? & ? & ? & _); [|done].
  destruct (legal_shift k Hk) as [Hs Hq]. exists k. rewrite Hq.
  assert (0 <= packed k len off < 2 ^ 16) as Hp by (apply packed_range; lia).
  split; [done|]. split; [done|]. split; [lia|]. split; [lia|].
  split; [lia|]. split; [lia|]. split; [done|].
  destruct (packed_read k len off (packed k len off)) as [Ho Hl];
    [done|lia|lia|by apply Z.mod_small|].
  assert (wrap32 (2 ^ k - 1) = Z.ones k) as Hw
    by (enum_from k 2 13%nat; done).
  assert (Z.shiftr (Z.land (Z.lnot (Z.ones k)) 65535) k = Z.ones (16 - k))
    as Hm by (enum_from k 2 13%nat; done).
  rewrite Hw in Ho, Hl. rewrite Hm in Hl.
  rewrite Z.sub_1_r, <- Z.ones_equiv. split; [done|].
  rewrite Z.land_ones in Hl by lia. rewrite <- Hl. symmetry.
  apply Z.mod_small. rewrite Z.shiftr_div_pow2 by lia.
  split; [apply Z.div_pos; lia|].
  apply Z.div_lt_upper_bound; [lia|].
  rewrite <- Z.pow_add_r by lia. replace (k + (16 - k)) with 16 by lia. lia.
Qed.

Lemma token_fields_fit_witness :
  ∃ ret s,
    compress [97; 98; 99; 100; 101; 102; 97; 98; 99; 100; 101; 102] 0 1024
      16384 = Return ret s
    ∧ ∃ lengthShift,
        shiftLoop 33 16384 (-1) = Some lengthShift
        ∧ 2 ^ lengthShift = 16384
        ∧ 3 <= 6 <= 16384 + 2
        ∧ 3 <= 6 <= Z.quot 65536 16384 + 2
        ∧ 0 <= 6 - 3 < 2 ^ lengthShift
        ∧ 0 <= 6 - 3 < 2 ^ (16 - lengthShift)
        ∧ 0 <= packed lengthShift 6 6 < 2 ^ 16
        ∧ Z.land (packed lengthShift 6 6) (16384 - 1) = 6 - 3
        ∧ Z.shiftr (packed lengthShift 6 6) lengthShift = 6 - 3.
Proof.
  eexists _, _. split; [by vm_compute|].
  eapply (token_fields_fit
            [97; 98; 99; 100; 101; 102; 97; 98; 99; 100; 101; 102]
            0 1024 16384 _ _ 6 6 6);
    [repeat constructor; unfold is_byte; lia|by vm_compute
    |split; [by exists 14|lia]|lia|by vm_compute|].
  vm_compute emitted. set_solver.
Defined.

(** C6, refuted as stated: a token can have [bestLength = maxMatch]. *)
Lemma token_length_reaches_maxMatch :
  ∃ ret s,
    compress [97; 98; 99; 100; 101; 102; 97; 98; 99; 100; 101; 102] 0 1024
      16384 = Return ret s
    ∧ Token 6 6 6 ∈ emitted s
    ∧ ¬ 6 < Z.quot 65536 16384 + 2.
Proof.
  eexists _, _. split; [by vm_compute|]. split; [|by vm_compute].
  vm_compute emitted. set_solver.
Qed.

(** C7. Where [compress] emits a string token, its length is the greatest
    match length among the candidates of the window, and among the
    candidates whose match length equals it the token carries the offset
    of the nearest one (the smallest offset). *)
Theorem closest_candidate_wins
    input past outputLength dictionaryLength ret s pos len off :
  Forall is_byte input → inputLength input < 2 ^ 31 →
  legal dictionaryLength → outputLength < 2 ^ 31 →
  compress input past outputLength dictionaryLength = Return ret s →
  Token pos len off ∈ emitted s →
  let maxOffset := dictionaryLength + 2 in
  let maxMatch := Z.quot 65536 dictionaryLength + 2 in
  Z.max 0 (pos - maxOffset) <= pos - off <= pos
  ∧ matchAt input past pos maxMatch (pos - off) = Some len
  ∧ ∀ search,
      Z.max 0 (pos - maxOffset) <= search <= pos →
      ∃ m, matchAt input past pos maxMatch search = Some m
           ∧ m <= len ∧ (m = len → off <= pos - search).
Proof.
  intros Hbytes Hlen (k & Hk & ->)%legal_log Hout Hrun Hin.
  pose proof (compress_emitted _ _ _ _ _ _ Hbytes Hlen Hk Hout Hrun) as Hall.
  rewrite Forall_forall in Hall.
  apply Hall, found_token in Hin as (_ & _ & _ & _ & _ & Hbest); [|done].
  destruct (legal_shift k Hk) as [_ Hq]. cbv zeta. rewrite Hq. apply Hbest.
Qed.

Lemma closest_candidate_wins_witness :
  ∃ ret s,
    compress [1; 2; 3; 9; 1; 2; 3; 8; 1; 2; 3] 0 1024 16 = Return ret s
    ∧ Z.max 0 (8 - (16 + 2)) <= 8 - 4 <= 8
    ∧ matchAt [1; 2; 3; 9; 1; 2; 3; 8; 1; 2; 3] 0 8 (Z.quot 65536 16 + 2)
        (8 - 4) = Some 3
    ∧ ∀ search,
        Z.max 0 (8 - (16 + 2)) <= search <= 8 →
        ∃ m, matchAt [1; 2; 3; 9; 1; 2; 3; 8; 1; 2; 3] 0 8
               (Z.quot 65536 16 + 2) search = Some m
             ∧ m <= 3 ∧ (m = 3 → 4 <= 8 - search).
Proof.
  eexists _, _. split; [by vm_compute|].
  eapply (closest_candidate_wins [1; 2; 3; 9; 1; 2; 3; 8; 1; 2; 3]
            0 1024 16 _ _ 8 3 4);
    [repeat constructor; unfold is_byte; lia|by vm_compute
    |split; [by exists 4|lia]|lia|by vm_compute|].
  vm_compute emitted. set_solver.
Defined.

(** C8 (as amended).  The three tests run in the order of the source.  The
    bit test fails every positive length that is not a power of two and
    every negative length above the least one; of the lengths that pass it,
    0, 1 and 2 fail the second test and the powers of two above 16384 the
    third.  A failed test leaves through [error]: nothing is returned and
    no word of the destination is written. *)
Theorem dictionary_tests input past outputLength dictionaryLength :
  (- 2 ^ 31 < dictionaryLength < 2 ^ 31 → dictionaryLength ≠ 0 →
   ¬ power_of_two dictionaryLength →
   compress input past outputLength dictionaryLength = Exit InvalidDictionary)
  ∧ (0 <= dictionaryLength < 4 →
     dictionaryLength = 0 ∨ power_of_two dictionaryLength →
     compress input past outputLength dictionaryLength
     = Exit DictionaryTooSmall)
  ∧ (16384 < dictionaryLength < 2 ^ 31 → power_of_two dictionaryLength →
     compress input past outputLength dictionaryLength
     = Exit DictionaryTooLarge)
  ∧ (∀ ret s,
       compress input past outputLength dictionaryLength = Return ret s →
       legal dictionaryLength).
Proof.
  set (d := dictionaryLength). split; [|split; [|split]].
  - intros Hlo Hd Hpow. unfold compress.
    destruct (Z.eqb_spec (Z.land d (wrap32 (d - 1))) 0) as [H0|?]; [|done].
    exfalso. rewrite wrap32_id in H0 by (unfold int32; lia).
    destruct (Z.lt_trichotomy d 0) as [Hneg|[?|Hpos]]; [|done|].
    + assert (Z.land d (d - 1) < 0) by (apply Z.land_neg; lia). lia.
    + apply Hpow. exists (Z.log2 d). split; [apply Z.log2_nonneg|].
      by apply land_pred_pow.
  - intros Hd Hpow. unfold compress.
    assert (d = 0 ∨ d = 1 ∨ d = 2) as [-> |[-> | ->]]; [|done..].
    destruct Hpow as [?|(k & Hk & Hpow)]; [lia|].
    destruct (Z.eq_dec d 3) as [H3|]; [|lia]. rewrite H3 in Hpow.
    assert (k < 2) by (apply (Z.pow_lt_mono_r_iff 2); lia).
    assert (k = 0 ∨ k = 1) as [-> | ->] by lia; done.
  - intros Hd (k & Hk & Hpow). unfold compress. fold d. rewrite Hpow.
    rewrite wrap32_id by (unfold int32; lia). rewrite pow_land_pred by done.
    rewrite <- Hpow. cbn [negb Z.eqb].
    destruct (Z.ltb_spec d 4); [lia|]. by destruct (Z.gtb_spec d 16384); [|lia].
  - intros ret s. apply compress_Return_legal.
Qed.

Lemma dictionary_tests_witness :
  compress [65] 0 64 12 = Exit InvalidDictionary
  ∧ compress [65] 0 64 2 = Exit DictionaryTooSmall
  ∧ compress [65] 0 64 32768 = Exit DictionaryTooLarge.
Proof.
  split; [|split].
  - apply (proj1 (dictionary_tests [65] 0 64 12)); [lia|lia|].
    intros (k & Hk & Hpow).
    assert (k < 4) by (apply (Z.pow_lt_mono_r_iff 2); lia).
    assert (k = 0 ∨ k = 1 ∨ k = 2 ∨ k = 3) as [-> |[-> |[-> | ->]]] by lia;
      discriminate Hpow.
  - apply (proj1 (proj2 (dictionary_tests [65] 0 64 2))); [lia|].
    right. by exists 1.
  - apply (proj1 (proj2 (proj2 (dictionary_tests [65] 0 64 32768)))); [lia|].
    by exists 15.
Defined.

(** C8 as stated fails at the lengths 0 and 3: 0 is no power of two and is
    turned away as too small, 3 is below 4 and is turned away as no power of
    two. *)
Lemma zero_and_three_rejected_otherwise :
  (¬ power_of_two 0
   ∧ compress [65] 0 64 0 = Exit DictionaryTooSmall
   ∧ compress [65] 0 64 0 ≠ Exit InvalidDictionary)
  ∧ (3 < 4
     ∧ compress [65] 0 64 3 = Exit InvalidDictionary
     ∧ compress [65] 0 64 3 ≠ Exit DictionaryTooSmall).
Proof.
  repeat split; try done.
  intros (k & Hk & Hpow). pose proof (Z.pow_pos_nonneg 2 k). lia.
Qed.

(** C9. For an input of N >= 1 bytes without a repeated triple, every
    element is a literal: [compress], given room, returns
    8 + 4 * ceil(N / 32) + 4 * ceil(N / 4), having reserved ceil(N / 32)
    flag words, ceil(N / 4) byte words and no string word. *)
Theorem all_literal_size input past outputLength dictionaryLength :
  Forall is_byte input → 1 <= inputLength input < 2 ^ 31 →
  legal dictionaryLength → outputLength < 2 ^ 31 →
  no_repeat input dictionaryLength →
  let N := inputLength input in
  (8 + 8 * N <= outputLength →
   ∃ ret s, compress input past outputLength dictionaryLength = Return ret s
            ∧ ret ≠ 0)
  ∧ (∀ ret s,
       compress input past outputLength dictionaryLength = Return ret s →
       ret ≠ 0 →
       ret = 8 + 4 * ((N + 31) / 32) + 4 * ((N + 3) / 4)
       ∧ Forall literal (emitted s)
       ∧ words Flags (layout s) = (N + 31) / 32
       ∧ words Bytes (layout s) = (N + 3) / 4
       ∧ words Strings (layout s) = 0).
Proof.
  intros Hbytes [Hpos Hlen] (k & Hk & ->)%legal_log Hout Hnr N. split.
  - intros Hroom. by apply (compress_room input past outputLength k).
  - intros ret s Hrun Hret.
    destruct (compress_success input past outputLength k Hbytes Hlen Hk
                ret s Hout Hrun Hret)
      as (l & -> & _ & Hinv & Hcur & Hset & _).
    assert (emitted s = emitted l ∧ layout s = layout l) as [-> ->]
      by (rewrite Hset; by destruct l).
    assert (Forall literal (emitted l)) as Hlit.
    { eapply Forall_impl; [apply Hinv|]. intros e.
      by apply no_repeat_literal. }
    destruct (literal_counts _ Hlit) as (Hf & Hb & Hs).
    rewrite (inv_extent _ _ _ _ _ _ Hinv), Hcur in Hf, Hb.
    pose proof (inv_filled _ _ _ _ _ _ Hinv Flags) as HF.
    pose proof (inv_filled _ _ _ _ _ _ Hinv Bytes) as HB.
    pose proof (inv_filled _ _ _ _ _ _ Hinv Strings) as HS.
    pose proof (wf_count _ _ (inv_wf _ _ _ _ _ _ Hinv) Flags) as HcF.
    pose proof (wf_count _ _ (inv_wf _ _ _ _ _ _ Hinv) Bytes) as HcB.
    pose proof (wf_count _ _ (inv_wf _ _ _ _ _ _ Hinv) Strings) as HcS.
    pose proof (words_nonneg Strings (layout l)).
    unfold filled in HF, HB, HS. rewrite Hf in HF. rewrite Hb in HB.
    rewrite Hs in HS. simpl room in *. fold N in HF, HB.
    assert (words Flags (layout l) = (N + 31) / 32) as HwF.
    { destruct (Z.eqb_spec (count l Flags) 0); Z.div_mod_to_equations; lia. }
    assert (words Bytes (layout l) = (N + 3) / 4) as HwB.
    { destruct (Z.eqb_spec (count l Bytes) 0); Z.div_mod_to_equations; lia. }
    assert (words Strings (layout l) = 0) as HwS.
    { destruct (Z.eqb_spec (count l Strings) 0); lia. }
    split; [|done].
    rewrite (inv_next _ _ _ _ _ _ Hinv), <- words_total, HwF, HwB, HwS. lia.
Qed.

Lemma all_literal_size_witness :
  (8 + 8 * inputLength [1; 2; 3; 4; 5; 6; 7] <= 1024 →
   ∃ ret s,
     compress [1; 2; 3; 4; 5; 6; 7] 0 1024 4 = Return ret s ∧ ret ≠ 0)
  ∧ (∀ ret s,
       compress [1; 2; 3; 4; 5; 6; 7] 0 1024 4 = Return ret s → ret ≠ 0 →
       ret = 8 + 4 * ((inputLength [1; 2; 3; 4; 5; 6; 7] + 31) / 32)
             + 4 * ((inputLength [1; 2; 3; 4; 5; 6; 7] + 3) / 4)
       ∧ Forall literal (emitted s)
       ∧ words Flags (layout s)
         = (inputLength [1; 2; 3; 4; 5; 6; 7] + 31) / 32
       ∧ words Bytes (layout s)
         = (inputLength [1; 2; 3; 4; 5; 6; 7] + 3) / 4
       ∧ words Strings (layout s) = 0).
Proof.
  apply (all_literal_size [1; 2; 3; 4; 5; 6; 7] 0 1024 4);
    [repeat constructor; unfold is_byte; lia|by vm_compute
    |split; [by exists 2|lia]|lia|].
  intros s c Hs Hsc Hc Hd [Heq _].
  unfold inputLength in Hc. simpl length in Hc.
  assert (c = 3 ∨ c = 4) as [-> | ->] by lia;
    (assert (s = 0 ∨ s = 1) as [-> | ->] by lia); discriminate Heq.
Defined.

(** C10. The two words that [writeHeader] stores are the ones that the
    decoder's [readHeader] fetches, for every length and every dictionary
    length; and on what [compress] has produced, [getDecompressedLength]
    gives the length of the input by reading the first word alone. *)
Theorem header_roundtrip :
  (∀ n d m rest,
     image (writeHeader n d m) 2 = Some [n; d]
     ∧ Decoder.readHeader ([n; d] ++ rest) (Decoder.Locals 0 0 0 0 0 0 0 [] 0)
       = Next (n, d, Decoder.Locals 2 0 0 0 0 0 0 [] 0))
  ∧ (∀ input past outputLength dictionaryLength ret s,
       Forall is_byte input → inputLength input < 2 ^ 31 →
       legal dictionaryLength → outputLength < 2 ^ 31 →
       compress input past outputLength dictionaryLength = Return ret s →
       ret ≠ 0 →
       ∃ W, image (mem s) (ret / 4) = Some W
            ∧ Decoder.getDecompressedLength W = Some (inputLength input)
            ∧ Decoder.readHeader W (Decoder.Locals 0 0 0 0 0 0 0 [] 0)
              = Next (inputLength input, dictionaryLength,
                      Decoder.Locals 2 0 0 0 0 0 0 [] 0)).
Proof.
  split.
  - intros n d m rest. split; [|done].
    unfold image, writeHeader. change (seqZ 0 2) with [0; 1].
    cbn [mapM mbind option_bind mret option_ret].
    rewrite (lookup_insert_ne _ 1 0), !lookup_insert_eq by done. done.
  - intros input past outputLength d ret s Hbytes Hlen
      (k & Hk & ->)%legal_log Hout Hrun Hret.
    destruct (compress_success input past outputLength k Hbytes Hlen Hk
                ret s Hout Hrun Hret)
      as (l & -> & _ & Hinv & _ & _ & Hall & _ & [Hw0 Hw1] & _).
    pose proof (wf_next _ _ (inv_wf _ _ _ _ _ _ Hinv)) as Hn2.
    replace (4 * next l / 4) with (next l) by (Z.div_mod_to_equations; lia).
    destruct (image_total (mem s) (next l)) as [W HW].
    { intros p Hp. destruct (Hall p Hp) as (w & -> & _). eauto. }
    exists W. split; [done|].
    destruct (image_lookup _ _ _ HW 0) as (w0 & H0 & Hm0); [lia|].
    destruct (image_lookup _ _ _ HW 1) as (w1 & H1 & Hm1); [lia|].
    rewrite Hw0 in Hm0. rewrite Hw1 in Hm1.
    injection Hm0 as <-. injection Hm1 as <-.
    split; [done|].
    change (Z.to_nat 0) with 0%nat in H0. change (Z.to_nat 1) with 1%nat in H1.
    unfold Decoder.readHeader, Decoder.fetch. dfields.
    change (Z.to_nat 0) with 0%nat. rewrite H0. dfields.
    change (Z.to_nat (0 + 1)) with 1%nat. by rewrite H1.
Qed.

Lemma header_roundtrip_witness :
  ∃ ret s,
    compress [104; 105] 0 64 4 = Return ret s
    ∧ ∃ W, image (mem s) (ret / 4) = Some W
           ∧ Decoder.getDecompressedLength W = Some (inputLength [104; 105])
           ∧ Decoder.readHeader W (Decoder.Locals 0 0 0 0 0 0 0 [] 0)
             = Next (inputLength [104; 105], 4,
                     Decoder.Locals 2 0 0 0 0 0 0 [] 0).
Proof.
  eexists _, _. split; [by vm_compute|].
  apply (proj2 header_roundtrip [104; 105] 0 64 4);
    [repeat constructor; unfold is_byte; lia|by vm_compute
    |split; [by exists 2|lia]|lia|by vm_compute|done].
Defined.

(** * Further properties of the codec *)

(** ** How large the stream can get *)

Lemma found_counts input past maxOffset maxMatch es :
  Forall (found input past maxOffset maxMatch) es →
  items Flags es = items Bytes es + items Strings es
  ∧ items Bytes es + 3 * items Strings es <= extent es
  ∧ 0 <= items Bytes es ∧ 0 <= items Strings es.
Proof.
  induction 1 as [|[pos b|pos len off] es He _ IH]; simpl in *; [lia|lia|].
  destruct He as (_ & _ & ?). lia.
Qed.

(** Up to [current], the header and the words reserved take at most 9/8 of
    the input consumed, and 17 bytes. *)
Lemma inv_size_bound input past outputLength maxOffset maxMatch s :
  inv input past outputLength maxOffset maxMatch s →
  32 * next s <= 135 + 9 * current s.
Proof.
  intros Hinv.
  destruct (found_counts _ _ _ _ _ (inv_found _ _ _ _ _ _ Hinv))
    as (HE & HT & HL & HS).
  rewrite (inv_extent _ _ _ _ _ _ Hinv) in HT.
  pose proof (inv_filled _ _ _ _ _ _ Hinv Flags) as HF.
  pose proof (inv_filled _ _ _ _ _ _ Hinv Bytes) as HB.
  pose proof (inv_filled _ _ _ _ _ _ Hinv Strings) as HSt.
  pose proof (wf_count _ _ (inv_wf _ _ _ _ _ _ Hinv) Flags) as HcF.
  pose proof (wf_count _ _ (inv_wf _ _ _ _ _ _ Hinv) Bytes) as HcB.
  pose proof (wf_count _ _ (inv_wf _ _ _ _ _ _ Hinv) Strings) as HcS.
  unfold filled in HF, HB, HSt. simpl room in *.
  rewrite (inv_next _ _ _ _ _ _ Hinv), <- words_total.
  destruct (Z.eqb_spec (count s Flags) 0), (Z.eqb_spec (count s Bytes) 0),
    (Z.eqb_spec (count s Strings) 0); lia.
Qed.

Section Roomy.
Variable input : list Z.
Variable past : Z.
Variable outputLength : Z.
Variables maxOffset maxMatch lengthShift : Z.

Hypothesis Hbytes : Forall is_byte input.
Hypothesis Hshift : 2 <= lengthShift <= 14.
Hypothesis HmaxOffset : maxOffset = 2 ^ lengthShift + 2.
Hypothesis HmaxMatch : maxMatch = 2 ^ (16 - lengthShift) + 2.
Hypothesis Hroom : 9 * inputLength input + 167 < 8 * outputLength.
Hypothesis Hout : outputLength < 2 ^ 31.

(** With that much room the loop is left neither by [return false] nor by
    a store outside the destination. *)
Lemma mainLoop_roomy fuel : ∀ s n es,
  inv input past outputLength maxOffset maxMatch s →
  (Z.to_nat (inputLength input - current s) < fuel)%nat →
  ¬ stopped outputLength n es
      (mainLoop input past outputLength maxOffset maxMatch lengthShift fuel s).
Proof using All.
  induction fuel as [|fuel IH]; intros s n es Hinv Hfuel; [lia|].
  pose proof (inv_size_bound _ _ _ _ _ _ Hinv) as Hsize.
  pose proof (inv_current _ _ _ _ _ _ Hinv) as Hcur.
  simpl. destruct (Z.ltb_spec (current s) (inputLength input)) as [Hlt|Hge].
  - destruct (body _ _ _ _ _ _ s) as [s'|r] eqn:Hbody.
    + apply body_inv in Hbody as (Hinv' & Hadv & _); [|done..].
      apply IH; [done|lia].
    + apply body_stop in Hbody as [(s0 & _ & _ & q & Hq & Hq2)
                                  |(p & _ & Hp & Hpast)]; [| |done..]; lia.
  - destruct (finish_spec outputLength s _ (inv_wf _ _ _ _ _ _ Hinv) eq_refl)
      as [(p & _ & Hp & Hpast)|(t & -> & _ & Hall & Hsto)]; [lia|].
    pose proof (wf_next _ _ (inv_wf _ _ _ _ _ _ Hinv)) as Hn2.
    assert (4 * next s <= outputLength) as Hfit.
    { destruct (Hall (next s - 1)) as (w & Hw & _); [lia|].
      apply Hsto in Hw. lia. }
    intros [(s0 & [= Hz _] & _)|(p & [=] & _)].
    assert (4 * next s < 2 ^ 31) as Hlt31 by lia.
    rewrite wrap32_id in Hz by (unfold int32; lia). lia.
Qed.
End Roomy.

(** X1.  What [compress] returns on success is a multiple of 4 between 8
    and [outputLength], and at most 9/8 of the length of the input plus 17
    bytes: the stream never grows by more than an eighth and a few words. *)
Theorem compress_size_bound
    input past outputLength dictionaryLength ret s :
  Forall is_byte input → inputLength input < 2 ^ 31 →
  legal dictionaryLength → outputLength < 2 ^ 31 →
  compress input past outputLength dictionaryLength = Return ret s →
  ret ≠ 0 →
  8 <= ret <= outputLength ∧ ret mod 4 = 0
  ∧ 8 * ret <= 9 * inputLength input + 135.
Proof.
  intros Hbytes Hlen (k & Hk & ->)%legal_log Hout Hrun Hret.
  destruct (compress_success input past outputLength k Hbytes Hlen Hk
              ret s Hout Hrun Hret)
    as (l & -> & Hle & Hinv & Hcur & _).
  pose proof (wf_next _ _ (inv_wf _ _ _ _ _ _ Hinv)) as Hn2.
  pose proof (inv_size_bound _ _ _ _ _ _ Hinv) as Hsize.
  rewrite Hcur in Hsize. split; [lia|]. split; [|lia].
  rewrite Z.mul_comm. apply Z.mod_mul. lia.
Qed.

Lemma compress_size_bound_witness :
  ∃ ret s,
    compress [1; 2; 3; 4; 5; 6; 7] 0 64 4 = Return ret s
    ∧ 8 <= ret <= 64 ∧ ret mod 4 = 0
    ∧ 8 * ret <= 9 * inputLength [1; 2; 3; 4; 5; 6; 7] + 135.
Proof.
  eexists _, _. split; [by vm_compute|].
  eapply (compress_size_bound [1; 2; 3; 4; 5; 6; 7] 0 64 4);
    [repeat constructor; unfold is_byte; lia|by vm_compute
    |split; [by exists 2|lia]|lia|by vm_compute|by vm_compute].
Defined.

(** Room for 9/8 of the input and 21 bytes is enough. *)
Lemma compress_roomy input past outputLength k :
  Forall is_byte input → inputLength input < 2 ^ 31 → 2 <= k <= 14 →
  outputLength < 2 ^ 31 →
  9 * inputLength input + 167 < 8 * outputLength →
  ∃ ret s, compress input past outputLength (2 ^ k) = Return ret s ∧ ret ≠ 0.
Proof.
  intros Hbytes Hlen Hk Hout Hroom.
  assert (0 <= inputLength input) by (unfold inputLength; lia).
  assert (8 <= outputLength) as Hge by lia.
  pose proof (mainLoop_roomy input past outputLength _ _ k Hbytes Hk eq_refl
                eq_refl Hroom Hout (S (length input)) (start input (2 ^ k)))
    as Hnot.
  destruct (compress_result input past outputLength k Hbytes Hlen Hk Hge Hout)
    as [(es & _ & Hr)|[Hr|(ret & s & l & Hs & Hret & _)]]; [| |eauto].
  - exfalso. rewrite compress_legal in Hr by done.
    destruct (Z.ltb_spec outputLength 8); [lia|].
    eapply (Hnot _ es); [by apply inv_start| |left; apply Hr].
    unfold start, inputLength. simpl. lia.
  - exfalso. rewrite compress_legal in Hr by done.
    destruct (Z.ltb_spec outputLength 8); [lia|].
    eapply (Hnot _ []); [by apply inv_start| |right; apply Hr].
    unfold start, inputLength. simpl. lia.
Qed.

(** X2.  A destination of more than 9/8 of the length of the input plus 21
    bytes is always enough, whether or not its length is a multiple of 4:
    [compress] then returns the length of the stream, never [false], and
    stores nothing outside. *)
Theorem compress_enough_room input past outputLength dictionaryLength :
  Forall is_byte input → inputLength input < 2 ^ 31 →
  legal dictionaryLength → outputLength < 2 ^ 31 →
  9 * inputLength input + 167 < 8 * outputLength →
  ∃ ret s,
    compress input past outputLength dictionaryLength = Return ret s
    ∧ 8 <= ret <= outputLength
    ∧ ∀ p w, mem s !! p = Some w → 0 <= p ∧ 4 * p + 4 <= ret.
Proof.
  intros Hbytes Hlen (k & Hk & ->)%legal_log Hout Hroom.
  destruct (compress_roomy input past outputLength k)
    as (ret & s & Hrun & Hret); [done..|].
  destruct (compress_success input past outputLength k Hbytes Hlen Hk
              ret s Hout Hrun Hret)
    as (l & -> & Hle & Hinv & _ & _ & _ & Hsto & _).
  pose proof (wf_next _ _ (inv_wf _ _ _ _ _ _ Hinv)) as Hn2.
  exists (4 * next l), s. split; [done|]. split; [lia|].
  intros p w Hw. apply Hsto in Hw. lia.
Qed.

Lemma compress_enough_room_witness :
  ∃ ret s,
    compress [1; 2; 3; 4; 5; 6; 7] 0 29 4 = Return ret s
    ∧ 8 <= ret <= 29
    ∧ ∀ p w, mem s !! p = Some w → 0 <= p ∧ 4 * p + 4 <= ret.
Proof.
  apply (compress_enough_room [1; 2; 3; 4; 5; 6; 7] 0 29 4);
    [repeat constructor; unfold is_byte; lia|by vm_compute
    |split; [by exists 2|lia]|lia|by vm_compute].
Defined.

Lemma compress_aligned_witness :
  (12 < 8 ∧ compress [65; 66; 67; 68; 69] 0 12 4 = Exit OutputTooSmall)
  ∨ (8 <= 12 < 8 + 8 * inputLength [65; 66; 67; 68; 69]
     ∧ ∃ s, compress [65; 66; 67; 68; 69] 0 12 4 = Return 0 s)
  ∨ (∃ ret s,
       compress [65; 66; 67; 68; 69] 0 12 4 = Return ret s
       ∧ 8 <= ret <= 12
       ∧ ∀ p w, mem s !! p = Some w → 0 <= p ∧ 4 * p + 4 <= ret).
Proof.
  apply (compress_aligned [65; 66; 67; 68; 69] 0 12 4);
    [repeat constructor; unfold is_byte; lia|by vm_compute
    |split; [by exists 2|lia]|lia|done].
Defined.

(** ** The size of the stream, exactly *)

(** The words that [items] entries of a stream take. *)
Lemma words_items input past outputLength maxOffset maxMatch s X :
  inv input past outputLength maxOffset maxMatch s →
  words X (layout s) = (items X (emitted s) + room X - 1) / room X.
Proof.
  intros Hinv.
  pose proof (inv_filled _ _ _ _ _ _ Hinv X) as HF.
  pose proof (wf_count _ _ (inv_wf _ _ _ _ _ _ Hinv) X) as Hc.
  unfold filled in HF.
  assert (2 <= room X) by (destruct X; simpl; lia).
  destruct (Z.eqb_spec (count s X) 0); Z.div_mod_to_equations; nia.
Qed.

(** X15.  The length that [compress] returns is fixed by what it emitted:
    the 8 bytes of the header, one word for every 32 elements, one for
    every 4 literals and one for every 2 string tokens, each count rounded
    up; and the elements emitted cover the input exactly. *)
Theorem compress_size_formula
    input past outputLength dictionaryLength ret s :
  Forall is_byte input → inputLength input < 2 ^ 31 →
  legal dictionaryLength → outputLength < 2 ^ 31 →
  compress input past outputLength dictionaryLength = Return ret s →
  ret ≠ 0 →
  let literals := items Bytes (emitted s) in
  let tokens := items Strings (emitted s) in
  ret = 8 + 4 * ((literals + tokens + 31) / 32) + 4 * ((literals + 3) / 4)
        + 4 * ((tokens + 1) / 2)
  ∧ extent (emitted s) = inputLength input
  ∧ literals + 3 * tokens <= inputLength input.
Proof.
  intros Hbytes Hlen (k & Hk & ->)%legal_log Hout Hrun Hret.
  destruct (compress_success input past outputLength k Hbytes Hlen Hk
              ret s Hout Hrun Hret)
    as (l & -> & _ & Hinv & Hcur & Hset & _).
  assert (emitted s = emitted l) as -> by (rewrite Hset; by destruct l).
  cbv zeta.
  destruct (found_counts _ _ _ _ _ (inv_found _ _ _ _ _ _ Hinv))
    as (HE & HT & _).
  rewrite (inv_extent _ _ _ _ _ _ Hinv), Hcur in HT |- *.
  split; [|done].
  rewrite (inv_next _ _ _ _ _ _ Hinv), <- words_total.
  rewrite !(words_items _ _ _ _ _ _ _ Hinv), HE. simpl room. 
  replace (items Bytes (emitted l) + 4 - 1) with (items Bytes (emitted l) + 3)
    by lia.
  replace (items Strings (emitted l) + 2 - 1)
    with (items Strings (emitted l) + 1) by lia.
  replace (items Bytes (emitted l) + items Strings (emitted l) + 32 - 1)
    with (items Bytes (emitted l) + items Strings (emitted l) + 31) by lia.
  lia.
Qed.

Lemma compress_size_formula_witness :
  ∃ ret s,
    compress [97; 98; 99; 97; 98; 99; 97; 98; 99; 100] 0 64 4 = Return ret s
    ∧ ret = 8 + 4 * ((items Bytes (emitted s) + items Strings (emitted s) + 31)
                     / 32)
            + 4 * ((items Bytes (emitted s) + 3) / 4)
            + 4 * ((items Strings (emitted s) + 1) / 2)
    ∧ extent (emitted s)
      = inputLength [97; 98; 99; 97; 98; 99; 97; 98; 99; 100]
    ∧ items Bytes (emitted s) + 3 * items Strings (emitted s)
      <= inputLength [97; 98; 99; 97; 98; 99; 97; 98; 99; 100].
Proof.
  eexists _, _. split; [by vm_compute|].
  eapply (compress_size_formula [97; 98; 99; 97; 98; 99; 97; 98; 99; 100]
            0 64 4);
    [repeat constructor; unfold is_byte; lia|by vm_compute
    |split; [by exists 2|lia]|lia|by vm_compute|by vm_compute].
Defined.

(** ** The empty input *)

(** X16.  For an empty input [compress] stores the two words of the header
    and nothing else, returns 8, and needs no more than 8 bytes of
    destination; [decompress] turns that stream into no byte at all,
    whatever the capacity. *)
Theorem compress_empty past outputLength dictionaryLength capacity :
  legal dictionaryLength → 8 <= outputLength → 0 <= capacity →
  (∃ s, compress [] past outputLength dictionaryLength = Return 8 s
        ∧ mem s = writeHeader 0 dictionaryLength ∅
        ∧ image (mem s) 2 = Some [0; dictionaryLength])
  ∧ Decoder.decompress [0; dictionaryLength] capacity = Decoder.Return 0 [].
Proof.
  intros (k & Hk & ->)%legal_log Hout Hcap. split.
  - rewrite compress_legal by done.
    destruct (Z.ltb_spec outputLength 8); [lia|].
    exists (start [] (2 ^ k)). split; [reflexivity|]. split; [done|].
    unfold image, start, writeHeader. change (seqZ 0 2) with [0; 1].
    cbn [mapM mbind option_bind mret option_ret mem].
    change (inputLength []) with 0.
    rewrite (lookup_insert_ne _ 1 0), !lookup_insert_eq by done. done.
  - rewrite (decompress_header _ capacity 0 (2 ^ k)) by done.
    destruct (Z.ltb_spec capacity 0); [lia|].
    destruct (legal_shift k Hk) as [-> _].
    by destruct (Z.ltb_spec k 0); [lia|].
Qed.

Lemma compress_empty_witness :
  (∃ s, compress [] 0 8 8192 = Return 8 s
        ∧ mem s = writeHeader 0 8192 ∅
        ∧ image (mem s) 2 = Some [0; 8192])
  ∧ Decoder.decompress [0; 8192] 0 = Decoder.Return 0 [].
Proof.
  apply (compress_empty 0 8 8192 0); [split; [by exists 13|lia]|lia|lia].
Defined.

(** ** The byte behind the input *)

Section Past.
Variable input : list Z.
Variables past past' : Z.

Lemma peek_past p :
  0 <= p < inputLength input → peek input past p = peek input past' p.
Proof.
  intros Hp. unfold peek.
  destruct (lookup_lt_is_Some_2 input (Z.to_nat p)) as [b ->]; [|done].
  unfold inputLength in Hp. lia.
Qed.

Lemma searchLoop_past current maxMatch fuel : ∀ search bestLength bestOffset,
  0 <= search → 0 <= bestLength → current < inputLength input →
  searchLoop input past current maxMatch fuel search bestLength bestOffset
  = searchLoop input past' current maxMatch fuel search bestLength bestOffset.
Proof.
  induction fuel as [|fuel IH]; intros search bl bo Hs Hbl Hc; [done|].
  simpl. destruct (Z.leb_spec (search + bl) current) as [Hle|]; [|done].
  unfold matchAt.
  rewrite (matchLoop_past input past past') by lia.
  destruct (matchLoop input past' current maxMatch _ search current 0)
    as [m|]; [|done].
  simpl. destruct (Z.geb_spec m bl); apply IH; lia.
Qed.

Lemma findMatch_past current maxOffset maxMatch :
  0 <= current < inputLength input →
  findMatch input past current maxOffset maxMatch
  = findMatch input past' current maxOffset maxMatch.
Proof.
  intros Hc. unfold findMatch. apply searchLoop_past; [|done|lia].
  destruct (Z.ltb_spec (current - maxOffset) 0); lia.
Qed.
End Past.

Section PastRun.
Variable input : list Z.
Variables past past' : Z.
Variable outputLength : Z.
Variables maxOffset maxMatch lengthShift : Z.

Lemma pushFlag_current isString s s' :
  pushFlag outputLength isString s = Next s' → current s' = current s.
Proof.
  unfold pushFlag, openFlags, putFlag, store.
  destruct s as [m n nb ny ns b bm y yc st sc cur em lay]. fields.
  destruct (bm =? 0); fields.
  - destruct (4 * n =? outputLength); fields; [discriminate|].
    change (wrap32 (1 ≪ 1) =? 0) with false. by intros [= <-].
  - destruct (wrap32 (bm ≪ 1) =? 0); [|by intros [= <-]].
    destruct (_ && _); fields; [|discriminate]. by intros [= <-].
Qed.

Lemma body_past s :
  0 <= current s < inputLength input →
  body input past outputLength maxOffset maxMatch lengthShift s
  = body input past' outputLength maxOffset maxMatch lengthShift s.
Proof.
  intros Hc. unfold body. rewrite (findMatch_past input past past') by done.
  destruct (findMatch input past' _ _ _) as [[bl bo]|]; [|done].
  destruct (openFlags outputLength s) as [s0|] eqn:H0; [|done]. fields.
  destruct (bl >? 2); [done|].
  destruct (putFlag outputLength false s0) as [s1|] eqn:H1; [|done]. fields.
  assert (current s1 = current s) as Hcur.
  { apply (pushFlag_current false). unfold pushFlag. rewrite H0. by fields. }
  destruct (openBytes outputLength s1) as [s2|] eqn:H2; [|done]. fields.
  assert (current s2 = current s1) as Hcur2.
  { revert H2. unfold openBytes. destruct (byteCount s1 =? 0); [|congruence].
    destruct (_ =? _); [done|]. by intros [= <-]. }
  unfold putByte, store. rewrite (peek_past input past past') by lia.
  destruct (_ =? 4); [|done]. destruct (_ && _); [|done].
  unfold set_mem. fields. by rewrite (peek_past input past past') by lia.
Qed.

Lemma body_advances s s' :
  body input past outputLength maxOffset maxMatch lengthShift s = Next s' →
  current s < current s'.
Proof.
  unfold body.
  destruct (findMatch input past _ _ _) as [[bl bo]|]; [|done].
  destruct (openFlags outputLength s) as [s0|] eqn:H0; [|done]. fields.
  destruct (Z.gtb_spec bl 2).
  - destruct (putFlag outputLength true s0) as [s1|] eqn:H1; [|done]. fields.
    assert (current s1 = current s) as Hcur.
    { apply (pushFlag_current true). unfold pushFlag. rewrite H0. by fields. }
    destruct (openStrings outputLength s1) as [s2|] eqn:H2; [|done]. fields.
    assert (current s2 = current s1) as Hcur2.
    { revert H2. unfold openStrings.
      destruct (stringCount s1 =? 0); [|congruence].
      destruct (_ =? _); [done|]. by intros [= <-]. }
    unfold putString, store. destruct (_ =? 2); fields.
    + destruct (_ && _); fields; [|done]. intros [= <-]. fields. lia.
    + intros [= <-]. fields. lia.
  - destruct (putFlag outputLength false s0) as [s1|] eqn:H1; [|done]. fields.
    assert (current s1 = current s) as Hcur.
    { apply (pushFlag_current false). unfold pushFlag. rewrite H0. by fields. }
    destruct (openBytes outputLength s1) as [s2|] eqn:H2; [|done]. fields.
    assert (current s2 = current s1) as Hcur2.
    { revert H2. unfold openBytes. destruct (byteCount s1 =? 0); [|congruence].
      destruct (_ =? _); [done|]. by intros [= <-]. }
    unfold putByte, store. destruct (_ =? 4); fields.
    + destruct (_ && _); fields; [|done]. intros [= <-]. fields. lia.
    + intros [= <-]. fields. lia.
Qed.

Lemma mainLoop_past fuel : ∀ s,
  0 <= current s →
  mainLoop input past outputLength maxOffset maxMatch lengthShift fuel s
  = mainLoop input past' outputLength maxOffset maxMatch lengthShift fuel s.
Proof.
  induction fuel as [|fuel IH]; intros s Hc; [done|]. simpl.
  destruct (Z.ltb_spec (current s) (inputLength input)); [|done].
  rewrite <- body_past by lia.
  destruct (body input past _ _ _ _ s) as [s'|] eqn:Hbody; [|done].
  apply body_advances in Hbody. apply IH. lia.
Qed.
End PastRun.

(** X4.  The inner loop of the search dereferences [p2] before it tests
    [p2 < end] (line 100), so it reads the byte behind the input; that byte
    never changes what [compress] stores or returns. *)
Theorem compress_ignores_byte_behind_input
    input past past' outputLength dictionaryLength :
  compress input past outputLength dictionaryLength
  = compress input past' outputLength dictionaryLength.
Proof.
  unfold compress.
  destruct (negb _); [done|]. destruct (_ <? 4); [done|].
  destruct (_ >? 16384); [done|]. destruct (_ <? 8); [done|].
  destruct (shiftLoop _ _ _); [|done]. by apply mainLoop_past.
Qed.

(** ** Termination of the encoder *)

Section Ends.
Variable input : list Z.
Variable past : Z.
Variable outputLength : Z.
Variables maxOffset maxMatch lengthShift : Z.

Lemma body_ends s :
  body input past outputLength maxOffset maxMatch lengthShift s
  ≠ Stop Unfinished.
Proof.
  unfold body.
  destruct (findMatch_total input past (current s) maxOffset maxMatch)
    as [[bl bo] ->].
  unfold openFlags, putFlag, openStrings, putString, openBytes, putByte, store.
  repeat (match goal with
          | |- context [if ?c then _ else _] => destruct c
          end; fields); done.
Qed.

Lemma finish_ends s : finish outputLength s ≠ Unfinished.
Proof.
  unfold finish, store.
  repeat (match goal with
          | |- context [if ?c then _ else _] => destruct c
          end; fields); done.
Qed.

Lemma mainLoop_ends fuel : ∀ s,
  (Z.to_nat (inputLength input - current s) < fuel)%nat →
  mainLoop input past outputLength maxOffset maxMatch lengthShift fuel s
  ≠ Unfinished.
Proof.
  induction fuel as [|fuel IH]; intros s Hfuel; [lia|]. simpl.
  destruct (Z.ltb_spec (current s) (inputLength input)); [|apply finish_ends].
  destruct (body _ _ _ _ _ _ s) as [s'|r] eqn:Hbody.
  - apply body_advances in Hbody. apply IH. lia.
  - intros ->. by apply body_ends in Hbody.
Qed.
End Ends.

(** X6.  [compress] ends on every input and for every argument: each
    search ends, and each iteration of the main loop consumes at least one
    byte of the input. *)
Theorem compress_ends input past outputLength dictionaryLength :
  compress input past outputLength dictionaryLength ≠ Unfinished.
Proof.
  destruct (compress input past outputLength dictionaryLength) eqn:Hrun;
    try done.
  exfalso. revert Hrun. unfold compress.
  destruct (Z.eqb_spec (Z.land dictionaryLength
                          (wrap32 (dictionaryLength - 1))) 0) as [H0|?];
    [|done].
  cbn [negb]. destruct (Z.ltb_spec dictionaryLength 4); [done|].
  destruct (Z.gtb_spec dictionaryLength 16384); [done|].
  destruct (_ <? 8); [done|].
  rewrite wrap32_id in H0 by (unfold int32; lia).
  apply land_pred_pow in H0; [|lia].
  assert (legal dictionaryLength) as (k & Hk & ->)%legal_log.
  { split; [|lia]. exists (Z.log2 dictionaryLength).
    split; [apply Z.log2_nonneg|done]. }
  destruct (legal_shift k Hk) as [-> _].
  apply mainLoop_ends. simpl. unfold inputLength. lia.
Qed.

(** ** The capacity of the destination *)

Section Capacity.
Variable input : list Z.
Variable past : Z.
Variables outputLength outputLength' : Z.

Lemma pushFlag_capacity isString s s' :
  wf outputLength s → pushFlag outputLength isString s = Next s' →
  4 * next s' <= outputLength' →
  pushFlag outputLength' isString s = Next s'.
Proof.
  intros Hwf. pose proof (wf_slot _ _ Hwf Flags) as Hs.
  pose proof (count_flags _ s Hwf) as Hm.
  unfold pushFlag, openFlags, putFlag, store.
  destruct s as [m n nb ny ns b bm y yc st sc cur em lay]. fields.
  destruct (Z.eqb_spec bm 0) as [->|Hbm].
  - destruct (Z.eqb_spec (4 * n) outputLength); fields; [discriminate|].
    change (wrap32 (1 ≪ 1) =? 0) with false. intros [= <-]. fields.
    intros Hfit. destruct (Z.eqb_spec (4 * n) outputLength'); [lia|done].
  - fields. destruct (wrap32 (bm ≪ 1) =? 0); [|done].
    destruct (_ && _) eqn:Hst; fields; [|discriminate]. intros [= <-]. fields.
    intros Hfit.
    assert (2 <= nb < n) by (apply Hs; by apply Z.eqb_neq).
    destruct (Z.leb_spec 0 nb); [|lia].
    by destruct (Z.leb_spec (4 * nb + 4) outputLength'); [|lia].
Qed.

Lemma pushString_capacity lengthShift bl bo s s' :
  wf outputLength s →
  pushString outputLength lengthShift bl bo s = Next s' →
  4 * next s' <= outputLength' →
  pushString outputLength' lengthShift bl bo s = Next s'.
Proof.
  intros Hwf. pose proof (wf_slot _ _ Hwf Strings) as Hs.
  unfold pushString, openStrings, putString, store.
  destruct s as [m n nb ny ns b bm y yc st sc cur em lay]. fields.
  destruct (Z.eqb_spec sc 0) as [->|Hsc].
  - destruct (Z.eqb_spec (4 * n) outputLength); fields; [discriminate|].
    change (0 + 1 =? 2) with false. intros [= <-]. fields.
    intros Hfit. destruct (Z.eqb_spec (4 * n) outputLength'); [lia|done].
  - fields. destruct (sc + 1 =? 2); [|done].
    destruct (_ && _) eqn:Hst; fields; [|discriminate]. intros [= <-]. fields.
    intros Hfit. specialize (Hs Hsc).
    destruct (Z.leb_spec 0 ns); [|lia].
    by destruct (Z.leb_spec (4 * ns + 4) outputLength'); [|lia].
Qed.

Lemma pushByte_capacity s s' :
  wf outputLength s → pushByte input past outputLength s = Next s' →
  4 * next s' <= outputLength' →
  pushByte input past outputLength' s = Next s'.
Proof.
  intros Hwf. pose proof (wf_slot _ _ Hwf Bytes) as Hs.
  unfold pushByte, openBytes, putByte, store.
  destruct s as [m n nb ny ns b bm y yc st sc cur em lay]. fields.
  destruct (Z.eqb_spec yc 0) as [->|Hyc].
  - destruct (Z.eqb_spec (4 * n) outputLength); fields; [discriminate|].
    change (0 + 1 =? 4) with false. intros [= <-]. fields.
    intros Hfit. destruct (Z.eqb_spec (4 * n) outputLength'); [lia|done].
  - fields. destruct (yc + 1 =? 4); [|done].
    destruct (_ && _) eqn:Hst; fields; [|discriminate]. intros [= <-]. fields.
    intros Hfit. specialize (Hs Hyc).
    destruct (Z.leb_spec 0 ny); [|lia].
    by destruct (Z.leb_spec (4 * ny + 4) outputLength'); [|lia].
Qed.
(** A store of [finish] that was inside the one destination is inside the
    other. *)
Local Ltac store_fits p :=
  destruct (Z.leb_spec 0 p); [|lia]; cbn [andb];
  destruct (Z.leb_spec (4 * p + 4) outputLength); fields; [|done];
  destruct (Z.leb_spec (4 * p + 4) outputLength'); [|lia]; fields.

Lemma finish_capacity s ret t :
  wf outputLength s → finish outputLength s = Return ret t →
  4 * next s <= outputLength' →
  finish outputLength' s = Return ret t.
Proof.
  intros Hwf. pose proof (wf_slot _ _ Hwf Flags) as HF.
  pose proof (wf_slot _ _ Hwf Bytes) as HB.
  pose proof (wf_slot _ _ Hwf Strings) as HS.
  pose proof (count_flags _ s Hwf) as Hm.
  unfold finish, store.
  destruct s as [m n nb ny ns b bm y yc st sc cur em lay]. fields.
  intros Hrun Hfit. revert Hrun.
  assert (bm ≠ 0 → 2 <= nb < n) as HF'
    by (intros Hb%Z.eqb_neq; apply HF, Z.eqb_neq; by rewrite <- Hm).
  destruct (Z.eqb_spec bm 0) as [->|Hbm]; fields;
    [|specialize (HF' Hbm); store_fits nb];
    (destruct (Z.eqb_spec yc 0) as [->|Hyc]; fields;
     [|specialize (HB Hyc); store_fits ny]);
    (destruct (Z.eqb_spec sc 0) as [->|Hsc]; fields;
     [done|specialize (HS Hsc); store_fits ns; done]).
Qed.
End Capacity.

Section CapacityRun.
Variable input : list Z.
Variable past : Z.
Variables outputLength outputLength' : Z.
Variables maxOffset maxMatch lengthShift : Z.

Hypothesis Hbytes : Forall is_byte input.
Hypothesis Hshift : 2 <= lengthShift <= 14.
Hypothesis HmaxOffset : maxOffset = 2 ^ lengthShift + 2.
Hypothesis HmaxMatch : maxMatch = 2 ^ (16 - lengthShift) + 2.
Hypothesis Hout : outputLength < 2 ^ 31.

Lemma body_capacity s s' :
  inv input past outputLength maxOffset maxMatch s →
  current s < inputLength input →
  body input past outputLength maxOffset maxMatch lengthShift s = Next s' →
  4 * next s' <= outputLength' →
  body input past outputLength' maxOffset maxMatch lengthShift s = Next s'.
Proof using Hbytes Hshift HmaxOffset HmaxMatch.
  intros [Hwf Hcur _ _ _ _ _] Hlt. rewrite !body_split.
  destruct (findMatch input past (current s) maxOffset maxMatch)
    as [[bl bo]|] eqn:Hfind; [|done].
  assert (0 <= maxOffset ∧ 0 <= maxMatch) as [Hmo Hmm] by (subst; lia).
  destruct (findMatch_sound input past (current s) maxOffset maxMatch bl bo)
    as (Hbl & Hblmax & Hbomax & Hbocur & Hend & Heq); [lia|done..|].
  destruct (Z.gtb_spec bl 2) as [Hgt|Hle].
  - destruct (pushFlag outputLength true s) as [s1|] eqn:H1; [|done].
    simpl. intros H2 Hfit.
    pose proof H1 as (Hp1 & _)%pushFlag_pushed; [|done].
    assert (wf outputLength s1) as Hwf1
      by (eapply pushed_wf; [done| |done]; simpl; lia).
    assert (0 <= packed lengthShift bl bo < 2 ^ 16) as Htok
      by (apply packed_range; lia).
    pose proof H2 as (Hp2 & _)%pushString_pushed; [|done..].
    pose proof (pushed_next _ _ _ _ _ Hp2) as Hn2.
    rewrite (pushFlag_capacity _ _ _ _ _ Hwf H1) by lia. simpl.
    by apply (pushString_capacity outputLength).
  - destruct (pushFlag outputLength false s) as [s1|] eqn:H1; [|done].
    simpl. intros H2 Hfit.
    pose proof H1 as (Hp1 & Hc1 & _)%pushFlag_pushed; [|done].
    assert (wf outputLength s1) as Hwf1
      by (eapply pushed_wf; [done| |done]; simpl; lia).
    assert (is_byte (peek input past (current s1))) as Hb
      by (apply peek_byte; [done|lia]).
    pose proof H2 as (Hp2 & _)%pushByte_pushed; [|done..].
    pose proof (pushed_next _ _ _ _ _ Hp2) as Hn2.
    rewrite (pushFlag_capacity _ _ _ _ _ Hwf H1) by lia. simpl.
    by apply (pushByte_capacity _ _ outputLength).
Qed.

(** A run that returned a length runs alike in every destination that
    holds the stream. *)
Lemma mainLoop_capacity fuel : ∀ s ret t,
  inv input past outputLength maxOffset maxMatch s →
  (Z.to_nat (inputLength input - current s) < fuel)%nat →
  mainLoop input past outputLength maxOffset maxMatch lengthShift fuel s
  = Return ret t →
  ret ≠ 0 → ret <= outputLength' →
  4 * next s <= ret
  ∧ mainLoop input past outputLength' maxOffset maxMatch lengthShift fuel s
    = Return ret t.
Proof using All.
  induction fuel as [|fuel IH]; intros s ret t Hinv Hfuel; [lia|].
  simpl. destruct (Z.ltb_spec (current s) (inputLength input)) as [Hlt|Hge].
  - destruct (body _ _ outputLength _ _ _ s) as [s'|r] eqn:Hbody.
    + intros Hrun Hret Hfit.
      pose proof Hbody as (Hinv' & Hadv & Hn & _)%body_inv; [|done..].
      destruct (IH s' ret t Hinv' ltac:(lia) Hrun Hret Hfit) as [Hle Hrun'].
      split; [lia|].
      by rewrite (body_capacity _ _ Hinv Hlt Hbody) by lia.
    + intros -> Hret. apply body_stop in Hbody as [Hr|Hr]; [| |done..].
      * by apply refused_success in Hr.
      * by apply overrun_success in Hr.
  - intros Hrun Hret Hfit.
    destruct (finish_spec outputLength s _ (inv_wf _ _ _ _ _ _ Hinv) eq_refl)
      as [Hr|(t' & Hr & _ & Hall & Hsto)].
    { rewrite Hrun in Hr. by apply overrun_success in Hr. }
    rewrite Hrun in Hr. injection Hr as -> <-.
    pose proof (wf_next _ _ (inv_wf _ _ _ _ _ _ Hinv)) as Hn2.
    assert (4 * next s <= outputLength) as Hle.
    { destruct (Hall (next s - 1)) as (w & Hw & _); [lia|].
      apply Hsto in Hw. lia. }
    rewrite wrap32_id in Hfit, Hrun |- * by (unfold int32; lia).
    split; [done|].
    exact (finish_capacity _ _ _ _ _ (inv_wf _ _ _ _ _ _ Hinv) Hrun Hfit).
Qed.
End CapacityRun.

(** X5.  The stream does not depend on the capacity: a call that returned a
    length returns the same length and stores the same words in every
    destination of at least that length, down to the length itself. *)
Theorem compress_capacity_irrelevant
    input past outputLength outputLength' dictionaryLength ret s :
  Forall is_byte input → inputLength input < 2 ^ 31 →
  legal dictionaryLength → outputLength < 2 ^ 31 →
  compress input past outputLength dictionaryLength = Return ret s →
  ret ≠ 0 → ret <= outputLength' →
  compress input past outputLength' dictionaryLength = Return ret s.
Proof.
  intros Hbytes Hlen (k & Hk & ->)%legal_log Hout Hrun Hret Hfit.
  destruct (compress_success input past outputLength k Hbytes Hlen Hk
              ret s Hout Hrun Hret)
    as (l & Hl & Hle & Hinv & _ & _ & _ & _ & _ & Hloop).
  pose proof (wf_next _ _ (inv_wf _ _ _ _ _ _ Hinv)) as Hn2.
  assert (8 <= outputLength) as Hge by lia.
  rewrite compress_legal by done.
  destruct (Z.ltb_spec outputLength' 8); [lia|].
  destruct (mainLoop_capacity input past outputLength outputLength' _ _ k
              Hbytes Hk eq_refl eq_refl Hout (S (length input))
              (start input (2 ^ k)) ret s) as [_ Hrun'];
    [by apply inv_start| |done..].
  unfold start, inputLength. simpl. lia.
Qed.

Lemma compress_capacity_irrelevant_witness :
  ∃ ret s,
    compress [97; 98; 99; 97; 98; 99; 97; 98; 99; 100] 0 1024 4 = Return ret s
    ∧ ret = 20
    ∧ compress [97; 98; 99; 97; 98; 99; 97; 98; 99; 100] 0 20 4
      = Return ret s.
Proof.
  eexists _, _. split; [by vm_compute|]. split; [done|].
  apply (compress_capacity_irrelevant
           [97; 98; 99; 97; 98; 99; 97; 98; 99; 100] 0 1024 20 4);
    [repeat constructor; unfold is_byte; lia|by vm_compute
    |split; [by exists 2|lia]|lia|by vm_compute|done|done].
Defined.

(** ** The decoder on arbitrary streams *)

Lemma wrap32_cong x : ∃ k, wrap32 x = x + k * 2 ^ 32.
Proof.
  unfold wrap32. cbv zeta. pose proof (Z.div_mod x (2 ^ 32) ltac:(lia)) as H.
  destruct (_ <? _); [exists (- (x / 2 ^ 32))|exists (- (x / 2 ^ 32) - 1)]; lia.
Qed.

Lemma land_255_byte x : is_byte (Z.land x 255).
Proof.
  unfold is_byte. change 255 with (Z.ones 8). rewrite Z.land_ones by lia.
  apply Z.mod_pos_bound. lia.
Qed.

Lemma shiftLoop_negative fuel : ∀ d lengthShift,
  d < 0 → shiftLoop fuel d lengthShift = None.
Proof.
  induction fuel as [|fuel IH]; intros d ls Hd; [done|]. simpl.
  destruct (Z.eqb_spec d 0); [lia|]. apply IH. by apply Z.shiftr_neg.
Qed.

Section Decode.
Variable W : list Z.
Variable capacity : Z.
Variables offsetMask lengthShift lengthMask : Z.
Variable n : Z.

Hypothesis HlengthMask : 0 <= lengthMask.

Abbreviation written s := (Z.of_nat (length (Decoder.output s))).
Abbreviation body :=
  (Decoder.body W capacity offsetMask lengthShift lengthMask).
Abbreviation mainLoop :=
  (Decoder.mainLoop W capacity offsetMask lengthShift lengthMask).

Lemma fetch_output s w s' :
  Decoder.fetch W s = Next (w, s') →
  Decoder.output s' = Decoder.output s
  ∧ Decoder.remaining s' = Decoder.remaining s.
Proof.
  unfold Decoder.fetch. destruct (W !! _); [|done]. by intros [= _ <-].
Qed.

(** An iteration that does not leave the function writes [len] >= 1 bytes
    inside the output buffer and takes [len] off [remaining]. *)
Lemma decode_step s s' :
  body s = Next s' →
  written s' <= capacity
  ∧ (∃ len k, 1 <= len ∧ written s' = written s + len
              ∧ Decoder.remaining s'
                = Decoder.remaining s - len + k * 2 ^ 32)
  ∧ (Forall is_byte (Decoder.output s) → Forall is_byte (Decoder.output s')).
Proof using HlengthMask.
  unfold Decoder.body.
  destruct (Decoder.fillFlags W s) as [s1|] eqn:H1; [|done].
  assert (Decoder.output s1 = Decoder.output s
          ∧ Decoder.remaining s1 = Decoder.remaining s) as [Ho1 Hr1].
  { revert H1. unfold Decoder.fillFlags. destruct (_ =? 0); [|by intros [= <-]].
    destruct (Decoder.fetch W s) as [[w t]|] eqn:Hf; [|done].
    apply fetch_output in Hf as [? ?]. by intros [= <-]. }
  dfields. destruct (negb _).
  - destruct (Decoder.fillStrings W s1) as [s2|] eqn:H2; [|done].
    assert (Decoder.output s2 = Decoder.output s1
            ∧ Decoder.remaining s2 = Decoder.remaining s1) as [Ho2 Hr2].
    { revert H2. unfold Decoder.fillStrings.
      destruct (_ =? 0); [|by intros [= <-]].
      destruct (Decoder.fetch W s1) as [[w t]|] eqn:Hf; [|done].
      apply fetch_output in Hf as [? ?]. by intros [= <-]. }
    dfields. unfold Decoder.copyString, Decoder.memcpy.
    rewrite Ho2, Ho1, Hr2, Hr1.
    set (L := Z.of_nat (length (Decoder.output s))) in *.
    set (len := Z.land _ lengthMask + 3).
    set (p := L - _ - 3).
    assert (3 <= len) by (pose proof (Z.land_nonneg
      (Z.shiftr (Decoder.strings s2) lengthShift) lengthMask); lia).
    destruct (Z.ltb_spec p 0); [done|].
    destruct (Z.ltb_spec L (p + len)); [done|].
    destruct (Z.ltb_spec capacity (L + len)); [done|].
    dfields. intros [= <-]. dfields.
    assert (Z.of_nat
              (length (Decoder.output s
                       ++ take (Z.to_nat len)
                            (drop (Z.to_nat p) (Decoder.output s))))
            = L + len) as ->.
    { rewrite length_app, length_take, length_drop. unfold L in *. lia. }
    split; [lia|]. split.
    + destruct (wrap32_cong (Decoder.remaining s - len)) as [k ->].
      exists len, k. lia.
    + intros Hb. apply Forall_app. split; [done|].
      by apply Forall_take, Forall_drop.
  - destruct (Decoder.fillBytes W s1) as [s2|] eqn:H2; [|done].
    assert (Decoder.output s2 = Decoder.output s1
            ∧ Decoder.remaining s2 = Decoder.remaining s1) as [Ho2 Hr2].
    { revert H2. unfold Decoder.fillBytes.
      destruct (_ =? 0); [|by intros [= <-]].
      destruct (Decoder.fetch W s1) as [[w t]|] eqn:Hf; [|done].
      apply fetch_output in Hf as [? ?]. by intros [= <-]. }
    dfields. unfold Decoder.writeByte. rewrite Ho2, Ho1, Hr2, Hr1.
    set (L := Z.of_nat (length (Decoder.output s))) in *.
    destruct (Z.leb_spec capacity L); [done|].
    dfields. intros [= <-]. dfields.
    rewrite length_app. simpl length. split; [lia|]. split.
    + destruct (wrap32_cong (Decoder.remaining s - 1)) as [k ->].
      exists 1, k. lia.
    + intros Hb. apply Forall_app. split; [done|].
      constructor; [apply land_255_byte|constructor].
Qed.

(** An iteration leaves the function only where the C standard leaves the
    behaviour undefined. *)
Lemma decode_faults s r : body s = Stop r → ∃ f, r = Decoder.Wrong f.
Proof.
  unfold Decoder.body, Decoder.fillFlags, Decoder.fillStrings,
    Decoder.fillBytes, Decoder.fetch, Decoder.copyString, Decoder.memcpy,
    Decoder.writeByte.
  repeat (match goal with
          | |- context [if ?c then _ else _] => destruct c
          | |- context [match ?c with Some _ => _ | None => _ end] =>
              destruct c
          end; dfields); intros [= <-]; eauto.
Qed.

(** The loop ends within its fuel: every iteration writes a byte. *)
Lemma decodeLoop_ends fuel : ∀ s,
  capacity - written s <= Z.of_nat fuel →
  mainLoop (S fuel) n s ≠ Decoder.Unfinished.
Proof using HlengthMask.
  induction fuel as [|fuel IH]; intros s Hfuel;
    cbn [Decoder.mainLoop]; (destruct (_ =? 0); [done|]);
    (destruct (body s) as [s'|r] eqn:Hbody;
     [|by destruct (decode_faults _ _ Hbody) as [f ->]]);
    apply decode_step in Hbody as (? & (len & k & ? & ? & _) & _).
  - lia.
  - apply IH. lia.
Qed.

(** What the loop returns: the length of the header, with as many bytes
    written, up to the wrap-around of [remaining]. *)
Lemma decodeLoop_returns fuel : ∀ s ret out,
  (∃ j, Decoder.remaining s + written s - n = j * 2 ^ 32) →
  Forall is_byte (Decoder.output s) →
  written s <= capacity →
  mainLoop fuel n s = Decoder.Return ret out →
  ret = n ∧ (∃ j, Z.of_nat (length out) - n = j * 2 ^ 32)
  ∧ Z.of_nat (length out) <= capacity ∧ Forall is_byte out.
Proof using HlengthMask.
  induction fuel as [|fuel IH]; intros s ret out [j Hj] Hb Hw; [done|]. simpl.
  destruct (Z.eqb_spec (Decoder.remaining s) 0) as [Hz|].
  - intros [= <- <-]. split; [done|]. split; [exists j; lia|done].
  - destruct (body s) as [s'|r] eqn:Hbody.
    + apply decode_step in Hbody as (? & (len & k & ? & Hl & Hr) & Hb').
      apply IH; [|by apply Hb'|done]. exists (j + k). lia.
    + by destruct (decode_faults _ _ Hbody) as [f ->].
Qed.
End Decode.

Lemma decompress_short W capacity :
  W !! 0%nat = None ∨ W !! 1%nat = None →
  Decoder.decompress W capacity = Decoder.Wrong Decoder.ReadPastInput.
Proof.
  unfold Decoder.decompress, Decoder.readHeader, Decoder.fetch. dfields.
  change (Z.to_nat 0) with 0%nat.
  destruct (W !! 0%nat); dfields; [|done].
  change (Z.to_nat (0 + 1)) with 1%nat. intros [?| ->]; done.
Qed.

Lemma lengthMask_nonneg offsetMask lengthShift :
  0 <= Z.shiftr (Z.land (Z.lnot offsetMask) 65535) lengthShift.
Proof. apply Z.shiftr_nonneg, Z.land_nonneg. lia. Qed.

(** X7.  On every stream and for every capacity [decompress] ends, by
    returning, by [error], or where the behaviour of the code is undefined:
    each iteration of its loop writes at least one byte, and none is
    written behind the output buffer. *)
Theorem decompress_ends W capacity :
  Decoder.decompress W capacity ≠ Decoder.Unfinished.
Proof.
  destruct (W !! 0%nat) as [n|] eqn:H0;
    [|by rewrite decompress_short by auto].
  destruct (W !! 1%nat) as [d|] eqn:H1;
    [|by rewrite decompress_short by auto].
  rewrite (decompress_header W capacity n d) by done.
  destruct (_ <? _); [done|].
  destruct (shiftLoop 33 d (-1)) as [ls|]; [|done].
  destruct (_ <? 0); [done|].
  apply decodeLoop_ends; [apply lengthMask_nonneg|]. simpl. lia.
Qed.

(** X8.  Whatever the stream, when [decompress] returns it returns the
    first word of the stream, has written exactly that many bytes (at most
    the capacity), and every one of them is a byte value. *)
Theorem decompress_returns_header_length W capacity ret out :
  Forall int32 W → capacity < 2 ^ 31 →
  Decoder.decompress W capacity = Decoder.Return ret out →
  W !! 0%nat = Some ret ∧ Z.of_nat (length out) = ret
  ∧ 0 <= ret <= capacity ∧ Forall is_byte out.
Proof.
  intros HW Hcap.
  destruct (W !! 0%nat) as [n|] eqn:H0;
    [|by rewrite decompress_short by auto].
  destruct (W !! 1%nat) as [d|] eqn:H1;
    [|by rewrite decompress_short by auto].
  rewrite (decompress_header W capacity n d) by done.
  destruct (Z.ltb_spec capacity n); [done|].
  destruct (shiftLoop 33 d (-1)) as [ls|]; [|done].
  destruct (_ <? 0); [done|].
  assert (int32 n) as Hn by (by eapply Forall_lookup_1 in H0).
  destruct (Z.lt_ge_cases capacity 0) as [Hneg|Hpos].
  - cbn [Decoder.mainLoop]. dfields.
    destruct (Z.eqb_spec n 0); [lia|].
    destruct (Decoder.body _ _ _ _ _ _) as [s'|r] eqn:Hbody.
    + apply decode_step in Hbody as (? & (len & k & ? & Hl & _) & _);
        [|apply lengthMask_nonneg]. simpl in Hl. lia.
    + by destruct (decode_faults _ _ _ _ _ _ _ Hbody) as [f ->].
  - intros (-> & [j Hj] & Hle & Hb)%decodeLoop_returns;
      [|apply lengthMask_nonneg|exists 0; simpl; lia|done|simpl; lia].
    unfold int32 in Hn. assert (j = 0) as -> by lia.
    split; [done|]. split; [lia|]. split; [lia|done].
Qed.

Lemma decompress_returns_header_length_witness :
  [6; 4; 8; 6513249; 0] !! 0%nat = Some 6
  ∧ Z.of_nat (length [97; 98; 99; 97; 98; 99]) = 6
  ∧ 0 <= 6 <= 7 ∧ Forall is_byte [97; 98; 99; 97; 98; 99].
Proof.
  apply (decompress_returns_header_length [6; 4; 8; 6513249; 0] 7);
    [repeat constructor; unfold int32; lia|lia|by vm_compute].
Defined.

(** X9.  [decompress] does not check the dictionary length of the header:
    with a negative one, [dictionaryLength >>= 1] never reaches 0 and the
    loop of line 211 does not end, whatever the rest of the stream. *)
Theorem decompress_negative_dictionary_hangs W capacity n d :
  W !! 0%nat = Some n → W !! 1%nat = Some d → n <= capacity → d < 0 →
  (∀ fuel lengthShift, shiftLoop fuel d lengthShift = None)
  ∧ Decoder.decompress W capacity = Decoder.Wrong Decoder.Hang.
Proof.
  intros H0 H1 Hn Hd. split; [intros; by apply shiftLoop_negative|].
  rewrite (decompress_header W capacity n d) by done.
  destruct (Z.ltb_spec capacity n); [lia|].
  by rewrite shiftLoop_negative.
Qed.

Lemma decompress_negative_dictionary_hangs_witness :
  (∀ fuel lengthShift, shiftLoop fuel (-8) lengthShift = None)
  ∧ Decoder.decompress [3; -8; 0; 6513249] 3 = Decoder.Wrong Decoder.Hang.
Proof.
  apply (decompress_negative_dictionary_hangs [3; -8; 0; 6513249] 3 3 (-8));
    [done|done|lia|lia].
Defined.

(** ** Words behind the stream *)

Section Trailing.
Variables W extra : list Z.
Variable capacity : Z.
Variables offsetMask lengthShift lengthMask : Z.

Abbreviation starved := (Decoder.Wrong Decoder.ReadPastInput).

Lemma fetch_app s :
  Decoder.fetch W s = Stop starved
  ∨ Decoder.fetch (W ++ extra) s = Decoder.fetch W s.
Proof.
  unfold Decoder.fetch.
  destruct (W !! _) as [w|] eqn:Hw; [right|by left].
  by rewrite (lookup_app_l_Some _ _ _ _ Hw).
Qed.

Lemma decode_app s :
  Decoder.body W capacity offsetMask lengthShift lengthMask s = Stop starved
  ∨ Decoder.body (W ++ extra) capacity offsetMask lengthShift lengthMask s
    = Decoder.body W capacity offsetMask lengthShift lengthMask s.
Proof.
  unfold Decoder.body.
  assert (Decoder.fillFlags W s = Stop starved
          ∨ Decoder.fillFlags (W ++ extra) s = Decoder.fillFlags W s)
    as [->| ->]; [|by left|].
  { unfold Decoder.fillFlags. destruct (_ =? 0); [|by right].
    destruct (fetch_app s) as [->| ->]; auto. }
  destruct (Decoder.fillFlags W s) as [s1|]; [|by right]. dfields.
  destruct (negb _).
  - assert (Decoder.fillStrings W s1 = Stop starved
            ∨ Decoder.fillStrings (W ++ extra) s1 = Decoder.fillStrings W s1)
      as [->| ->]; [|by left|by right].
    unfold Decoder.fillStrings. destruct (_ =? 0); [|by right].
    destruct (fetch_app s1) as [->| ->]; auto.
  - assert (Decoder.fillBytes W s1 = Stop starved
            ∨ Decoder.fillBytes (W ++ extra) s1 = Decoder.fillBytes W s1)
      as [->| ->]; [|by left|by right].
    unfold Decoder.fillBytes. destruct (_ =? 0); [|by right].
    destruct (fetch_app s1) as [->| ->]; auto.
Qed.

Lemma decodeLoop_app fuel n : ∀ s,
  Decoder.mainLoop W capacity offsetMask lengthShift lengthMask fuel n s
  = starved
  ∨ Decoder.mainLoop (W ++ extra) capacity offsetMask lengthShift lengthMask
      fuel n s
    = Decoder.mainLoop W capacity offsetMask lengthShift lengthMask fuel n s.
Proof.
  induction fuel as [|fuel IH]; intros s; [by right|]. simpl.
  destruct (_ =? 0); [by right|].
  destruct (decode_app s) as [->| ->]; [by left|].
  destruct (Decoder.body W _ _ _ _ s); [apply IH|by right].
Qed.
End Trailing.

(** X10.  [decompress] reads the stream word by word as it needs them:
    unless it runs off the end of the stream, what lies behind the words it
    has read changes nothing. *)
Theorem decompress_ignores_trailing_words W extra capacity :
  Decoder.decompress W capacity ≠ Decoder.Wrong Decoder.ReadPastInput →
  Decoder.decompress (W ++ extra) capacity = Decoder.decompress W capacity.
Proof.
  intros Hne.
  destruct (W !! 0%nat) as [n|] eqn:H0;
    [|by rewrite decompress_short in Hne by auto].
  destruct (W !! 1%nat) as [d|] eqn:H1;
    [|by rewrite decompress_short in Hne by auto].
  rewrite (decompress_header W capacity n d) in Hne |- * by done.
  rewrite (decompress_header (W ++ extra) capacity n d)
    by (by apply lookup_app_l_Some).
  destruct (_ <? _); [done|].
  destruct (shiftLoop 33 d (-1)) as [ls|]; [|done].
  destruct (_ <? 0); [done|].
  by destruct (decodeLoop_app W extra capacity (wrap32 (d - 1)) ls
                 (Z.shiftr (Z.land (Z.lnot (wrap32 (d - 1))) 65535) ls)
                 (S (Z.to_nat capacity)) n
                 (Decoder.Locals 2 0 0 0 0 0 0 [] n)).
Qed.

Lemma decompress_ignores_trailing_words_witness :
  Decoder.decompress ([6; 4; 8; 6513249; 0] ++ [77; 78]) 7
  = Decoder.decompress [6; 4; 8; 6513249; 0] 7.
Proof.
  apply (decompress_ignores_trailing_words [6; 4; 8; 6513249; 0] [77; 78] 7).
  by vm_compute.
Defined.

(** ** The tool: properties *)

(** What the tool needs of the representation: an [int] takes four bytes, from
    which it can be read back. *)
Definition representation (bytesOf : Z → list Z) (wordOf : list Z → Z) : Prop :=
  ∀ v, int32 v →
       length (bytesOf v) = 4%nat ∧ Forall is_byte (bytesOf v)
       ∧ wordOf (bytesOf v) = v.

Lemma littleEndian_representation : representation littleEndian ofLittleEndian.
Proof.
  intros v Hv. split; [done|]. unfold littleEndian, ofLittleEndian, is_byte.
  cbv zeta. simpl lookup. simpl default.
  pose proof (Z.mod_pos_bound v (2 ^ 32) ltac:(lia)) as Hu.
  set (u := v mod 2 ^ 32) in *. split.
  - repeat constructor; try (apply Z.mod_pos_bound; lia);
      Z.div_mod_to_equations; lia.
  - replace (u mod 256 + 256 * (u / 256 mod 256) + 65536 * (u / 65536 mod 256)
             + 16777216 * (u / 16777216)) with u
      by (Z.div_mod_to_equations; lia).
    unfold u. rewrite <- (wrap32_id v Hv) at 2.
    unfold wrap32. cbv zeta. by rewrite Z.mod_mod by lia.
Qed.

Section ToolFacts.
Variable bytesOf : Z → list Z.
Variable wordOf : list Z → Z.
Variable past : Z.

Hypothesis Hrep : representation bytesOf wordOf.

Lemma toBytes_length ws :
  Forall int32 ws → length (toBytes bytesOf ws) = (4 * length ws)%nat.
Proof using Hrep.
  unfold toBytes. induction 1 as [|v ws Hv _ IH]; [done|]. simpl.
  destruct (Hrep v Hv) as (Hl & _). rewrite length_app, Hl, IH. lia.
Qed.

Lemma toBytes_bytes ws :
  Forall int32 ws → Forall is_byte (toBytes bytesOf ws).
Proof using Hrep.
  unfold toBytes. induction 1 as [|v ws Hv _ IH]; [done|]. simpl.
  apply Forall_app. split; [|done]. by destruct (Hrep v Hv) as (_ & ? & _).
Qed.

Lemma chunks_toBytes ws :
  Forall int32 ws →
  chunks wordOf (length ws) (toBytes bytesOf ws) = ws.
Proof using Hrep.
  unfold toBytes. induction 1 as [|v ws Hv _ IH]; [done|]. simpl.
  destruct (Hrep v Hv) as (Hl & _ & Hw).
  rewrite take_app_length' by done. rewrite drop_app_length' by done.
  by rewrite Hw, IH.
Qed.

Lemma toWords_toBytes ws :
  Forall int32 ws → toWords wordOf (toBytes bytesOf ws) = ws.
Proof using Hrep.
  intros Hws. unfold toWords. rewrite toBytes_length by done.
  replace (4 * length ws / 4)%nat with (length ws); [by apply chunks_toBytes|].
  symmetry. rewrite Nat.mul_comm. by apply Nat.div_mul.
Qed.
End ToolFacts.

Lemma image_length m n W : image m n = Some W → length W = Z.to_nat n.
Proof.
  unfold image. intros HW%mapM_Some%Forall2_length.
  by rewrite <- HW, length_seqZ.
Qed.

(** The words of a stream that [compress] returned are [int]s. *)
Lemma compress_stored_int32 input past outputLength k ret s :
  Forall is_byte input → inputLength input < 2 ^ 31 → 2 <= k <= 14 →
  outputLength < 2 ^ 31 →
  compress input past outputLength (2 ^ k) = Return ret s → ret ≠ 0 →
  ∀ p w, mem s !! p = Some w → int32 w.
Proof.
  intros Hbytes Hlen Hk Hout Hrun Hret.
  assert (8 <= outputLength) as Hge.
  { rewrite compress_legal in Hrun by done.
    by destruct (Z.ltb_spec outputLength 8). }
  rewrite compress_legal in Hrun by done.
  destruct (Z.ltb_spec outputLength 8); [lia|].
  destruct (mainLoop_result input past outputLength _ _ k Hbytes Hk eq_refl
              eq_refl (S (length input)) _
              (inv_start input past outputLength k Hlen Hk Hge))
    as [(es & _ & Hr)|[Hr|(l & t & Hs & _ & _ & _ & _ & _ & Hsto & _)]].
  { unfold start, inputLength. simpl. lia. }
  - rewrite Hrun in Hr. by apply refused_success in Hr.
  - rewrite Hrun in Hr. by apply overrun_success in Hr.
  - rewrite Hrun in Hs. injection Hs as _ <-.
    intros p w Hw. by apply Hsto in Hw as (_ & _ & ?).
Qed.

(** What [compress] does in the tool: with a buffer of twice the input
    and 1024 bytes it returns a stream that decodes to the input. *)
Lemma compress_tool data past :
  Forall is_byte data → inputLength data < 2 ^ 30 - 512 →
  ∃ ret s ws,
    compress data past (2 * inputLength data + 1024) 8192 = Return ret s
    ∧ 8 <= ret ∧ 8 * ret <= 9 * inputLength data + 135
    ∧ image (mem s) ((ret + 3) / 4) = Some ws
    ∧ Z.of_nat (length ws) * 4 = ret ∧ Forall int32 ws
    ∧ ws !! 0%nat = Some (inputLength data)
    ∧ Decoder.decompress ws (inputLength data)
      = Decoder.Return (inputLength data) data.
Proof.
  intros Hbytes Hlen. set (N := inputLength data) in *.
  assert (0 <= N) by (unfold N, inputLength; lia).
  change 8192 with (2 ^ 13).
  destruct (compress_roomy data past (2 * N + 1024) 13)
    as (ret & s & Hrun & Hret); [done|fold N; lia|lia|lia|fold N; lia|].
  destruct (compress_success data past (2 * N + 1024) 13 Hbytes
              ltac:(fold N; lia) ltac:(lia) ret s ltac:(lia) Hrun ltac:(lia))
    as (l & Hl & _ & Hinv & Hcur & _ & _ & _ & [Hw0 _] & _).
  destruct (compress_replay data past (2 * N + 1024) 13 Hbytes
              ltac:(fold N; lia) ltac:(lia) ret s N ltac:(lia) ltac:(done)
              Hrun ltac:(lia))
    as (ws & Hws & Hdec).
  pose proof (inv_size_bound _ _ _ _ _ _ Hinv) as Hsize. rewrite Hcur in Hsize.
  fold N in Hsize.
  pose proof (wf_next _ _ (inv_wf _ _ _ _ _ _ Hinv)) as Hn2.
  assert ((ret + 3) / 4 = ret / 4) as Hq
    by (rewrite Hl; Z.div_mod_to_equations; lia).
  exists ret, s, ws. rewrite Hq.
  split; [done|]. split; [lia|]. split; [lia|]. split; [done|].
  pose proof (image_length _ _ _ Hws) as Hlw.
  split; [rewrite Hlw, Hl; Z.div_mod_to_equations; lia|].
  split; [|split; [|done]].
  - apply Forall_lookup_2. intros i w Hi.
    destruct (image_lookup _ _ _ Hws (Z.of_nat i)) as (w' & Hw' & Hm).
    { apply lookup_lt_Some in Hi. lia. }
    rewrite Nat2Z.id, Hi in Hw'. injection Hw' as <-.
    by eapply (compress_stored_int32 data past (2 * N + 1024) 13 ret s);
      [..|apply Hm]; try done; fold N; lia.
  - destruct (image_lookup _ _ _ Hws 0) as (w' & Hw' & Hm);
      [rewrite Hl; Z.div_mod_to_equations; lia|].
    change (Z.to_nat 0) with 0%nat in Hw'. fold N in Hw0. congruence.
Qed.

Lemma main_compress bytesOf wordOf past prog input_file output_file w :
  main bytesOf wordOf past [prog; "-c"; input_file; output_file] w
  = match files w !! input_file with
    | Some data =>
        compressFile bytesOf past data output_file
          (print ("Compressing " +:+ input_file) w)
    | None =>
        error ("Unable to open input file " +:+ input_file)
          (print ("Compressing " +:+ input_file) w)
    end.
Proof. reflexivity. Qed.

Lemma main_decompress bytesOf wordOf past prog input_file output_file w :
  main bytesOf wordOf past [prog; "-d"; input_file; output_file] w
  = match files w !! input_file with
    | Some data =>
        decompressFile wordOf data output_file
          (print ("Decompressing " +:+ input_file) w)
    | None =>
        error ("Unable to open input file " +:+ input_file)
          (print ("Decompressing " +:+ input_file) w)
    end.
Proof. reflexivity. Qed.

Section ToolRuns.
Variable bytesOf : Z → list Z.
Variable wordOf : list Z → Z.
Variable past : Z.

Hypothesis Hrep : representation bytesOf wordOf.

Lemma compressFile_spec data output_file w :
  Forall is_byte data → inputLength data < 2 ^ 30 - 512 →
  ∃ ws,
    compressFile bytesOf past data output_file w
    = Exited EXIT_SUCCESS (writeFile output_file (toBytes bytesOf ws) w)
    ∧ Forall int32 ws
    ∧ 8 <= 4 * Z.of_nat (length ws)
    ∧ 32 * Z.of_nat (length ws) <= 9 * inputLength data + 135
    ∧ ws !! 0%nat = Some (inputLength data)
    ∧ Decoder.decompress ws (inputLength data)
      = Decoder.Return (inputLength data) data.
Proof using Hrep.
  intros Hbytes Hlen.
  destruct (compress_tool data past Hbytes Hlen)
    as (ret & s & ws & Hrun & Hret & Hsize & Hws & Hlw & Hint & Hw0 & Hdec).
  exists ws. unfold compressFile. cbv zeta.
  fold (inputLength data). set (N := inputLength data) in *.
  assert (0 <= N) by (unfold N, inputLength; lia).
  rewrite (wrap32_id N) by (unfold int32; lia).
  destruct (Z.ltb_spec N 0); [lia|].
  destruct (Z.leb_spec (2 ^ 31) (N * 2 + 1024)); [lia|].
  rewrite take_ge by (unfold N, inputLength; lia).
  replace (N * 2 + 1024) with (2 * N + 1024) by lia. rewrite Hrun.
  destruct (Z.gtb_spec ret 0); [|lia]. rewrite Hws.
  rewrite take_ge by (rewrite (toBytes_length bytesOf wordOf Hrep) by done; lia).
  repeat split; try done; lia.
Qed.

Lemma decompressFile_spec ws data output_file w :
  Forall int32 ws → 4 * Z.of_nat (length ws) < 2 ^ 31 →
  ws !! 0%nat = Some (inputLength data) →
  Decoder.decompress ws (inputLength data)
  = Decoder.Return (inputLength data) data →
  decompressFile wordOf (toBytes bytesOf ws) output_file w
  = Exited EXIT_SUCCESS (writeFile output_file data w).
Proof using Hrep.
  intros Hint Hlen Hw0 Hdec. unfold decompressFile. cbv zeta.
  rewrite (toBytes_length bytesOf wordOf Hrep) by done.
  rewrite wrap32_id by (unfold int32; lia).
  destruct (Z.ltb_spec (Z.of_nat (4 * length ws)) 0); [lia|].
  rewrite take_ge by (rewrite (toBytes_length bytesOf wordOf Hrep) by done; lia).
  rewrite (toWords_toBytes bytesOf wordOf Hrep) by done.
  unfold Decoder.getDecompressedLength. rewrite Hw0.
  assert (0 <= inputLength data) by (unfold inputLength; lia).
  destruct (Z.ltb_spec (inputLength data) 0); [lia|]. rewrite Hdec.
  fold (inputLength data).
  destruct (Z.ltb_spec (inputLength data) (inputLength data)); [lia|].
  by rewrite take_ge by (unfold inputLength; lia).
Qed.
End ToolRuns.

(** X11.  The buffer that the tool gives [compress] ("expect that the
    compressed length will never be more than this", line 313) is always
    enough: for a file of fewer than 2^30 - 512 bytes, [lzss -c] exits
    with success having written a stream to [output_file], of at most 9/8
    of the length of the input plus 17 bytes, that starts with that
    length and decodes to the input. *)
Theorem tool_compress bytesOf wordOf past prog input_file output_file data w :
  representation bytesOf wordOf →
  files w !! input_file = Some data →
  Forall is_byte data → inputLength data < 2 ^ 30 - 512 →
  ∃ ws,
    main bytesOf wordOf past [prog; "-c"; input_file; output_file] w
    = Exited EXIT_SUCCESS
        (World (<[output_file := toBytes bytesOf ws]> (files w))
           (console w +:+ "Compressing " +:+ input_file))
    ∧ Forall is_byte (toBytes bytesOf ws)
    ∧ Z.of_nat (length (toBytes bytesOf ws)) = 4 * Z.of_nat (length ws)
    ∧ 8 <= 4 * Z.of_nat (length ws)
    ∧ 32 * Z.of_nat (length ws) <= 9 * inputLength data + 135
    ∧ ws !! 0%nat = Some (inputLength data)
    ∧ Decoder.decompress ws (inputLength data)
      = Decoder.Return (inputLength data) data.
Proof.
  intros Hrep Hfile Hbytes Hlen.
  destruct (compressFile_spec bytesOf wordOf past Hrep data output_file
              (print ("Compressing " +:+ input_file) w) Hbytes Hlen)
    as (ws & Hrun & Hint & H8 & Hsize & Hw0 & Hdec).
  exists ws.
  split; [|split; [by apply (toBytes_bytes bytesOf wordOf)|]];
    [|split; [rewrite (toBytes_length bytesOf wordOf Hrep); [lia|done]|done]].
  by rewrite main_compress, Hfile, Hrun.
Qed.

Lemma tool_compress_witness :
  ∃ ws,
    main littleEndian ofLittleEndian 0 ["lzss"; "-c"; "a"; "b"]
      (World {["a" := [97; 98; 99; 97; 98; 99; 97; 98; 99; 100]]} EmptyString)
    = Exited EXIT_SUCCESS
        (World (<["b" := toBytes littleEndian ws]>
                  {["a" := [97; 98; 99; 97; 98; 99; 97; 98; 99; 100]]})
           (EmptyString +:+ "Compressing " +:+ "a"))
    ∧ Forall is_byte (toBytes littleEndian ws)
    ∧ Z.of_nat (length (toBytes littleEndian ws)) = 4 * Z.of_nat (length ws)
    ∧ 8 <= 4 * Z.of_nat (length ws)
    ∧ 32 * Z.of_nat (length ws)
      <= 9 * inputLength [97; 98; 99; 97; 98; 99; 97; 98; 99; 100] + 135
    ∧ ws !! 0%nat = Some (inputLength [97; 98; 99; 97; 98; 99; 97; 98; 99; 100])
    ∧ Decoder.decompress ws
        (inputLength [97; 98; 99; 97; 98; 99; 97; 98; 99; 100])
      = Decoder.Return (inputLength [97; 98; 99; 97; 98; 99; 97; 98; 99; 100])
          [97; 98; 99; 97; 98; 99; 97; 98; 99; 100].
Proof.
  exact (tool_compress littleEndian ofLittleEndian 0 "lzss" "a" "b"
           [97; 98; 99; 97; 98; 99; 97; 98; 99; 100]
           (World {["a" := [97; 98; 99; 97; 98; 99; 97; 98; 99; 100]]}
              EmptyString)
           littleEndian_representation eq_refl
           ltac:(repeat constructor; unfold is_byte; lia)
           ltac:(by vm_compute)).
Defined.

(** X12.  What [lzss -c] wrote, [lzss -d] turns back into the file: for a
    file of fewer than 2^30 - 512 bytes both runs exit with success, the
    second leaves the bytes of the file in its [output_file], and no file
    other than the two output files has changed. *)
Theorem tool_roundtrip
    bytesOf wordOf past past' prog prog' input_file packed_file output_file
    data w :
  representation bytesOf wordOf →
  files w !! input_file = Some data →
  Forall is_byte data → inputLength data < 2 ^ 30 - 512 →
  ∃ w1 w2,
    main bytesOf wordOf past [prog; "-c"; input_file; packed_file] w
    = Exited EXIT_SUCCESS w1
    ∧ main bytesOf wordOf past' [prog'; "-d"; packed_file; output_file] w1
      = Exited EXIT_SUCCESS w2
    ∧ files w2 !! output_file = Some data
    ∧ ∀ name, name ≠ packed_file → name ≠ output_file →
              files w2 !! name = files w !! name.
Proof.
  intros Hrep Hfile Hbytes Hlen.
  destruct (compressFile_spec bytesOf wordOf past Hrep data packed_file
              (print ("Compressing " +:+ input_file) w) Hbytes Hlen)
    as (ws & Hrun & Hint & H8 & Hsize & Hw0 & Hdec).
  eexists _, _. split; [by rewrite main_compress, Hfile, Hrun|].
  rewrite main_decompress. cbn [files writeFile print].
  rewrite lookup_insert_eq.
  rewrite (decompressFile_spec bytesOf wordOf Hrep ws data) by (done || lia).
  split; [done|]. simpl. split; [by rewrite lookup_insert_eq|].
  intros name H1 H2. by rewrite !lookup_insert_ne by done.
Qed.

Lemma tool_roundtrip_witness :
  ∃ w1 w2,
    main littleEndian ofLittleEndian 0 ["lzss"; "-c"; "a"; "b"]
      (World {["a" := [97; 98; 99; 97; 98; 99; 97; 98; 99; 100]]} EmptyString)
    = Exited EXIT_SUCCESS w1
    ∧ main littleEndian ofLittleEndian 0 ["lzss"; "-d"; "b"; "c"] w1
      = Exited EXIT_SUCCESS w2
    ∧ files w2 !! "c" = Some [97; 98; 99; 97; 98; 99; 97; 98; 99; 100]
    ∧ ∀ name, name ≠ "b" → name ≠ "c" →
              files w2 !! name
              = ({["a" := [97; 98; 99; 97; 98; 99; 97; 98; 99; 100]]}
                   : gmap string (list Z)) !! name.
Proof.
  exact (tool_roundtrip littleEndian ofLittleEndian 0 0 "lzss" "lzss"
           "a" "b" "c" [97; 98; 99; 97; 98; 99; 97; 98; 99; 100]
           (World {["a" := [97; 98; 99; 97; 98; 99; 97; 98; 99; 100]]}
              EmptyString)
           littleEndian_representation eq_refl
           ltac:(repeat constructor; unfold is_byte; lia)
           ltac:(by vm_compute)).
Defined.

Lemma compressFile_touched bytesOf past data output_file w code w' :
  compressFile bytesOf past data output_file w = Exited code w' →
  w' = w ∨ (∃ text, w' = print text w)
  ∨ (code = EXIT_SUCCESS ∧ ∃ bytes, w' = writeFile output_file bytes w).
Proof.
  unfold compressFile. cbv zeta.
  destruct (_ <? 0); [done|]. destruct (_ <=? _); [done|].
  generalize (compress (take (Z.to_nat (wrap32 (Z.of_nat (length data)))) data)
                past (wrap32 (Z.of_nat (length data)) * 2 + 1024) 8192).
  intros [e|p| |ret s]; try done.
  - unfold error. intros [= <- <-]. eauto.
  - destruct (_ >? 0); [|intros [= <- <-]; eauto].
    destruct (image _ _); [|done]. intros [= <- <-]. eauto.
Qed.

Lemma decompressFile_touched wordOf data output_file w code w' :
  decompressFile wordOf data output_file w = Exited code w' →
  (∃ text, w' = print text w)
  ∨ (code = EXIT_SUCCESS ∧ ∃ bytes, w' = writeFile output_file bytes w).
Proof.
  unfold decompressFile. cbv zeta.
  destruct (_ <? 0); [done|].
  destruct (Decoder.getDecompressedLength _) as [n|]; [|done].
  destruct (_ <? 0); [done|].
  generalize (Decoder.decompress
                (toWords wordOf
                   (take (Z.to_nat (wrap32 (Z.of_nat (length data)))) data))
                n).
  intros [e|f| |ret out]; try done.
  - unfold error. intros [= <- <-]. eauto.
  - destruct (_ <? _); [done|]. intros [= <- <-]. eauto.
Qed.

(** X13.  Whatever its arguments and whatever the files hold, a run of
    the tool that exits has changed no file but the one named by its third
    argument, and a run that exits with failure has changed no file at all. *)
Theorem tool_writes_only_output_file
    bytesOf wordOf past argv w code w' :
  main bytesOf wordOf past argv w = Exited code w' →
  (∀ name, name ≠ default EmptyString (argv !! 3%nat) →
           files w' !! name = files w !! name)
  ∧ (code = EXIT_FAILURE → files w' = files w).
Proof.
  unfold main. cbv zeta. destruct (_ <? 4)%nat; [by intros [= <- <-]|].
  destruct (String.eqb _ "-c").
  { destruct (files _ !! _) as [data|]; [|by intros [= <- <-]].
    intros [->|[[text ->]|[-> [bytes ->]]]]%compressFile_touched;
      (split; [|done]); intros name Hname; cbn [files writeFile print];
      by rewrite ?lookup_insert_ne. }
  destruct (String.eqb _ "-d"); [|by intros [= <- <-]].
  destruct (files _ !! _) as [data|]; [|by intros [= <- <-]].
  intros [[text ->]|[-> [bytes ->]]]%decompressFile_touched;
    (split; [|done]); intros name Hname; cbn [files writeFile print];
    by rewrite ?lookup_insert_ne.
Qed.

Lemma tool_writes_only_output_file_witness :
  (∀ name, name ≠ default EmptyString (["lzss"; "-c"; "a"; "b"] !! 3%nat) →
           files (World (<["b" := [0; 0; 0; 0; 0; 32; 0; 0]]> {["a" := []]})
                    "Compressing a") !! name
           = files (World {["a" := []]} EmptyString) !! name)
  ∧ (EXIT_SUCCESS = EXIT_FAILURE →
     files (World (<["b" := [0; 0; 0; 0; 0; 32; 0; 0]]> {["a" := []]})
              "Compressing a")
     = files (World {["a" := []]} EmptyString)).
Proof.
  assert (main littleEndian ofLittleEndian 0 ["lzss"; "-c"; "a"; "b"]
            (World {["a" := []]} EmptyString)
          = Exited EXIT_SUCCESS
              (World (<["b" := [0; 0; 0; 0; 0; 32; 0; 0]]> {["a" := []]})
                 "Compressing a")) as Hrun by (by vm_compute).
  exact (tool_writes_only_output_file littleEndian ofLittleEndian 0
           ["lzss"; "-c"; "a"; "b"] (World {["a" := []]} EmptyString)
           EXIT_SUCCESS
           (World (<["b" := [0; 0; 0; 0; 0; 32; 0; 0]]> {["a" := []]})
              "Compressing a") Hrun).
Defined.


